(** * hkl: diffractometer geometry, solution lists, lattice and the q engine

    A shallow embedding of the parts of the hkl library that its
    specification makes claims about:

    - [hkl/hkl-geometry.c]: holders, geometries and the list of solutions;
    - the lattice code (check of the cell angles, B matrix and its inverse);
    - the [q] pseudo-axis engine (forward computation);
    - the slit fit of the SOLEIL SIXS MED 2+3 diffractometer;
    - further functions of these files: the construction of a geometry, the
      lookups by name, the values of all the axes, the multiplicity
      expansion, the engine q2 and the tables of the diffractometers.

    Conventions.  A C [double] that the code only stores, adds, subtracts and
    compares is a rational number ([Q]); the code that calls [cos], [sin] and
    [sqrt] (lattice, q engine) is modelled over the real numbers ([R]).  A
    [darray] is a list read with [!!] and written with [<[_:=_]>]; a pointer
    to a holder or an axis of a geometry is its index.  [GError] out-parameters
    only carry a message and are left out: a function returns its success flag,
    and an error kind where callers can tell errors apart.

    The file has two parts: the embedding (definitions), then the theorems. *)

From Stdlib Require Import QArith Qabs Qround ZArith Lia Psatz Permutation Sorted.
From Stdlib Require Import Reals.
From stdpp Require Import base list strings.

Open Scope Q_scope.

(** ** Constants of [math.h] and [hkl.h] *)

(** [M_PI], the double nearest to pi, as the rational it denotes. *)
Definition M_PI : Q := 884279719003555 # 281474976710656.

(** [HKL_EPSILON] is declared in [hkl.h], which is not among the sources; the
    upstream header gives 1e-6.  The theorems below use only its sign. *)
Definition HKL_EPSILON : Q := 1 # 1000000.

(** Strict and large comparison of doubles as booleans. *)
Definition Qltb (x y : Q) : bool := negb (Qle_bool y x).
Definition Qleb (x y : Q) : bool := Qle_bool x y.

(** ** Vectors and quaternions *)

Record HklVector := mkVector { vx : Q; vy : Q; vz : Q }.

Record HklQuaternion := mkQuaternion { qa : Q; qb : Q; qc : Q; qd : Q }.

(** The identity rotation, [{{1, 0, 0, 0}}] in the source. *)
Definition q0 : HklQuaternion := mkQuaternion 1 0 0 0.

(** Modelled from the spec: [hkl_quaternion_times_quaternion] lives in
    [hkl-quaternion.c], which is not among the sources.  The spec speaks of
    the product of quaternions; this is Hamilton's product, [self * q]. *)
Definition hkl_quaternion_times_quaternion (self q : HklQuaternion) : HklQuaternion :=
  mkQuaternion
    (qa self * qa q - qb self * qb q - qc self * qc q - qd self * qd q)
    (qa self * qb q + qb self * qa q + qc self * qd q - qd self * qc q)
    (qa self * qc q - qb self * qd q + qc self * qa q + qd self * qb q)
    (qa self * qd q + qb self * qc q - qc self * qb q + qd self * qa q).

Definition hkl_vector_eqb (u v : HklVector) : bool :=
  Qeq_bool (vx u) (vx v) && Qeq_bool (vy u) (vy v) && Qeq_bool (vz u) (vz v).

(** ** Parameters and axes *)

Record HklInterval := mkInterval { min : Q; max : Q }.

(** What the C code keeps in the structures that extend [HklParameter]
    ([HklAxis] and its variants) together with their table of operations: the
    kind of geometric transformation, its axis vector and origin, and for a
    rotation the cached quaternion of the current angle. *)
Inductive HklTransformation :=
| NoTransformation
| Rotation (axis_v : HklVector) (q : HklQuaternion)
| RotationWithOrigin (axis_v origin : HklVector) (q : HklQuaternion)
| Translation (axis_v : HklVector).

Record HklParameter := mkParameter {
  name : string;
  range : HklInterval;
  _value : Q;
  fit : bool;
  changed : bool;
  transformation : HklTransformation
}.

Definition is_rotation (p : HklParameter) : bool :=
  match transformation p with
  | Rotation _ _ | RotationWithOrigin _ _ _ => true
  | _ => false
  end.

(** The part of the axis kernel that is not among the sources and cannot be
    read off the spec: the quaternion of a rotation of a given angle around a
    given vector (trigonometry, [hkl-quaternion.c]).  The development is
    parametric in it. *)
Class AxisKernel := {
  hkl_quaternion_init_from_angle_and_axe : Q -> HklVector -> HklQuaternion
}.

(** Modelled from the spec: "quaternion get (rotations only; null for
    translations)"; [tests/hkl-axis-t.c] ([get_quaternions]) checks both cases.
    [None] is the C [NULL]. *)
Definition hkl_parameter_quaternion_get (p : HklParameter) : option HklQuaternion :=
  match transformation p with
  | Rotation _ q | RotationWithOrigin _ _ q => Some q
  | _ => None
  end.

(** Two parameters carry the same transformation: same kind, equal axis
    vector and origin. *)
Definition same_transformation (p1 p2 : HklParameter) : Prop :=
  match transformation p1, transformation p2 with
  | NoTransformation, NoTransformation => True
  | Rotation v1 _, Rotation v2 _ => hkl_vector_eqb v1 v2 = true
  | RotationWithOrigin v1 o1 _, RotationWithOrigin v2 o2 _ =>
      hkl_vector_eqb v1 v2 = true /\ hkl_vector_eqb o1 o2 = true
  | Translation v1, Translation v2 => hkl_vector_eqb v1 v2 = true
  | _, _ => False
  end.

(** Modelled from the spec: "transformation-cmp (two parameters are compatible
    iff same kind and exactly equal axis_v/origin)"; 0 means compatible, as
    [tests/hkl-axis-t.c] ([transformation_cmp]) checks. *)
Definition hkl_parameter_transformation_cmp (p1 p2 : HklParameter) : Z :=
  match transformation p1, transformation p2 with
  | NoTransformation, NoTransformation => 0%Z
  | Rotation v1 _, Rotation v2 _ => if hkl_vector_eqb v1 v2 then 0%Z else 1%Z
  | RotationWithOrigin v1 o1 _, RotationWithOrigin v2 o2 _ =>
      if hkl_vector_eqb v1 v2 && hkl_vector_eqb o1 o2 then 0%Z else 1%Z
  | Translation v1, Translation v2 => if hkl_vector_eqb v1 v2 then 0%Z else 1%Z
  | _, _ => 1%Z
  end.

(** [hkl_parameter_new_copy]: a deep copy is the value itself. *)
Definition hkl_parameter_new_copy (p : HklParameter) : HklParameter := p.

(** The cached quaternion of a rotation follows the angle. *)
Definition transformation_at `{AxisKernel} (t : HklTransformation) (value : Q)
  : HklTransformation :=
  match t with
  | Rotation v _ => Rotation v (hkl_quaternion_init_from_angle_and_axe value v)
  | RotationWithOrigin v o _ =>
      RotationWithOrigin v o (hkl_quaternion_init_from_angle_and_axe value v)
  | _ => t
  end.

(** Modelled from the spec: [hkl_parameter_value_set] ([hkl-parameter.c] and
    [hkl-axis.c] are not among the sources), called with [HKL_UNIT_DEFAULT]
    everywhere in the code modelled here.  "Setting NaN fails" (a rational is
    never NaN: the value given here is a number; the setters that a caller
    may hand a NaN to are modelled again in [AnyDouble] below, with that
    case) and "out-of-range on a bounded translation -> rejected";
    otherwise the value is stored and the parameter marked changed.  [None] is
    the C [FALSE], and then the parameter is left as it was. *)
Definition hkl_parameter_value_set `{AxisKernel} (self : HklParameter) (value : Q)
  : option HklParameter :=
  let stored :=
    mkParameter (name self) (range self) value (fit self) true
      (transformation_at (transformation self) value) in
  match transformation self with
  | Translation _ =>
      if Qleb (min (range self)) value && Qleb value (max (range self))
      then Some stored else None
  | _ => Some stored
  end.

(** [IGNORE(hkl_parameter_value_set(...))]: the flag is dropped. *)
Definition hkl_parameter_value_set_ignore `{AxisKernel} (self : HklParameter) (value : Q)
  : HklParameter :=
  match hkl_parameter_value_set self value with
  | Some p => p
  | None => self
  end.

(** A direct write of [axis->_value], as [perm_r] and the slit fit do: the
    cached quaternion and the changed mark are not touched. *)
Definition write_value (self : HklParameter) (value : Q) : HklParameter :=
  mkParameter (name self) (range self) value (fit self) (changed self)
    (transformation self).

(** GSL's [gsl_sf_angle_restrict_symm], with [M_PI] for its split constants:
    the angle modulo 2 pi, in [-pi, pi]. *)
Definition gsl_sf_angle_restrict_symm (theta : Q) : Q :=
  let sign := if Qltb theta 0 then -1 else 1 in
  let y := sign * 2 * inject_Z (Qfloor (Qabs theta / (2 * M_PI))) in
  let r := theta - y * M_PI in
  if Qltb M_PI r then r - 2 * M_PI
  else if Qltb r (- M_PI) then r + 2 * M_PI
  else r.

(** GSL's [gsl_sf_angle_restrict_pos]: the angle modulo 2 pi, in [0, 2 pi). *)
Definition gsl_sf_angle_restrict_pos (theta : Q) : Q :=
  let y := 2 * inject_Z (Qfloor (theta / (2 * M_PI))) in
  theta - y * M_PI.

(** Modelled from the spec: "orthodromic distance to another angle (wrap to
    shortest modulo 2 pi)" for a rotation, "linear distances" for the other
    parameters (glossary). *)
Definition hkl_parameter_orthodromic_distance_get (self : HklParameter) (value : Q) : Q :=
  if is_rotation self then
    let d := Qabs (gsl_sf_angle_restrict_symm value
                   - gsl_sf_angle_restrict_symm (_value self)) in
    if Qltb M_PI d then 2 * M_PI - d else d
  else Qabs (value - _value self).

(** Modelled from the spec: "smallest-in-range value (lift into
    [min, min + 2 pi) for rotations)"; the values of
    [tests/hkl-axis-t.c] ([set_value_smallest_in_range]) agree. *)
Definition smallest_in_range (self : HklParameter) : Q :=
  _value self
  - 2 * M_PI * inject_Z (Qfloor ((_value self - min (range self)) / (2 * M_PI))).

Definition hkl_parameter_value_set_smallest_in_range `{AxisKernel} (self : HklParameter)
  : HklParameter :=
  if is_rotation self
  then hkl_parameter_value_set_ignore self (smallest_in_range self)
  else self.

(** Modelled from the spec: "rotations accept any value but the valid range
    form also requires that value lifted into the range exists; translations
    must lie in [min,max]"; [tests/hkl-axis-t.c] ([is_valid]) has the cases. *)
Definition hkl_parameter_is_valid_range (self : HklParameter) : bool :=
  if is_rotation self
  then Qleb (smallest_in_range self) (max (range self))
  else Qleb (min (range self)) (_value self) && Qleb (_value self) (max (range self)).

(** The number of whole turns to add to the value of [self] to come closest
    to [ref] inside the range of [self]: the turns that keep the value in
    range run from [kmin] to [kmax], the one that comes closest to [ref]
    without the range is the nearest integer to [(ref - value) / 2 pi], and
    the distance to [ref] grows with the distance to that integer. *)
Definition closest_turns (self : HklParameter) (ref : Q) : option Z :=
  let kmin := Qceiling ((min (range self) - _value self) / (2 * M_PI)) in
  let kmax := Qfloor ((max (range self) - _value self) / (2 * M_PI)) in
  let k := Qfloor ((ref - _value self) / (2 * M_PI) + (1 # 2)) in
  if (kmax <? kmin)%Z then None else Some (Z.max kmin (Z.min kmax k)).

(** Modelled from the spec: [hkl_parameter_value_get_closest] ([hkl-axis.c] is
    not among the sources), "closest value to a reference (pick the
    2 pi-equivalent representative inside [min,max] nearest to a reference
    value; NaN if none)".  The representatives are those of the parameter's
    own value and the reference value is the value of [ref], as the cases of
    [tests/hkl-axis-t.c] ([get_value_closest]) have it.  A parameter that is
    not a rotation has no other representative than its value.  [None] is the
    C NaN. *)
Definition hkl_parameter_value_get_closest (self ref : HklParameter) : option Q :=
  if is_rotation self then
    match closest_turns self (_value ref) with
    | Some k => Some (_value self + inject_Z k * (2 * M_PI))
    | None => None
    end
  else if Qleb (min (range self)) (_value self) && Qleb (_value self) (max (range self))
  then Some (_value self)
  else None.

(** Modelled from the spec: "A write-axis is permutable iff it is a rotation
    and its range spans more than 2 pi". *)
Definition hkl_parameter_is_permutable (self : HklParameter) : bool :=
  is_rotation self && Qltb (2 * M_PI) (max (range self) - min (range self)).

(** ** Holders and geometries *)

(** A holder: the indices of its axes in the geometry ([config->idx], of
    length [config->len]) and the cached quaternion. *)
Record HklHolder := mkHolder {
  idx : list nat;
  q : HklQuaternion
}.

Record HklSource := mkSource {
  wave_length : Q;
  direction : HklVector
}.

(** The factory and the operations table of a geometry play no part in the
    functions modelled here. *)
Record HklGeometry := mkGeometry {
  source : HklSource;
  axes : list HklParameter;
  holders : list HklHolder
}.

Inductive HklUnitEnum := HKL_UNIT_DEFAULT | HKL_UNIT_USER.

(** A computation that may leave the process through [exit]. *)
Inductive outcome (A : Type) :=
| Return (a : A)
| Exit (code : Z).
Arguments Return {A} a.
Arguments Exit {A} code.

Definition set_axes (self : HklGeometry) (l : list HklParameter) : HklGeometry :=
  mkGeometry (source self) l (holders self).

(** *** [hkl_geometry_add_axis] *)

(** The [darray_foreach] loop: [i] counts the axes already passed. *)
Fixpoint add_axis_scan (l : list HklParameter) (axis : HklParameter) (i : nat)
  : option (outcome nat) :=
  match l with
  | [] => None
  | parameter :: rest =>
      if String.eqb (name parameter) (name axis) then
        if negb (Z.eqb (hkl_parameter_transformation_cmp parameter axis) 0)
        then Some (Exit 128)
        else Some (Return i)
      else add_axis_scan rest axis (S i)
  end.

Definition hkl_geometry_add_axis (self : HklGeometry) (axis : HklParameter)
  : outcome (HklGeometry * nat) :=
  match add_axis_scan (axes self) axis 0 with
  | Some (Exit code) => Exit code
  | Some (Return i) => Return (self, i)
  | None =>
      let axes' := axes self ++ [hkl_parameter_new_copy axis] in
      Return (set_axes self axes', (length axes' - 1)%nat)
  end.

(** *** [hkl_holder_update] *)

(** The loop over [config->idx]: a parameter without quaternion is passed
    over with [continue].  An index outside the geometry's axes cannot occur
    for a holder built with [hkl_holder_add_*]; the loop passes it over. *)
Fixpoint holder_update_loop (geometry_axes : list HklParameter) (l : list nat)
    (acc : HklQuaternion) : HklQuaternion :=
  match l with
  | [] => acc
  | i :: rest =>
      match geometry_axes !! i with
      | Some p =>
          match hkl_parameter_quaternion_get p with
          | None => holder_update_loop geometry_axes rest acc
          | Some qp =>
              holder_update_loop geometry_axes rest
                (hkl_quaternion_times_quaternion acc qp)
          end
      | None => holder_update_loop geometry_axes rest acc
      end
  end.

Definition hkl_holder_update (geometry_axes : list HklParameter) (self : HklHolder)
  : HklHolder :=
  mkHolder (idx self) (holder_update_loop geometry_axes (idx self) q0).

(** What the comment in [hkl_holder_update] documents: "we stop this
    computation at the first non rotation axis".  This definition follows the
    comment (and the spec), not the code; it is only compared with the
    code. *)
Fixpoint holder_update_documented (geometry_axes : list HklParameter) (l : list nat)
    (acc : HklQuaternion) : HklQuaternion :=
  match l with
  | [] => acc
  | i :: rest =>
      match geometry_axes !! i with
      | Some p =>
          match hkl_parameter_quaternion_get p with
          | None => acc
          | Some qp =>
              holder_update_documented geometry_axes rest
                (hkl_quaternion_times_quaternion acc qp)
          end
      | None => acc
      end
  end.

(** *** Construction, wavelength, update *)

(** [hkl_source_init] ([hkl-source.c]) is taken to store what it is given. *)
Definition hkl_geometry_new : HklGeometry :=
  mkGeometry (mkSource (154 # 100) (mkVector 1 0 0)) [] [].

Definition hkl_geometry_add_holder (self : HklGeometry) : HklGeometry * nat :=
  (mkGeometry (source self) (axes self) (holders self ++ [mkHolder [] q0]),
   length (holders self)).

(** [hkl_holder_add_axis_if_not_present], on holder [h] of the geometry. *)
Definition hkl_holder_add_axis_if_not_present (self : HklGeometry) (h : nat) (i : nat)
  : HklGeometry :=
  match holders self !! h with
  | Some holder =>
      if existsb (Nat.eqb i) (idx holder) then self
      else mkGeometry (source self) (axes self)
             (<[h := mkHolder (idx holder ++ [i]) (q holder)]> (holders self))
  | None => self
  end.

(** Modelled from [tests/hkl-axis-t.c] ([new]): a fresh rotation has the range
    [-pi, pi], the value 0 and is fitted. *)
Definition hkl_parameter_new_rotation `{AxisKernel} (n : string) (axis_v : HklVector)
  : HklParameter :=
  mkParameter n (mkInterval (- M_PI) M_PI) 0 true true
    (Rotation axis_v (hkl_quaternion_init_from_angle_and_axe 0 axis_v)).

Definition hkl_holder_add_rotation `{AxisKernel} (self : HklGeometry) (h : nat)
    (n : string) (x y z : Q) : outcome HklGeometry :=
  match hkl_geometry_add_axis self (hkl_parameter_new_rotation n (mkVector x y z)) with
  | Return (g, i) => Return (hkl_holder_add_axis_if_not_present g h i)
  | Exit code => Exit code
  end.

Definition hkl_geometry_wavelength_get (self : HklGeometry) (unit_type : HklUnitEnum) : Q :=
  wave_length (source self).

(** Returns the geometry after the call and the flag the C function returns.
    The call is made with an error location free of any earlier error, which
    is what the assertion [hkl_error (error == NULL || *error == NULL)] asks of
    the caller; the wavelength itself is not tested. *)
Definition hkl_geometry_wavelength_set (self : HklGeometry) (wavelength : Q)
    (unit_type : HklUnitEnum) : HklGeometry * bool :=
  (mkGeometry (mkSource wavelength (direction (source self))) (axes self) (holders self),
   true).

Definition clear_changed (axis : HklParameter) : HklParameter :=
  mkParameter (name axis) (range axis) (_value axis) (fit axis) false
    (transformation axis).

(** [hkl_geometry_update]: recompute every holder when an axis is marked
    changed, then clear the marks. *)
Definition hkl_geometry_update (self : HklGeometry) : HklGeometry :=
  if existsb changed (axes self) then
    mkGeometry (source self)
      (map clear_changed (axes self))
      (map (hkl_holder_update (axes self)) (holders self))
  else self.

(** *** Distances between geometries *)

(** [hkl_geometry_distance]: the sum over the axes of [fabs(value2 - value1)].
    The C loop runs over the axes of [self] and reads the same index in
    [ref]; both geometries come from one factory and have as many axes. *)
Definition hkl_geometry_distance (self ref : HklGeometry) : Q :=
  fold_left (fun distance '(axis1, axis2) => distance + Qabs (_value axis2 - _value axis1))
    (zip (axes self) (axes ref)) 0.

Definition hkl_geometry_distance_orthodromic (self ref : HklGeometry) : Q :=
  fold_left (fun distance '(axis1, axis2) =>
               distance + hkl_parameter_orthodromic_distance_get axis1 (_value axis2))
    (zip (axes self) (axes ref)) 0.

Definition hkl_geometry_is_valid_range (self : HklGeometry) : bool :=
  forallb hkl_parameter_is_valid_range (axes self).

(** *** [hkl_geometry_closest_from_geometry_with_range] *)

(** The first loop: the closest value of every axis, or [None] as soon as one
    is NaN ([ko = TRUE; break]).  The C code would read past the end of a
    shorter [ref]; this is not modelled. *)
Fixpoint closest_values (self_axes ref_axes : list HklParameter)
  : option (list Q) :=
  match self_axes, ref_axes with
  | [], _ => Some []
  | axis :: l, r :: l' =>
      match hkl_parameter_value_get_closest axis r with
      | None => None
      | Some v =>
          match closest_values l l' with
          | Some values => Some (v :: values)
          | None => None
          end
      end
  | _ :: _, [] => None
  end.

(** The second loop: every axis is set, the flag of the setter is ignored. *)
Fixpoint set_values `{AxisKernel} (l : list HklParameter) (values : list Q)
  : list HklParameter :=
  match l, values with
  | axis :: l', v :: values' =>
      hkl_parameter_value_set_ignore axis v :: set_values l' values'
  | _, _ => l
  end.

(** Returns the geometry after the call and [ko], the value the C function
    returns: [false] on success, [true] when an axis has no closest value. *)
Definition hkl_geometry_closest_from_geometry_with_range `{AxisKernel}
    (self ref : HklGeometry) : HklGeometry * bool :=
  match closest_values (axes self) (axes ref) with
  | Some values =>
      (hkl_geometry_update (set_axes self (set_values (axes self) values)), false)
  | None => (self, true)
  end.

(** ** The list of geometries *)

(** The items in list order.  The counter [n_items] is kept equal to the
    number of items by every function of the file and is read as the length;
    the [multiply] hook is passed to the functions that call it. *)
Record HklGeometryList := mkGeometryList { items : list HklGeometry }.

Definition hkl_geometry_list_new : HklGeometryList := mkGeometryList [].

Definition hkl_geometry_list_n_items_get (self : HklGeometryList) : nat :=
  length (items self).

(** [hkl_geometry_new_copy]: a deep copy is the value itself. *)
Definition hkl_geometry_new_copy (src : HklGeometry) : HklGeometry := src.

Definition hkl_geometry_list_add (self : HklGeometryList) (geometry : HklGeometry)
  : HklGeometryList :=
  if existsb (fun item =>
                Qltb (hkl_geometry_distance_orthodromic geometry item) HKL_EPSILON)
       (items self)
  then self
  else mkGeometryList (items self ++ [hkl_geometry_new_copy geometry]).

Definition hkl_geometry_list_remove_invalid (self : HklGeometryList) : HklGeometryList :=
  mkGeometryList (filter (fun item => hkl_geometry_is_valid_range item = true) (items self)).

(** *** [hkl_geometry_list_sort] *)

(** The test of the inner [for] loop, on [idx[p] = a] and the saved [x]. *)
Definition sort_before (distances : list Q) (a x : nat) : bool :=
  Qltb (nth a distances 0) (nth x distances 0)
  && Qltb HKL_EPSILON (Qabs (nth a distances 0 - nth x distances 0)).

(** [for(p = 0; test; p++);] run for at most [fuel] steps.  The loop is
    entered with [fuel = i]: it cannot pass [i], where [idx[i]] is [x] itself
    and the test fails ([sort_find_p_enough] below). *)
Fixpoint sort_find_p (distances : list Q) (idx : list nat) (x p fuel : nat) : nat :=
  match fuel with
  | O => p
  | S fuel' =>
      if sort_before distances (nth p idx 0%nat) x
      then sort_find_p distances idx x (S p) fuel'
      else p
  end.

(** [for(j = i - 1; j >= p; j--) idx[j+1] = idx[j];] with [j1 = j + 1]. *)
Fixpoint sort_shift (idx : list nat) (p j1 : nat) : list nat :=
  match j1 with
  | O => idx
  | S j =>
      if (p <=? j)%nat
      then sort_shift (<[S j := nth j idx 0%nat]> idx) p j
      else idx
  end.

(** The outer loop, from [i] on, for [fuel] rounds. *)
Fixpoint sort_insertion (distances : list Q) (idx : list nat) (i fuel : nat) : list nat :=
  match fuel with
  | O => idx
  | S fuel' =>
      let x := nth i idx 0%nat in
      let p := sort_find_p distances idx x 0 i in
      let idx' := <[p := x]> (sort_shift idx p i) in
      sort_insertion distances idx' (S i) fuel'
  end.

Definition sort_distances (self : HklGeometryList) (ref : HklGeometry) : list Q :=
  map (hkl_geometry_distance ref) (items self).

Definition sort_idx (self : HklGeometryList) (ref : HklGeometry) : list nat :=
  let n := length (items self) in
  sort_insertion (sort_distances self ref) (seq 0 n) 1 (n - 1).

Definition hkl_geometry_list_sort (self : HklGeometryList) (ref : HklGeometry)
  : HklGeometryList :=
  mkGeometryList (omap (fun k => items self !! k) (sort_idx self ref)).

(** *** [perm_r] and [hkl_geometry_list_multiply_from_range] *)

Definition write_axis (geometry : HklGeometry) (axis_idx : nat) (value : Q) : HklGeometry :=
  set_axes geometry (alter (fun axis => write_value axis value) axis_idx (axes geometry)).

(** The [do ... while] loop of [perm_r] on one permutable axis; [rec] is the
    recursive call on the next axis.  The loop runs once, then once more for
    each further turn that stays under [max + HKL_EPSILON]: [perm_r_turns]
    bounds it. *)
Fixpoint perm_r_loop (rec : list HklGeometry -> HklGeometry -> list HklGeometry * HklGeometry)
    (axis_idx : nat) (max : Q) (fuel : nat)
    (self : list HklGeometry) (geometry : HklGeometry) (value : Q)
  : list HklGeometry * HklGeometry :=
  match fuel with
  | O => (self, geometry)
  | S fuel' =>
      let '(self, geometry) := rec self geometry in
      let value := value + 2 * M_PI in
      if Qleb value (max + HKL_EPSILON)
      then perm_r_loop rec axis_idx max fuel' self (write_axis geometry axis_idx value) value
      else (self, geometry)
  end.

Definition perm_r_turns (max value0 : Q) : nat :=
  S (Z.to_nat (Qfloor ((max + HKL_EPSILON - value0) / (2 * M_PI)))).

(** [perm_r]; [depth] is the number of axes still to visit.  The working
    geometry is threaded through, since the C code writes into it and
    restores it. *)
Fixpoint perm_r (depth : nat) (self : list HklGeometry) (ref geometry : HklGeometry)
    (axis_idx : nat) : list HklGeometry * HklGeometry :=
  if (axis_idx =? length (axes geometry))%nat then
    (if Qltb HKL_EPSILON (hkl_geometry_distance geometry ref)
     then self ++ [hkl_geometry_new_copy geometry] else self,
     geometry)
  else
    match depth, axes geometry !! axis_idx with
    | S depth', Some axis =>
        if hkl_parameter_is_permutable axis then
          let max := max (range axis) in
          let value0 := _value axis in
          let '(self, geometry) :=
            perm_r_loop (fun s g => perm_r depth' s ref g (S axis_idx))
              axis_idx max (perm_r_turns max value0) self geometry value0 in
          (self, write_axis geometry axis_idx value0)
        else perm_r depth' self ref geometry (S axis_idx)
    | _, _ => (self, geometry)
    end.

(** One round of the loop of [hkl_geometry_list_multiply_from_range], on the
    item at position [i]. *)
Definition multiply_from_range_item `{AxisKernel} (self : list HklGeometry) (i : nat)
  : list HklGeometry :=
  match self !! i with
  | Some item =>
      let geometry :=
        set_axes item
          (map (fun axis => if hkl_parameter_is_permutable axis
                            then hkl_parameter_value_set_smallest_in_range axis
                            else axis) (axes item)) in
      fst (perm_r (length (axes geometry)) self item geometry 0)
  | None => self
  end.

Definition hkl_geometry_list_multiply_from_range `{AxisKernel} (self : HklGeometryList)
  : HklGeometryList :=
  mkGeometryList
    (fold_left multiply_from_range_item (seq 0 (length (items self))) (items self)).

(** Sequences of the list operations that keep the items apart. *)
Inductive list_operation :=
| Add (geometry : HklGeometry)
| RemoveInvalid
| Sort (ref : HklGeometry).

Definition run_operation (self : HklGeometryList) (op : list_operation) : HklGeometryList :=
  match op with
  | Add geometry => hkl_geometry_list_add self geometry
  | RemoveInvalid => hkl_geometry_list_remove_invalid self
  | Sort ref => hkl_geometry_list_sort self ref
  end.

Definition run_operations (ops : list list_operation) : HklGeometryList :=
  fold_left run_operation ops hkl_geometry_list_new.

(** Which axes of a geometry are rotations. *)
Definition axis_kinds (geometry : HklGeometry) : list bool :=
  map is_rotation (axes geometry).

(** ** SOLEIL SIXS MED 2+3: the orientation of the slits
    ([hkl/hkl-engine-soleil-sixs-med.c]) *)

(** Sequencing of calls that may [exit]. *)
Global Instance outcome_bind : MBind outcome := fun A B f o =>
  match o with
  | Return a => f a
  | Exit code => Exit code
  end.

(** [hkl_geometry_new_soleil_sixs_med_2_3]: three axes for the sample, four
    for the detector, "beta" being common to both holders. *)
Definition hkl_geometry_new_soleil_sixs_med_2_3 `{AxisKernel} : outcome HklGeometry :=
  let '(self, h) := hkl_geometry_add_holder hkl_geometry_new in
  self ← hkl_holder_add_rotation self h "beta" 0 (-1) 0;
  self ← hkl_holder_add_rotation self h "mu" 0 0 1;
  self ← hkl_holder_add_rotation self h "omega" 0 (-1) 0;
  let '(self, h) := hkl_geometry_add_holder self in
  self ← hkl_holder_add_rotation self h "beta" 0 (-1) 0;
  self ← hkl_holder_add_rotation self h "gamma" 0 0 1;
  self ← hkl_holder_add_rotation self h "delta" 0 (-1) 0;
  hkl_holder_add_rotation self h "eta_a" (-1) 0 0.

Inductive gsl_status := GSL_SUCCESS | GSL_CONTINUE | GSL_FAILURE.

(** What a run of GSL's hybrid solver on [slits_func] does to the program:
    the points at which it evaluates the function, in order (the start, the
    trial points, the random restarts), and the status of the residual test
    when the loop is left.  The solver itself is not modelled: the theorems
    hold for every run. *)
Record solver_run := mkRun {
  evaluations : list Q;
  status : gsl_status
}.

Definition set_axis_value `{AxisKernel} (geometry : HklGeometry) (i : nat) (value : Q)
  : HklGeometry :=
  set_axes geometry
    (alter (fun axis => hkl_parameter_value_set_ignore axis value) i (axes geometry)).

(** [slits_func] at [x]: its effect on the geometry.  The residual it hands
    to the solver (the scalar product of the surface with the rotated normal
    of the slits) only steers the solver. *)
Definition slits_func `{AxisKernel} (geometry : HklGeometry) (slits_id : nat) (x : Q)
  : HklGeometry :=
  hkl_geometry_update (set_axis_value geometry slits_id x).

(** [fit_slits_orientation]: the geometry after the fit and the flag
    returned. *)
Definition fit_slits_orientation `{AxisKernel} (run : solver_run)
    (geometry : HklGeometry) (slits_id : nat) : HklGeometry * bool :=
  let geometry :=
    fold_left (fun g x => slits_func g slits_id x) (evaluations run) geometry in
  match status run with
  | GSL_CONTINUE => (geometry, false)
  | _ =>
      (set_axes geometry
         (alter (fun axis => write_value axis (gsl_sf_angle_restrict_pos (_value axis)))
            slits_id (axes geometry)),
       true)
  end.

(** [hkl_geometry_list_multiply_soleil_sixs_med_2_3] on the geometry of an
    item.  The surface vector it computes is read by [slits_func] only.  A
    geometry without a second holder, or whose second holder is empty, is not
    one of this diffractometer; it is returned as it is. *)
Definition hkl_geometry_list_multiply_soleil_sixs_med_2_3 `{AxisKernel}
    (run : solver_run) (geometry : HklGeometry) : HklGeometry :=
  match holders geometry !! 1%nat with
  | Some detector_holder =>
      match last (idx detector_holder) with
      | Some slits_id =>
          match axes geometry !! slits_id with
          | Some axis =>
              let slits_position := _value axis in
              let '(fitted, res) := fit_slits_orientation run geometry slits_id in
              if res then fitted
              else set_axis_value fitted slits_id slits_position
          | None => geometry
          end
      | None => geometry
      end
  | None => geometry
  end.

(** * The lattice (the lattice source file, over the real numbers) *)

(** [HKL_TAU] is a macro of [hkl.h], which is not among the sources; the
    development is parametric in it. *)
Class Constants := { HKL_TAU : R }.

Module Lattice.
Local Open Scope R_scope.

Inductive HklUnit := hkl_unit_length_nm | hkl_unit_angle_rad | hkl_unit_angle_deg.

(** A plain [HklParameter], with real bounds and value. *)
Record HklParameter := mkParameter {
  name : string;
  min : R;
  max : R;
  _value : R;
  fit : bool;
  changed : bool;
  unit : HklUnit;
  punit : HklUnit
}.

(** The functions of [hkl-parameter.c] and [hkl-unit.c] that the lattice
    calls; these files are not among the sources and the spec does not say
    when the first two fail.  [None] is the C [NULL] or [FALSE]. *)
Class ParameterKernel := {
  hkl_parameter_new :
    string -> R -> R -> R -> bool -> bool -> HklUnit -> HklUnit -> option HklParameter;
  hkl_parameter_value_set : HklParameter -> R -> option HklParameter;
  hkl_unit_factor : HklUnit -> HklUnit -> R
}.

(** What is assumed of them: a parameter that was created or set holds the
    value that was given. *)
Definition stores_values `{ParameterKernel} : Prop :=
  (forall n lo v hi f c u pu p,
     hkl_parameter_new n lo v hi f c u pu = Some p -> _value p = v) /\
  (forall p v p', hkl_parameter_value_set p v = Some p' -> _value p' = v).

(** Modelled from the spec: [hkl_parameter_value_get] ([hkl-parameter.c] is
    not among the sources), "value get/set (default or user unit)" where
    "conversion uses the Parameter's display-unit factor": the stored value
    in the default unit, and the inverse of [convert_to_default] in the user
    unit.  The lattice code modelled here reads it in the default unit
    only. *)
Definition hkl_parameter_value_get `{ParameterKernel} (self : HklParameter)
    (unit_type : HklUnitEnum) : R :=
  match unit_type with
  | HKL_UNIT_DEFAULT => _value self
  | HKL_UNIT_USER => _value self * hkl_unit_factor (unit self) (punit self)
  end.

Record HklLattice := mkLattice {
  a : HklParameter;
  b : HklParameter;
  c : HklParameter;
  alpha : HklParameter;
  beta : HklParameter;
  gamma : HklParameter;
  volume : HklParameter
}.

Inductive lattice_error :=
| HKL_LATTICE_CHECK_LATTICE
| HKL_PARAMETER_ERROR.

Definition convert_to_default `{ParameterKernel} (p : HklParameter) (value : R)
    (unit_type : HklUnitEnum) : R :=
  match unit_type with
  | HKL_UNIT_DEFAULT => value
  | HKL_UNIT_USER => value / hkl_unit_factor (unit p) (punit p)
  end.

(** The quantity [D] of [check_lattice_param]. *)
Definition lattice_D (alpha beta gamma : R) : R :=
  1 - cos alpha * cos alpha - cos beta * cos beta
  - cos gamma * cos gamma + 2 * cos alpha * cos beta * cos gamma.

(** [check_lattice_param]: the volume, or the error it sets. *)
Definition check_lattice_param (a b c alpha beta gamma : R) : lattice_error + R :=
  let D := lattice_D alpha beta gamma in
  if Rlt_dec D 0 then inl HKL_LATTICE_CHECK_LATTICE
  else inr (a * b * c * sqrt D).


(** [IGNORE(hkl_parameter_value_set(p, previous, ...))] of the roll-back. *)
Definition restore `{ParameterKernel} (p : HklParameter) (previous : R) : HklParameter :=
  match hkl_parameter_value_set p previous with
  | Some p' => p'
  | None => p
  end.

(** [hkl_lattice_set]: the lattice after the call, and the error if the call
    returns [FALSE].  The parameters are set one after the other; at the
    first refusal those already set are put back ([restore_...] labels). *)
Definition hkl_lattice_set `{ParameterKernel} (self : HklLattice)
    (a b c alpha beta gamma : R) (unit_type : HklUnitEnum)
  : HklLattice * option lattice_error :=
  let previous_a := hkl_parameter_value_get (Lattice.a self) HKL_UNIT_DEFAULT in
  let previous_b := hkl_parameter_value_get (Lattice.b self) HKL_UNIT_DEFAULT in
  let previous_c := hkl_parameter_value_get (Lattice.c self) HKL_UNIT_DEFAULT in
  let previous_alpha := hkl_parameter_value_get (Lattice.alpha self) HKL_UNIT_DEFAULT in
  let previous_beta := hkl_parameter_value_get (Lattice.beta self) HKL_UNIT_DEFAULT in
  let previous_gamma := hkl_parameter_value_get (Lattice.gamma self) HKL_UNIT_DEFAULT in
  let new_a := convert_to_default (Lattice.a self) a unit_type in
  let new_b := convert_to_default (Lattice.b self) b unit_type in
  let new_c := convert_to_default (Lattice.c self) c unit_type in
  let new_alpha := convert_to_default (Lattice.alpha self) alpha unit_type in
  let new_beta := convert_to_default (Lattice.beta self) beta unit_type in
  let new_gamma := convert_to_default (Lattice.gamma self) gamma unit_type in
  match check_lattice_param new_a new_b new_c new_alpha new_beta new_gamma with
  | inl e => (self, Some e)
  | inr new_volume =>
    let failed pa pb pc palpha pbeta pgamma :=
      (mkLattice pa pb pc palpha pbeta pgamma (volume self), Some HKL_PARAMETER_ERROR) in
    match hkl_parameter_value_set (Lattice.a self) new_a with
    | None => (self, Some HKL_PARAMETER_ERROR)
    | Some pa =>
    match hkl_parameter_value_set (Lattice.b self) new_b with
    | None =>
        failed (restore pa previous_a) (Lattice.b self) (Lattice.c self)
          (Lattice.alpha self) (Lattice.beta self) (Lattice.gamma self)
    | Some pb =>
    match hkl_parameter_value_set (Lattice.c self) new_c with
    | None =>
        failed (restore pa previous_a) (restore pb previous_b) (Lattice.c self)
          (Lattice.alpha self) (Lattice.beta self) (Lattice.gamma self)
    | Some pc =>
    match hkl_parameter_value_set (Lattice.alpha self) new_alpha with
    | None =>
        failed (restore pa previous_a) (restore pb previous_b) (restore pc previous_c)
          (Lattice.alpha self) (Lattice.beta self) (Lattice.gamma self)
    | Some palpha =>
    match hkl_parameter_value_set (Lattice.beta self) new_beta with
    | None =>
        failed (restore pa previous_a) (restore pb previous_b) (restore pc previous_c)
          (restore palpha previous_alpha) (Lattice.beta self) (Lattice.gamma self)
    | Some pbeta =>
    match hkl_parameter_value_set (Lattice.gamma self) new_gamma with
    | None =>
        failed (restore pa previous_a) (restore pb previous_b) (restore pc previous_c)
          (restore palpha previous_alpha) (restore pbeta previous_beta)
          (Lattice.gamma self)
    | Some pgamma =>
    match hkl_parameter_value_set (volume self) new_volume with
    | None =>
        failed (restore pa previous_a) (restore pb previous_b) (restore pc previous_c)
          (restore palpha previous_alpha) (restore pbeta previous_beta)
          (restore pgamma previous_gamma)
    | Some pvolume =>
        (mkLattice pa pb pc palpha pbeta pgamma pvolume, None)
    end end end end end end end
  end.







End Lattice.

(** * The q engine (the source file of the q, q2 and qper_qpar engines) *)

Module EngineQ.
Local Open Scope R_scope.

(** A vector with real coordinates: [data[0]], [data[1]], [data[2]]. *)
Record HklVector := mkVector { data0 : R; data1 : R; data2 : R }.

Inductive HklDetector := HKL_DETECTOR_TYPE_0D.

(** What the forward computation reads through functions that are not among
    the sources: the incoming and outgoing wave vectors of a geometry (its
    operations table) and the angle between two vectors
    ([hkl-vector.c]). *)
Class VectorKernel := {
  hkl_geometry_ki_get : HklGeometry -> HklVector;
  hkl_geometry_kf_get : HklGeometry -> HklDetector -> HklVector;
  hkl_vector_angle : HklVector -> HklVector -> R
}.

(** [hkl_source_get_wavelength] reads the wavelength of the source. *)
Definition hkl_source_get_wavelength (self : HklSource) : R :=
  Q2R (wave_length self).

Definition qmax `{Constants} (wavelength : R) : R :=
  2 * HKL_TAU / wavelength.

(** The engine: the value of its pseudo-axis [q]. *)
Record HklEngineQ := mkEngineQ { q_value : R }.

(** [get_q_real]: the engine after the call and the flag returned. *)
Definition get_q_real `{Constants} `{VectorKernel} (engine : HklEngineQ)
    (geometry : HklGeometry) (detector : HklDetector) : HklEngineQ * bool :=
  let wavelength := hkl_source_get_wavelength (source geometry) in
  let ki := hkl_geometry_ki_get geometry in
  let kf := hkl_geometry_kf_get geometry detector in
  let theta := hkl_vector_angle ki kf / 2 in
  let theta :=
    if Rlt_dec (data1 kf) 0 then - theta
    else if Rlt_dec (data2 kf) 0 then - theta
    else theta in
  (mkEngineQ (qmax wavelength * sin theta), true).

End EngineQ.

(** ** Data for the examples *)

(** A kernel to run examples with: a rational stand-in for the quaternion of
    a rotation, the first-order one, exact at angle 0. *)
Definition example_kernel : AxisKernel := {|
  hkl_quaternion_init_from_angle_and_axe := fun angle v =>
    mkQuaternion 1 (angle / 2 * vx v) (angle / 2 * vy v) (angle / 2 * vz v)
|}.

(** A geometry with the single rotation "tth" around -y, as the detector arm
    of a four-circle diffractometer.  The list operations read the value and
    the range only; the cached quaternion is left at the identity. *)
Definition one_axis_geometry (lo hi value : Q) : HklGeometry :=
  mkGeometry (mkSource (154 # 100) (mkVector 1 0 0))
    [mkParameter "tth" (mkInterval lo hi) value true false
       (Rotation (mkVector 0 (-1) 0) q0)]
    [].

(** The geometry of the SOLEIL SIXS MED 2+3 diffractometer, as its
    constructor builds it (with the kernel of the examples). *)
Definition sixs_med_2_3_geometry : HklGeometry :=
  match @hkl_geometry_new_soleil_sixs_med_2_3 example_kernel with
  | Return geometry => geometry
  | Exit _ => hkl_geometry_new
  end.

(** Instances to run the lattice and the q engine on examples: [HKL_TAU] as
    2 pi, parameters that store what they are given, a unit factor of 1, and
    wave vectors along x and y at a right angle. *)
Definition example_constants : Constants := {| HKL_TAU := (2 * PI)%R |}.

Definition example_parameter_kernel : Lattice.ParameterKernel := {|
  Lattice.hkl_parameter_new := fun n lo v hi f c u pu =>
    Some (Lattice.mkParameter n lo hi v f c u pu);
  Lattice.hkl_parameter_value_set := fun p v =>
    Some (Lattice.mkParameter (Lattice.name p) (Lattice.min p) (Lattice.max p) v
            (Lattice.fit p) true (Lattice.unit p) (Lattice.punit p));
  Lattice.hkl_unit_factor := fun _ _ => 1%R
|}.

Definition example_vector_kernel : EngineQ.VectorKernel := {|
  EngineQ.hkl_geometry_ki_get := fun _ => EngineQ.mkVector 1 0 0;
  EngineQ.hkl_geometry_kf_get := fun _ _ => EngineQ.mkVector 0 1 0;
  EngineQ.hkl_vector_angle := fun _ _ => (PI / 2)%R
|}.

(** ** Functions the proofs compare the loops with *)

(** The insertion of [hkl_geometry_list_sort] on the sorted prefix, read as a
    list function: [x] goes before the first index that the test of the inner
    loop does not pass. *)
Fixpoint insert_before (distances : list Q) (x : nat) (prefix : list nat) : list nat :=
  match prefix with
  | [] => [x]
  | a :: rest =>
      if sort_before distances a x
      then a :: insert_before distances x rest
      else x :: a :: rest
  end.

(** How many leading indices pass the test. *)
Fixpoint leading (distances : list Q) (x : nat) (prefix : list nat) : nat :=
  match prefix with
  | [] => O
  | a :: rest =>
      if sort_before distances a x then S (leading distances x rest) else O
  end.

(** Orders on the indices of the sort, through their distances. *)
Definition within_tolerance (distances : list Q) (a b : nat) : Prop :=
  nth a distances 0 <= nth b distances 0 + HKL_EPSILON.

Definition strictly_closer (distances : list Q) (a b : nat) : Prop :=
  nth a distances 0 < nth b distances 0.

Definition apart (distances : list Q) (a b : nat) : Prop :=
  HKL_EPSILON < Qabs (nth a distances 0 - nth b distances 0).

(** Two geometries that the list keeps apart: their orthodromic distance, in
    either order, is at least [HKL_EPSILON]. *)
Definition kept_apart (g h : HklGeometry) : Prop :=
  HKL_EPSILON <= hkl_geometry_distance_orthodromic g h /\
  HKL_EPSILON <= hkl_geometry_distance_orthodromic h g.

(** Two states of an axis that differ at most by the changed mark. *)
Definition same_axis_position (a a' : HklParameter) : Prop :=
  name a' = name a /\ range a' = range a /\ _value a' = _value a /\
  fit a' = fit a /\ transformation a' = transformation a.

(** Two states of an axis that differ at most by the value, the quaternion
    cached for it and the changed mark. *)
Definition same_axis (a a' : HklParameter) : Prop :=
  name a' = name a /\ range a' = range a /\ fit a' = fit a /\
  is_rotation a' = is_rotation a.

(** [g'] is [g] up to the position of the axis [k] and the changed marks. *)
Definition same_but_axis (k : nat) (g g' : HklGeometry) : Prop :=
  length (axes g') = length (axes g) /\
  (forall i a, i <> k -> axes g !! i = Some a ->
     exists a', axes g' !! i = Some a' /\ same_axis_position a a') /\
  (forall a, axes g !! k = Some a ->
     exists a', axes g' !! k = Some a' /\ same_axis a a').

(** [v] is a representative of the value of [a]: the value itself or, for a
    rotation, the value moved by whole turns. *)
Definition representative (a : HklParameter) (v : Q) : Prop :=
  if is_rotation a
  then exists k : Z, v == _value a + inject_Z k * (2 * M_PI)
  else v == _value a.

Definition in_range (a : HklParameter) (v : Q) : Prop :=
  min (range a) <= v <= max (range a).

(** The geometry [g'] is a state that the slit fit on the axis [k] of [g]
    may pass through: the holders list the same axes, the axes other than
    [k] carry the transformation they had, and the axis [k] is of the same
    kind around the same vector, so that it gets the same transformation
    when it is set to a value. *)
Definition slit_fit_state `{AxisKernel} (k : nat) (g g' : HklGeometry) : Prop :=
  length (axes g') = length (axes g) /\
  map idx (holders g') = map idx (holders g) /\
  (forall i a a', i <> k -> axes g !! i = Some a -> axes g' !! i = Some a' ->
     transformation a' = transformation a) /\
  (forall a a', axes g !! k = Some a -> axes g' !! k = Some a' ->
     is_rotation a' = is_rotation a /\
     forall x, transformation_at (transformation a') x
               = transformation_at (transformation a) x).

(** * More of [hkl/hkl-geometry.c]: building a geometry, axes by name, all the
    axis values *)

(** ** Adding an axis to a holder *)

(** The body that [hkl_holder_add_parameter], [hkl_holder_add_rotation],
    [hkl_holder_add_rotation_with_origin] and [hkl_holder_add_translation]
    share, [axis] being the parameter that each of them creates: the axis
    goes to the geometry, then its index to the holder [h]. *)
Definition holder_add (self : HklGeometry) (h : nat) (axis : HklParameter)
  : outcome HklGeometry :=
  match hkl_geometry_add_axis self axis with
  | Return (g, i) => Return (hkl_holder_add_axis_if_not_present g h i)
  | Exit code => Exit code
  end.

(** [DBL_MAX] of [float.h], the largest double. *)
Definition DBL_MAX : Q := inject_Z (2 ^ 1024 - 2 ^ 971).

(** Modelled from [tests/hkl-axis-t.c] ([new]): a fresh translation has the
    range [-DBL_MAX, DBL_MAX], the value 0, is fitted, and has no quaternion
    ([get_quaternions]). *)
Definition hkl_parameter_new_translation (n : string) (axis_v : HklVector)
  : HklParameter :=
  mkParameter n (mkInterval (- DBL_MAX) DBL_MAX) 0 true true (Translation axis_v).

Definition hkl_holder_add_translation (self : HklGeometry) (h : nat)
    (n : string) (x y z : Q) : outcome HklGeometry :=
  holder_add self h (hkl_parameter_new_translation n (mkVector x y z)).

(** A way to build a geometry: the calls made on it after
    [hkl_geometry_new], in order.  [AddAxis h axis] is one of the four
    [hkl_holder_add_*] functions on the holder [h], creating [axis]. *)
Inductive construction_step :=
| AddHolder
| AddAxis (h : nat) (axis : HklParameter).

Definition run_construction_step (o : outcome HklGeometry) (step : construction_step)
  : outcome HklGeometry :=
  match o with
  | Exit code => Exit code
  | Return self =>
      match step with
      | AddHolder => Return (fst (hkl_geometry_add_holder self))
      | AddAxis h axis => holder_add self h axis
      end
  end.

Definition run_construction (steps : list construction_step) : outcome HklGeometry :=
  fold_left run_construction_step steps (Return hkl_geometry_new).

(** ** Axes by name *)

(** The loop of [hkl_geometry_get_axis_idx_by_name], [i] counting the axes
    already passed; -1 when no axis has the name. *)
Fixpoint axis_idx_scan (l : list HklParameter) (n : string) (i : nat) : Z :=
  match l with
  | [] => (-1)%Z
  | axis :: rest =>
      if String.eqb (name axis) n then Z.of_nat i else axis_idx_scan rest n (S i)
  end.

Definition hkl_geometry_get_axis_idx_by_name (self : HklGeometry) (n : string) : Z :=
  axis_idx_scan (axes self) n 0.

(** The loop of [hkl_geometry_get_axis_by_name] and of
    [hkl_geometry_axis_get]: the first axis of that name. *)
Fixpoint axis_scan (l : list HklParameter) (n : string) : option HklParameter :=
  match l with
  | [] => None
  | axis :: rest => if String.eqb (name axis) n then Some axis else axis_scan rest n
  end.

(** [None] is the C [NULL]. *)
Definition hkl_geometry_get_axis_by_name (self : HklGeometry) (n : string)
  : option HklParameter :=
  axis_scan (axes self) n.

Inductive geometry_error :=
| HKL_GEOMETRY_ERROR_AXIS_GET
| HKL_GEOMETRY_ERROR_AXIS_SET.

(** [hkl_geometry_axis_get]: the axis, or the error that is set when [NULL]
    is returned. *)
Definition hkl_geometry_axis_get (self : HklGeometry) (n : string)
  : geometry_error + HklParameter :=
  match axis_scan (axes self) n with
  | Some axis => inr axis
  | None => inl HKL_GEOMETRY_ERROR_AXIS_GET
  end.

(** ** All the axis values *)

(** [hkl_geometry_axis_values_get] in the default unit: the array that is
    filled, or [None] when [n_values] is not the number of axes
    ([g_return_if_fail]: nothing is written). *)
Definition hkl_geometry_axis_values_get (self : HklGeometry) (n_values : nat)
  : option (list Q) :=
  if (n_values =? length (axes self))%nat
  then Some (map _value (axes self))
  else None.

(** The loop of [hkl_geometry_axis_values_set] and of
    [hkl_geometry_set_values_v], in the default unit: the axes are set in
    order; at the first refusal the function leaves the loop, and the axes set
    so far keep their new value.  Returns the axes and whether all were
    set. *)
Fixpoint set_values_loop `{AxisKernel} (l : list HklParameter) (values : list Q)
  : list HklParameter * bool :=
  match l, values with
  | axis :: l', v :: values' =>
      match hkl_parameter_value_set axis v with
      | Some axis' =>
          let '(rest, ok) := set_values_loop l' values' in (axis' :: rest, ok)
      | None => (l, false)
      end
  | _, _ => (l, true)
  end.

(** [hkl_geometry_axis_values_set]: the geometry after the call and the flag
    returned; [None] when [hkl_assert(n_values == darray_size(self->axes))]
    fails.  On a refusal the function returns at once:
    [hkl_geometry_update] is not called. *)
Definition hkl_geometry_axis_values_set `{AxisKernel} (self : HklGeometry)
    (values : list Q) : option (HklGeometry * bool) :=
  if (length values =? length (axes self))%nat then
    let '(l, ok) := set_values_loop (axes self) values in
    Some (if ok then (hkl_geometry_update (set_axes self l), true)
          else (set_axes self l, false))
  else None.

(** [hkl_geometry_set_values_v]: the values are the variable arguments, one
    is read for each axis ([None] when there are too few: the C code reads
    past its arguments).  On a refusal [hkl_geometry_update] is called before
    [FALSE] is returned. *)
Definition hkl_geometry_set_values_v `{AxisKernel} (self : HklGeometry)
    (values : list Q) : option (HklGeometry * bool) :=
  if (length (axes self) <=? length values)%nat then
    let '(l, ok) := set_values_loop (axes self) values in
    Some (hkl_geometry_update (set_axes self l), ok)
  else None.

(** ** All the axis values, NaN included *)

(** A C [double] handed to a setter: a number, or NaN. *)
Inductive double :=
| Number (value : Q)
| NaN.

(** The setters above take numbers.  The ones of this module take any
    [double]: they are the same functions, with the case that the rational
    numbers leave out.  On numbers they agree with the ones above. *)
Module AnyDouble.

(** Modelled from the spec and the tests, as [hkl_parameter_value_set]
    above: "Setting NaN fails", on every kind of parameter
    ([tests/hkl-axis-t.c], [set_value_smallest_in_range], on a rotation); a
    number is set as above. *)
Definition hkl_parameter_value_set `{AxisKernel} (self : HklParameter) (value : double)
  : option HklParameter :=
  match value with
  | Number v => hkl_parameter_value_set self v
  | NaN => None
  end.

(** The loop of [hkl_geometry_axis_values_set] and of
    [hkl_geometry_set_values_v]. *)
Fixpoint set_values_loop `{AxisKernel} (l : list HklParameter) (values : list double)
  : list HklParameter * bool :=
  match l, values with
  | axis :: l', v :: values' =>
      match hkl_parameter_value_set axis v with
      | Some axis' =>
          let '(rest, ok) := set_values_loop l' values' in (axis' :: rest, ok)
      | None => (l, false)
      end
  | _, _ => (l, true)
  end.

Definition hkl_geometry_axis_values_set `{AxisKernel} (self : HklGeometry)
    (values : list double) : option (HklGeometry * bool) :=
  if (length values =? length (axes self))%nat then
    let '(l, ok) := set_values_loop (axes self) values in
    Some (if ok then (hkl_geometry_update (set_axes self l), true)
          else (set_axes self l, false))
  else None.

Definition hkl_geometry_set_values_v `{AxisKernel} (self : HklGeometry)
    (values : list double) : option (HklGeometry * bool) :=
  if (length (axes self) <=? length values)%nat then
    let '(l, ok) := set_values_loop (axes self) values in
    Some (hkl_geometry_update (set_axes self l), ok)
  else None.

End AnyDouble.

(** * More of [hkl/hkl-engine-soleil-sixs-med.c] and of the list: the
    [multiply] hook *)

(** [hkl_geometry_list_multiply]: the hook of the list, if there is one, is
    called on each of the items the list has when the call starts.  The hook
    gets the list and the item, here the position of the item. *)
Definition hkl_geometry_list_multiply
    (multiply : option (list HklGeometry -> nat -> list HklGeometry))
    (self : HklGeometryList) : HklGeometryList :=
  match multiply with
  | None => self
  | Some hook =>
      mkGeometryList (fold_left hook (seq 0 (length (items self))) (items self))
  end.

(** The hook of the SOLEIL SIXS MED 2+3 diffractometer, on the item at
    position [i]: it works on the geometry of the item, in place.  [runs i] is
    the run of the solver for this item. *)
Definition multiply_soleil_sixs_med_2_3_item `{AxisKernel} (runs : nat -> solver_run)
    (self : list HklGeometry) (i : nat) : list HklGeometry :=
  alter (hkl_geometry_list_multiply_soleil_sixs_med_2_3 (runs i)) i self.

(** The conversion of a double to [int]: towards 0. *)
Definition double_to_int (x : Q) : Z := Z.quot (Qnum x) (Z.pos (Qden x)).

(** [hkl_engine_list_post_engine_set_med_2_3_v2_real], on the list of
    solutions of the engine list ([None] when it has none) and the value of
    the parameter "eta_a_rotation": the list after the call and the flag
    returned. *)
Definition hkl_engine_list_post_engine_set_med_2_3_v2_real `{AxisKernel}
    (runs : nat -> solver_run) (eta_a_rotation : Q)
    (geometries : option HklGeometryList) : option HklGeometryList * bool :=
  match geometries with
  | None => (None, true)
  | Some l =>
      if (double_to_int eta_a_rotation =? 1)%Z
      then (Some (mkGeometryList
                    (fold_left (multiply_soleil_sixs_med_2_3_item runs)
                       (seq 0 (length (items l))) (items l))),
            true)
      else (Some l, true)
  end.

(** * More of the lattice and of the q engines *)

Module LatticeMore.
Import Lattice.
Local Open Scope R_scope.

(** [hkl_lattice_get]: the six out-parameters, in order. *)
Definition hkl_lattice_get `{ParameterKernel} (self : HklLattice)
    (unit_type : HklUnitEnum) : R * R * R * R * R * R :=
  (hkl_parameter_value_get (a self) unit_type,
   hkl_parameter_value_get (b self) unit_type,
   hkl_parameter_value_get (c self) unit_type,
   hkl_parameter_value_get (alpha self) unit_type,
   hkl_parameter_value_get (beta self) unit_type,
   hkl_parameter_value_get (gamma self) unit_type).

End LatticeMore.

Module EngineQMore.
Import EngineQ.
Local Open Scope R_scope.

(** What [_q2] calls besides the functions of [VectorKernel]: the projection
    of a vector on the plane normal to another ([hkl-vector.c], not among the
    sources) and [atan2] of [math.h]. *)
Class PlaneKernel := {
  hkl_vector_project_on_plan : HklVector -> HklVector -> HklVector;
  atan2 : R -> R -> R
}.

(** The engine q2: its pseudo-axes [q] and [alpha]. *)
Record HklEngineQ2 := mkEngineQ2 { q2_q : R; q2_alpha : R }.

(** [_q2]: the two values it writes, [q] and [alpha]. *)
Definition _q2 `{Constants} `{VectorKernel} `{PlaneKernel}
    (geometry : HklGeometry) (detector : HklDetector) : R * R :=
  let x := mkVector 1 0 0 in
  let wavelength := hkl_source_get_wavelength (source geometry) in
  let ki := hkl_geometry_ki_get geometry in
  let kf := hkl_geometry_kf_get geometry detector in
  let theta := hkl_vector_angle ki kf / 2 in
  let q := qmax wavelength * sin theta in
  let kf := hkl_vector_project_on_plan kf x in
  (q, atan2 (data2 kf) (data1 kf)).

(** [get_q2_real]: the engine after the call and the flag returned. *)
Definition get_q2_real `{Constants} `{VectorKernel} `{PlaneKernel}
    (engine : HklEngineQ2) (geometry : HklGeometry) (detector : HklDetector)
  : HklEngineQ2 * bool :=
  let '(q, alpha) := _q2 geometry detector in
  (mkEngineQ2 q alpha, true).

End EngineQMore.

(** * The diffractometers that the files register *)

Section Factories.
Context `{AxisKernel}.

(** [hkl_geometry_new_eulerian4CVG] (the E4CVG part of the geometry file). *)
Definition hkl_geometry_new_eulerian4CVG : outcome HklGeometry :=
  let '(self, h) := hkl_geometry_add_holder hkl_geometry_new in
  self ← hkl_holder_add_rotation self h "omega" 0 (-1) 0;
  self ← hkl_holder_add_rotation self h "chi" 1 0 0;
  self ← hkl_holder_add_rotation self h "phi" 0 (-1) 0;
  let '(self, h) := hkl_geometry_add_holder self in
  self ← hkl_holder_add_rotation self h "tth" 0 (-1) 0;
  hkl_holder_add_rotation self h "gamma" 0 0 1.

(** [hkl_geometry_new_e4cvg2] ([hkl/hkl-engine-e4cvg2.c]). *)
Definition hkl_geometry_new_e4cvg2 : outcome HklGeometry :=
  let '(self, h) := hkl_geometry_add_holder hkl_geometry_new in
  self ← hkl_holder_add_rotation self h "omega" 0 (-1) 0;
  self ← hkl_holder_add_rotation self h "phi" 1 0 0;
  self ← hkl_holder_add_rotation self h "chi" 0 (-1) 0;
  let '(self, h) := hkl_geometry_add_holder self in
  self ← hkl_holder_add_rotation self h "tth" 0 (-1) 0;
  hkl_holder_add_rotation self h "gamma" 0 0 1.

Definition hkl_geometry_new_soleil_sixs_med_2_2 : outcome HklGeometry :=
  let '(self, h) := hkl_geometry_add_holder hkl_geometry_new in
  self ← hkl_holder_add_rotation self h "beta" 0 (-1) 0;
  self ← hkl_holder_add_rotation self h "mu" 0 0 1;
  self ← hkl_holder_add_rotation self h "omega" 0 (-1) 0;
  let '(self, h) := hkl_geometry_add_holder self in
  self ← hkl_holder_add_rotation self h "beta" 0 (-1) 0;
  self ← hkl_holder_add_rotation self h "gamma" 0 0 1;
  hkl_holder_add_rotation self h "delta" 0 (-1) 0.

Definition hkl_geometry_new_soleil_sixs_med_1_2 : outcome HklGeometry :=
  let '(self, h) := hkl_geometry_add_holder hkl_geometry_new in
  self ← hkl_holder_add_rotation self h "pitch" 0 (-1) 0;
  self ← hkl_holder_add_rotation self h "mu" 0 0 1;
  let '(self, h) := hkl_geometry_add_holder self in
  self ← hkl_holder_add_rotation self h "pitch" 0 (-1) 0;
  self ← hkl_holder_add_rotation self h "gamma" 0 0 1;
  hkl_holder_add_rotation self h "delta" 0 (-1) 0.

Definition hkl_geometry_new_soleil_sixs_med_2_3_v2 : outcome HklGeometry :=
  let '(self, h) := hkl_geometry_add_holder hkl_geometry_new in
  self ← hkl_holder_add_rotation self h "mu" 0 0 1;
  self ← hkl_holder_add_rotation self h "omega" 0 (-1) 0;
  let '(self, h) := hkl_geometry_add_holder self in
  self ← hkl_holder_add_rotation self h "gamma" 0 0 1;
  self ← hkl_holder_add_rotation self h "delta" 0 (-1) 0;
  hkl_holder_add_rotation self h "eta_a" (-1) 0 0.

(** The axes and the constructor that [REGISTER_DIFFRACTOMETER] puts in a
    factory: the table [hkl_geometry_<name>_axes], which
    [hkl_geometry_axis_names_get] returns, and [hkl_geometry_new_<name>]. *)
Record HklFactory := mkFactory {
  factory_name : string;
  factory_axes : list string;
  factory_new_geometry : outcome HklGeometry
}.

Definition factories : list HklFactory :=
  [ mkFactory "E4CVG" ["omega"; "chi"; "phi"; "tth"; "gamma"]
      hkl_geometry_new_eulerian4CVG;
    mkFactory "E4CVG2" ["omega"; "phi"; "chi"; "tth"; "gamma"]
      hkl_geometry_new_e4cvg2;
    mkFactory "SOLEIL SIXS MED2+2" ["beta"; "mu"; "omega"; "gamma"; "delta"]
      hkl_geometry_new_soleil_sixs_med_2_2;
    mkFactory "SOLEIL SIXS MED1+2" ["pitch"; "mu"; "gamma"; "delta"]
      hkl_geometry_new_soleil_sixs_med_1_2;
    mkFactory "SOLEIL SIXS MED2+3" ["beta"; "mu"; "omega"; "gamma"; "delta"; "eta_a"]
      hkl_geometry_new_soleil_sixs_med_2_3;
    mkFactory "SOLEIL SIXS MED2+3 v2" ["mu"; "omega"; "gamma"; "delta"; "eta_a"]
      hkl_geometry_new_soleil_sixs_med_2_3_v2 ].

End Factories.

(** The axes that a mode reads and writes ([HKL_MODE_AUTO_INFO]). *)
Record HklModeInfo := mkModeInfo {
  mode_name : string;
  axes_r : list string;
  axes_w : list string
}.

(** The modes of the engines hkl, psi, q, q2 and qper_qpar of E4CVG and of
    the diffractometers of [hkl/hkl-engine-soleil-sixs-med.c], as the mode
    functions declare them, by name of the diffractometer (the engine tth2
    is defined in a file that is not among the sources). *)
Definition hkl_modes : list (string * list HklModeInfo) :=
  [ ("E4CVG",
     [ mkModeInfo "bissector" ["omega"; "chi"; "phi"; "tth"; "gamma"]
         ["omega"; "chi"; "phi"; "tth"; "gamma"];
       mkModeInfo "constant_omega" ["omega"; "chi"; "phi"; "tth"; "gamma"]
         ["chi"; "phi"; "tth"];
       mkModeInfo "constant_chi" ["omega"; "chi"; "phi"; "tth"; "gamma"]
         ["omega"; "phi"; "tth"];
       mkModeInfo "constant_phi" ["omega"; "chi"; "phi"; "tth"; "gamma"]
         ["omega"; "chi"; "tth"];
       mkModeInfo "double_diffraction" ["omega"; "chi"; "phi"; "tth"; "gamma"]
         ["omega"; "chi"; "phi"; "tth"; "gamma"];
       mkModeInfo "psi_constant" ["omega"; "chi"; "phi"; "tth"; "gamma"]
         ["omega"; "chi"; "phi"; "tth"; "gamma"];
       mkModeInfo "psi" ["omega"; "chi"; "phi"; "tth"; "gamma"]
         ["omega"; "chi"; "phi"; "tth"; "gamma"];
       mkModeInfo "q" ["tth"] ["tth"] ]);
    ("SOLEIL SIXS MED2+2",
     [ mkModeInfo "mu_fixed" ["beta"; "mu"; "omega"; "gamma"; "delta"]
         ["omega"; "gamma"; "delta"];
       mkModeInfo "reflectivity" ["beta"; "mu"; "omega"; "gamma"; "delta"]
         ["mu"; "omega"; "gamma"; "delta"];
       mkModeInfo "emergence_fixed" ["beta"; "mu"; "omega"; "gamma"; "delta"]
         ["mu"; "omega"; "gamma"; "delta"];
       mkModeInfo "q2" ["gamma"; "delta"] ["gamma"; "delta"];
       mkModeInfo "qper_qpar" ["gamma"; "delta"] ["gamma"; "delta"] ]);
    ("SOLEIL SIXS MED1+2",
     [ mkModeInfo "pitch_fixed" ["pitch"; "mu"; "gamma"; "delta"]
         ["mu"; "gamma"; "delta"];
       mkModeInfo "delta_fixed" ["pitch"; "mu"; "gamma"; "delta"]
         ["pitch"; "mu"; "gamma"];
       mkModeInfo "q2" ["gamma"; "delta"] ["gamma"; "delta"];
       mkModeInfo "qper_qpar" ["gamma"; "delta"] ["gamma"; "delta"] ]);
    ("SOLEIL SIXS MED2+3",
     [ mkModeInfo "mu_fixed" ["beta"; "mu"; "omega"; "gamma"; "delta"; "eta_a"]
         ["omega"; "gamma"; "delta"];
       mkModeInfo "gamma_fixed" ["beta"; "mu"; "omega"; "gamma"; "delta"; "eta_a"]
         ["mu"; "omega"; "delta"];
       mkModeInfo "emergence_fixed" ["beta"; "mu"; "omega"; "gamma"; "delta"; "eta_a"]
         ["mu"; "omega"; "gamma"; "delta"];
       mkModeInfo "q2" ["gamma"; "delta"] ["gamma"; "delta"];
       mkModeInfo "qper_qpar" ["gamma"; "delta"] ["gamma"; "delta"] ]);
    ("SOLEIL SIXS MED2+3 v2",
     [ mkModeInfo "mu_fixed" ["mu"; "omega"; "gamma"; "delta"; "eta_a"]
         ["omega"; "gamma"; "delta"];
       mkModeInfo "gamma_fixed" ["mu"; "omega"; "gamma"; "delta"; "eta_a"]
         ["mu"; "omega"; "delta"];
       mkModeInfo "emergence_fixed" ["mu"; "omega"; "gamma"; "delta"; "eta_a"]
         ["mu"; "omega"; "gamma"; "delta"];
       mkModeInfo "q2" ["gamma"; "delta"] ["gamma"; "delta"];
       mkModeInfo "qper_qpar" ["gamma"; "delta"] ["gamma"; "delta"] ]) ].

(** Every name of [l] is one of [k]. *)
Definition names_among (l k : list string) : bool :=
  forallb (fun n => existsb (String.eqb n) k) l.

(** An instance to run the engine q2 on examples: a projection that leaves
    the vector as it is (the wave vectors of the examples lie in the plane
    normal to z already) and an angle of 0. *)
Definition example_plane_kernel : EngineQMore.PlaneKernel := {|
  EngineQMore.hkl_vector_project_on_plan := fun v _ => v;
  EngineQMore.atan2 := fun _ _ => 0%R
|}.

(** ** Predicates of the further theorems *)

(** A geometry is well formed when its axes have distinct names and every
    holder lists axes of the geometry, each at most once. *)
Definition well_formed (g : HklGeometry) : Prop :=
  NoDup (map name (axes g)) /\
  Forall (fun holder =>
            NoDup (idx holder) /\
            Forall (fun i => (i < length (axes g))%nat) (idx holder))
    (holders g).

(** The quaternion a holder caches is the one its axes give. *)
Definition holder_consistent (geometry_axes : list HklParameter) (holder : HklHolder)
  : Prop :=
  q holder = holder_update_loop geometry_axes (idx holder) q0.

(** The quaternions that the axes of a holder carry, in the order of the
    holder: those of its rotations; an axis without quaternion, a
    translation, gives none. *)
Definition holder_quaternions (geometry_axes : list HklParameter) (holder : HklHolder)
  : list HklQuaternion :=
  omap (fun i => geometry_axes !! i ≫= hkl_parameter_quaternion_get) (idx holder).

(** The holder caches their product, taken from the left. *)
Definition caches_product (geometry_axes : list HklParameter) (holder : HklHolder)
  : Prop :=
  q holder
  = fold_left hkl_quaternion_times_quaternion (holder_quaternions geometry_axes holder) q0.

(** [hkl_geometry_distance] reads the axes only: the distance between two
    lists of axes. *)
Definition axes_distance (l k : list HklParameter) : Q :=
  hkl_geometry_distance (set_axes hkl_geometry_new l) (set_axes hkl_geometry_new k).

(** The axis [b] is the axis [a] moved by whole turns, if [a] is permutable,
    and then within the range of [a] up to [HKL_EPSILON] above its maximum;
    it is [a] itself if not. *)
Definition turn_of (a b : HklParameter) : Prop :=
  name b = name a /\ range b = range a /\ is_rotation b = is_rotation a /\
  if hkl_parameter_is_permutable a
  then (exists k : Z, _value b == _value a + inject_Z k * (2 * M_PI)) /\
       min (range a) <= _value b <= max (range a) + HKL_EPSILON
  else b = a.

(** The geometry [g] is [item] with its permutable axes moved by whole
    turns. *)
Definition turned (item g : HklGeometry) : Prop :=
  Forall2 turn_of (axes item) (axes g).

(** What [perm_r] does for the working geometry of [item]: it appends
    geometries that are turns of [item], farther from it than
    [HKL_EPSILON], and hands back a turn of [item]. *)
Definition appends_turns (item : HklGeometry)
    (f : list HklGeometry -> HklGeometry -> list HklGeometry * HklGeometry) : Prop :=
  forall self g, turned item g ->
    exists added,
      fst (f self g) = self ++ added /\
      Forall (fun g' => turned item g' /\ HKL_EPSILON < hkl_geometry_distance g' item) added /\
      turned item (snd (f self g)).

(** Two geometries whose axes have equal values (as numbers). *)
Definition same_values (g g' : HklGeometry) : Prop :=
  Forall2 (fun b b' => _value b == _value b') (axes g) (axes g').

(** * Theorems *)

(** ** Comparisons of doubles *)

Lemma M_PI_pos : 0 < M_PI.
Proof. reflexivity. Qed.

Lemma HKL_EPSILON_pos : 0 < HKL_EPSILON.
Proof. reflexivity. Qed.

Lemma Qltb_lt x y : Qltb x y = true <-> x < y.
Proof.
  unfold Qltb. rewrite negb_true_iff, <- not_true_iff_false, Qle_bool_iff.
  split; [apply Qnot_le_lt | apply Qlt_not_le].
Qed.

Lemma Qltb_ge x y : Qltb x y = false <-> y <= x.
Proof. unfold Qltb. rewrite negb_false_iff. apply Qle_bool_iff. Qed.

Lemma Qleb_le x y : Qleb x y = true <-> x <= y.
Proof. apply Qle_bool_iff. Qed.

Lemma Qleb_gt x y : Qleb x y = false <-> y < x.
Proof.
  unfold Qleb. rewrite <- not_true_iff_false, Qle_bool_iff.
  split; [apply Qnot_le_lt | apply Qlt_not_le].
Qed.

(** ** Wavelength *)

(** C5, as the code has it: [hkl_geometry_wavelength_set] has no guard.  For
    every wavelength, of any sign, it reports success and stores the value, a
    later [hkl_geometry_wavelength_get] returns exactly that value, and the
    axes and holders are left alone. *)
Theorem wavelength_set_then_get (self : HklGeometry) (wavelength : Q)
    (unit_type unit_type' : HklUnitEnum) :
  let after := hkl_geometry_wavelength_set self wavelength unit_type in
  snd after = true /\
  hkl_geometry_wavelength_get (fst after) unit_type' = wavelength /\
  axes (fst after) = axes self /\
  holders (fst after) = holders self.
Proof. cbn. repeat split. Qed.

(** C5 fails as stated: on a fresh geometry (wavelength 1.54) the wavelength
    -1 is accepted, the call reports success and -1 is what is stored. *)
Lemma wavelength_set_accepts_negative :
  -1 <= 0 /\
  snd (hkl_geometry_wavelength_set hkl_geometry_new (-1) HKL_UNIT_DEFAULT) = true /\
  hkl_geometry_wavelength_get
    (fst (hkl_geometry_wavelength_set hkl_geometry_new (-1) HKL_UNIT_DEFAULT))
    HKL_UNIT_DEFAULT = -1 /\
  ~ hkl_geometry_wavelength_get hkl_geometry_new HKL_UNIT_DEFAULT == -1.
Proof. repeat split; discriminate. Qed.

(** ** Adding an axis *)

Lemma hkl_vector_eqb_refl v : hkl_vector_eqb v v = true.
Proof.
  unfold hkl_vector_eqb.
  rewrite !(proj2 (Qeq_bool_iff _ _) (Qeq_refl _)). reflexivity.
Qed.

Lemma transformation_cmp_same p1 p2 :
  hkl_parameter_transformation_cmp p1 p2 = 0%Z <-> same_transformation p1 p2.
Proof.
  unfold hkl_parameter_transformation_cmp, same_transformation.
  destruct (transformation p1), (transformation p2); try (split; [discriminate | tauto]).
  - tauto.
  - destruct (hkl_vector_eqb _ _); split; congruence.
  - destruct (hkl_vector_eqb axis_v axis_v0), (hkl_vector_eqb origin origin0); cbn;
      split; try discriminate; intuition congruence.
  - destruct (hkl_vector_eqb _ _); split; congruence.
Qed.

Lemma transformation_cmp_refl p : hkl_parameter_transformation_cmp p p = 0%Z.
Proof.
  apply transformation_cmp_same. unfold same_transformation.
  destruct (transformation p); auto using hkl_vector_eqb_refl.
Qed.

(** The scan stops at the first axis with the name looked for. *)
Lemma add_axis_scan_first l axis : forall k i p,
  l !! i = Some p ->
  name p = name axis ->
  (forall j p', (j < i)%nat -> l !! j = Some p' -> name p' <> name axis) ->
  add_axis_scan l axis k =
    Some (if Z.eqb (hkl_parameter_transformation_cmp p axis) 0
          then Return (k + i)%nat else Exit 128).
Proof.
  induction l as [|a l IH]; intros k i p Hi Hn Hfirst; [discriminate|].
  destruct i as [|i]; cbn in *.
  - injection Hi as ->. rewrite Hn, String.eqb_refl, Nat.add_0_r.
    destruct (Z.eqb _ 0); reflexivity.
  - destruct (String.eqb_spec (name a) (name axis)) as [E|_].
    + exfalso. apply (Hfirst 0%nat a); [lia | reflexivity | exact E].
    + rewrite (IH (S k) i p Hi Hn).
      * replace (S k + i)%nat with (k + S i)%nat by lia. reflexivity.
      * intros j p' Hj Hl. apply (Hfirst (S j) p'); [lia | exact Hl].
Qed.

Lemma add_axis_scan_fresh l axis : forall k,
  (forall p, In p l -> name p <> name axis) ->
  add_axis_scan l axis k = None.
Proof.
  induction l as [|a l IH]; intros k Hfresh; [reflexivity|]. cbn.
  destruct (String.eqb_spec (name a) (name axis)) as [E|_].
  - exfalso. apply (Hfresh a); [left; reflexivity | exact E].
  - apply IH. intros p Hp. apply Hfresh. right. exact Hp.
Qed.

Lemma add_axis_scan_found l axis : forall k o,
  add_axis_scan l axis k = Some o ->
  exists i p, l !! i = Some p /\ name p = name axis /\
    (forall j p', (j < i)%nat -> l !! j = Some p' -> name p' <> name axis) /\
    o = (if Z.eqb (hkl_parameter_transformation_cmp p axis) 0
         then Return (k + i)%nat else Exit 128).
Proof.
  induction l as [|a l IH]; intros k o Hs; [discriminate|]. cbn in Hs.
  destruct (String.eqb_spec (name a) (name axis)) as [E|NE].
  - exists 0%nat, a. repeat split; auto; [intros; lia|].
    rewrite Nat.add_0_r. destruct (Z.eqb _ 0); cbn in Hs; congruence.
  - destruct (IH _ _ Hs) as (i & p & Hi & Hn & Hfirst & Ho).
    exists (S i), p. repeat split; auto.
    + intros [|j] p' Hj Hl; cbn in Hl; [congruence|].
      apply (Hfirst j p'); [lia | exact Hl].
    + rewrite Ho. replace (S k + i)%nat with (k + S i)%nat by lia. reflexivity.
Qed.

Lemma add_axis_scan_none l axis : forall k,
  add_axis_scan l axis k = None -> forall p, In p l -> name p <> name axis.
Proof.
  induction l as [|a l IH]; intros k Hs p Hp; [destruct Hp|]. cbn in Hs.
  destruct (String.eqb_spec (name a) (name axis)) as [E|NE].
  - destruct (negb _); discriminate.
  - destruct Hp as [<-|Hp]; [exact NE | exact (IH _ Hs p Hp)].
Qed.

(** C6: adding an axis whose name is already in the geometry.  Let [p] be
    the axis of that name (the first one, at index [i]).  When [p] and the new
    axis have the same transformation (same kind, equal axis vector and
    origin) the call returns [i] and the geometry is unchanged: no entry is
    created.  When the transformations differ the process exits with code
    128. *)
Theorem add_axis_existing_name (self : HklGeometry) (axis p : HklParameter) (i : nat) :
  axes self !! i = Some p ->
  name p = name axis ->
  (forall j p', (j < i)%nat -> axes self !! j = Some p' -> name p' <> name axis) ->
  (same_transformation p axis ->
   hkl_geometry_add_axis self axis = Return (self, i)) /\
  (~ same_transformation p axis ->
   hkl_geometry_add_axis self axis = Exit 128).
Proof.
  intros Hi Hn Hfirst. unfold hkl_geometry_add_axis.
  rewrite (add_axis_scan_first _ _ 0%nat i p Hi Hn Hfirst).
  split; intros Hs.
  - apply transformation_cmp_same in Hs. rewrite Hs. reflexivity.
  - destruct (Z.eqb_spec (hkl_parameter_transformation_cmp p axis) 0) as [E|_];
      [|reflexivity].
    exfalso. apply Hs, transformation_cmp_same, E.
Qed.

(** Adding the same axis a second time changes nothing and returns the same
    index: one entry, not two. *)
Lemma add_axis_twice (self g : HklGeometry) (axis : HklParameter) (i : nat) :
  hkl_geometry_add_axis self axis = Return (g, i) ->
  hkl_geometry_add_axis g axis = Return (g, i).
Proof.
  unfold hkl_geometry_add_axis.
  destruct (add_axis_scan (axes self) axis 0) as [[k|c]|] eqn:Hs; intros Hr.
  - injection Hr as <- <-. rewrite Hs. reflexivity.
  - discriminate.
  - injection Hr as <- <-. cbn [axes set_axes].
    rewrite (add_axis_scan_first _ axis 0%nat (length (axes self)) axis).
    + rewrite transformation_cmp_refl. cbn. rewrite length_app. cbn.
      f_equal. f_equal. lia.
    + rewrite lookup_app_r, Nat.sub_diag by lia. reflexivity.
    + reflexivity.
    + intros j p' Hj Hl. rewrite lookup_app_l in Hl by exact Hj.
      apply (add_axis_scan_none _ _ _ Hs). apply list_elem_of_In.
      apply list_elem_of_lookup. eauto.
Qed.

(** ** Holder update *)

(** What the loop of [hkl_holder_update] computes: the product, in the order
    of the holder's axes, of the quaternions of all its rotations; an axis
    without quaternion is skipped wherever it stands. *)
Lemma holder_update_loop_product geometry_axes l : forall acc,
  holder_update_loop geometry_axes l acc =
  fold_left hkl_quaternion_times_quaternion
    (omap (fun i => geometry_axes !! i ≫= hkl_parameter_quaternion_get) l) acc.
Proof.
  induction l as [|i l IH]; intros acc; [reflexivity|]. cbn.
  destruct (geometry_axes !! i) as [p|]; cbn; [|apply IH].
  destruct (hkl_parameter_quaternion_get p); cbn; apply IH.
Qed.

(** The documented behaviour stops at the first axis without quaternion. *)
Lemma holder_update_documented_stops geometry_axes l1 l2 i p : forall acc,
  Forall (fun j => is_Some (geometry_axes !! j ≫= hkl_parameter_quaternion_get)) l1 ->
  geometry_axes !! i = Some p ->
  hkl_parameter_quaternion_get p = None ->
  holder_update_documented geometry_axes (l1 ++ i :: l2) acc =
  holder_update_loop geometry_axes l1 acc.
Proof.
  induction l1 as [|j l1 IH]; intros acc Hall Hi Hp; cbn.
  - rewrite Hi, Hp. reflexivity.
  - inversion Hall as [|? ? [qj Hj] Hall']; subst.
    destruct (geometry_axes !! j) as [pj|]; cbn in Hj; [|discriminate].
    rewrite Hj. apply IH; assumption.
Qed.

(** C2, the code against its comment: a holder made of a translation
    followed by a rotation of half a turn around x (quaternion (0, 1, 0, 0)).
    [hkl_holder_update] does not stop at the translation: the cached
    quaternion becomes that of the rotation, where the documented behaviour
    leaves the identity. *)
Theorem holder_update_goes_past_translation :
  let translation :=
    mkParameter "tx" (mkInterval (-10) 10) 0 true true (Translation (mkVector 1 0 0)) in
  let rotation :=
    mkParameter "rx" (mkInterval (- M_PI) M_PI) M_PI true true
      (Rotation (mkVector 1 0 0) (mkQuaternion 0 1 0 0)) in
  let geometry_axes := [translation; rotation] in
  let holder := mkHolder [0%nat; 1%nat] q0 in
  q (hkl_holder_update geometry_axes holder) = mkQuaternion 0 1 0 0 /\
  holder_update_documented geometry_axes (idx holder) q0 = q0.
Proof. split; reflexivity. Qed.

(** An instance of C6's theorem: a geometry holding one axis "omega"; the
    same axis is found again at index 0, an "omega" around another axis
    vector makes the process exit. *)
Lemma add_axis_existing_name_witness :
  let omega := mkParameter "omega" (mkInterval (- M_PI) M_PI) 0 true true
                 (Rotation (mkVector 0 (-1) 0) q0) in
  let omega_x := mkParameter "omega" (mkInterval (- M_PI) M_PI) 0 true true
                   (Rotation (mkVector 1 0 0) q0) in
  let g := set_axes hkl_geometry_new [omega] in
  hkl_geometry_add_axis g omega = Return (g, 0%nat) /\
  hkl_geometry_add_axis g omega_x = Exit 128.
Proof.
  intros omega omega_x g. split.
  - refine (proj1 (add_axis_existing_name g omega omega 0 eq_refl eq_refl _) _).
    + intros j p' Hj. inversion Hj.
    + reflexivity.
  - refine (proj2 (add_axis_existing_name g omega_x omega 0 eq_refl eq_refl _) _).
    + intros j p' Hj. inversion Hj.
    + discriminate.
Defined.

(** ** Sorting the list *)

Lemma sort_before_irrefl d x : sort_before d x x = false.
Proof.
  unfold sort_before.
  rewrite (proj2 (Qltb_ge _ _)); [reflexivity | apply Qle_refl].
Qed.

(** The inner loop of the sort needs no more than [i] steps: at [p = i] it
    reads [x] itself and stops. *)
Lemma sort_find_p_enough d idx x i :
  nth i idx 0%nat = x ->
  forall n p extra, (p + n = i)%nat ->
    sort_find_p d idx x p (n + extra) = sort_find_p d idx x p n.
Proof.
  intros Hx n. induction n as [|n IH]; intros p extra Hp; cbn.
  - destruct extra as [|extra]; [reflexivity|]. cbn.
    replace p with i by lia. rewrite Hx, sort_before_irrefl. reflexivity.
  - destruct (sort_before d (nth p idx 0%nat) x); [|reflexivity].
    apply IH. lia.
Qed.

Lemma sort_find_p_leading d x l : forall pre post,
  sort_find_p d (pre ++ l ++ post) x (length pre) (length l)
  = (length pre + leading d x l)%nat.
Proof.
  induction l as [|a l IH]; intros pre post; cbn; [lia|].
  rewrite app_nth2, Nat.sub_diag by lia. cbn.
  destruct (sort_before d a x); [|lia].
  replace (pre ++ a :: l ++ post) with ((pre ++ [a]) ++ l ++ post)
    by (rewrite <- app_assoc; reflexivity).
  replace (S (length pre)) with (length (pre ++ [a]))
    by (rewrite length_app; cbn; lia).
  rewrite IH, length_app. cbn. lia.
Qed.

Lemma leading_le d x l : (leading d x l <= length l)%nat.
Proof.
  induction l as [|a l IH]; cbn; [lia|].
  destruct (sort_before d a x); lia.
Qed.

Lemma insert_before_leading d x l :
  insert_before d x l = take (leading d x l) l ++ x :: drop (leading d x l) l.
Proof.
  induction l as [|a l IH]; cbn; [reflexivity|].
  destruct (sort_before d a x); cbn; [rewrite IH|]; reflexivity.
Qed.

Lemma sort_shift_spec : forall j1 idx p,
  (p <= j1)%nat -> (j1 < length idx)%nat ->
  sort_shift idx p j1 = take (S p) idx ++ drop p (take j1 idx) ++ drop (S j1) idx.
Proof.
  induction j1 as [|j IH]; intros idx p Hp Hj.
  - replace p with 0%nat by lia. cbn [sort_shift].
    rewrite take_0, drop_0. cbn [app]. rewrite take_drop. reflexivity.
  - cbn [sort_shift]. destruct (Nat.leb_spec p j) as [Hle|Hgt].
    + destruct (lookup_lt_is_Some_2 idx j ltac:(lia)) as [y Hy].
      rewrite (nth_lookup_Some _ _ _ _ Hy).
      rewrite IH by (rewrite ?length_insert; lia).
      rewrite !take_insert_ge by lia.
      rewrite drop_insert_ge, Nat.sub_diag by lia.
      rewrite (take_S_r idx j y Hy), drop_app_le by (rewrite length_take; lia).
      destruct (lookup_lt_is_Some_2 idx (S j) ltac:(lia)) as [z Hz].
      rewrite (drop_S idx z (S j) Hz). cbn.
      rewrite <- !app_assoc. reflexivity.
    + replace p with (S j) by lia.
      rewrite drop_ge by (rewrite length_take; lia).
      cbn [app]. rewrite take_drop. reflexivity.
Qed.

(** One round of the outer loop is one insertion into the sorted prefix. *)
Lemma sort_step d sorted x rest :
  let idx := sorted ++ x :: rest in
  let p := sort_find_p d idx x 0 (length sorted) in
  <[p := x]> (sort_shift idx p (length sorted)) = insert_before d x sorted ++ rest.
Proof.
  intros idx p.
  assert (Hp : p = leading d x sorted).
  { unfold p, idx. apply (sort_find_p_leading d x sorted [] (x :: rest)). }
  pose proof (leading_le d x sorted) as Hle.
  rewrite sort_shift_spec by (unfold idx; rewrite ?length_app; cbn; lia).
  rewrite insert_before_leading, <- Hp.
  unfold idx.
  rewrite take_app_length, drop_app_ge, Nat.sub_succ_l, Nat.sub_diag by lia.
  cbn [drop].
  assert (Hlen : length (take p (sorted ++ x :: rest)) = p).
  { rewrite length_take, length_app. cbn. lia. }
  destruct (lookup_lt_is_Some_2 (sorted ++ x :: rest) p
              ltac:(rewrite length_app; cbn; lia)) as [y Hy].
  rewrite (take_S_r _ p y Hy), <- app_assoc. cbn [app].
  replace p with (length (take p (sorted ++ x :: rest)) + 0)%nat at 1 by lia.
  rewrite insert_app_r. cbn.
  rewrite take_app_le by lia. rewrite <- app_assoc. reflexivity.
Qed.

Lemma insert_before_length d x l : length (insert_before d x l) = S (length l).
Proof.
  induction l as [|a l IH]; cbn; [reflexivity|].
  destruct (sort_before d a x); cbn; lia.
Qed.

Lemma sort_insertion_fold d : forall rest sorted,
  sort_insertion d (sorted ++ rest) (length sorted) (length rest)
  = fold_left (fun acc x => insert_before d x acc) rest sorted.
Proof.
  induction rest as [|x rest IH]; intros sorted; cbn [sort_insertion fold_left length].
  - apply app_nil_r.
  - rewrite app_nth2, Nat.sub_diag by lia. cbn [nth].
    rewrite (sort_step d sorted x rest).
    rewrite <- (insert_before_length d x sorted). apply IH.
Qed.

Lemma sort_idx_fold self ref :
  sort_idx self ref
  = fold_left (fun acc x => insert_before (sort_distances self ref) x acc)
      (seq 0 (length (items self))) [].
Proof.
  unfold sort_idx. destruct (length (items self)) as [|m]; [reflexivity|].
  replace (S m - 1)%nat with m by lia.
  cbn [seq fold_left insert_before].
  rewrite <- (sort_insertion_fold _ (seq 1 m) [0%nat]), length_seq. reflexivity.
Qed.

Lemma insert_before_Permutation d x l : Permutation (insert_before d x l) (x :: l).
Proof.
  induction l as [|a l IH]; cbn; [reflexivity|].
  destruct (sort_before d a x); [|reflexivity].
  rewrite IH. apply perm_swap.
Qed.

Lemma insert_fold_Permutation d : forall l acc,
  Permutation (fold_left (fun acc x => insert_before d x acc) l acc) (acc ++ l).
Proof.
  induction l as [|x l IH]; intros acc; cbn.
  - rewrite app_nil_r. reflexivity.
  - rewrite IH, insert_before_Permutation. apply Permutation_middle.
Qed.

Lemma sort_idx_Permutation self ref :
  Permutation (sort_idx self ref) (seq 0 (length (items self))).
Proof. rewrite sort_idx_fold. apply (insert_fold_Permutation _ _ []). Qed.

(** Reading the items through a list of indices. *)
Lemma omap_lookup_seq {A} (l : list A) : forall pre,
  omap (fun k => (pre ++ l) !! k) (seq (length pre) (length l)) = l.
Proof.
  induction l as [|a l IH]; intros pre; cbn; [reflexivity|].
  rewrite lookup_app_r, Nat.sub_diag by lia. cbn. f_equal.
  specialize (IH (pre ++ [a])). rewrite length_app in IH. cbn in IH.
  rewrite Nat.add_1_r, <- app_assoc in IH. exact IH.
Qed.

Lemma omap_lookup_Forall2 {A} (l : list A) idx :
  Forall (fun k => (k < length l)%nat) idx ->
  Forall2 (fun k y => l !! k = Some y) idx (omap (fun k => l !! k) idx).
Proof.
  induction 1 as [|k idx Hk _ IH]; cbn; [constructor|].
  destruct (lookup_lt_is_Some_2 l k Hk) as [y Hy]. rewrite Hy.
  constructor; assumption.
Qed.

Lemma sort_idx_bound self ref :
  Forall (fun k => (k < length (items self))%nat) (sort_idx self ref).
Proof.
  apply Forall_forall. intros k Hk.
  rewrite sort_idx_Permutation in Hk.
  apply elem_of_seq in Hk. lia.
Qed.

Lemma list_sort_Permutation self ref :
  Permutation (items (hkl_geometry_list_sort self ref)) (items self).
Proof.
  cbn [items hkl_geometry_list_sort]. rewrite (sort_idx_Permutation self ref).
  pose proof (omap_lookup_seq (items self) []) as E. cbn in E. rewrite E.
  reflexivity.
Qed.

Lemma sort_before_true d a x :
  sort_before d a x = true -> strictly_closer d a x /\ apart d a x.
Proof.
  unfold sort_before. rewrite andb_true_iff, !Qltb_lt. tauto.
Qed.

Lemma sort_before_false d a x :
  sort_before d a x = false -> within_tolerance d x a.
Proof.
  unfold sort_before, within_tolerance.
  rewrite andb_false_iff, !Qltb_ge. pose proof HKL_EPSILON_pos.
  intros [Hge|Hclose]; [lra|].
  apply Qabs_Qle_condition in Hclose. lra.
Qed.

Lemma HdRel_insert_before (R : nat -> nat -> Prop) d a x l :
  R a x -> HdRel R a l -> HdRel R a (insert_before d x l).
Proof.
  intros Hax Hl. destruct l as [|b l]; cbn; [constructor; exact Hax|].
  destruct (sort_before d b x); constructor; [|exact Hax].
  inversion Hl; assumption.
Qed.

Lemma insert_before_Sorted_tolerance d x l :
  Sorted (within_tolerance d) l -> Sorted (within_tolerance d) (insert_before d x l).
Proof.
  induction 1 as [|a l Hs IH Hhd]; cbn; [repeat constructor|].
  destruct (sort_before d a x) eqn:E.
  - constructor; [exact IH|]. apply HdRel_insert_before; [|exact Hhd].
    apply sort_before_true in E as [E _].
    unfold within_tolerance, strictly_closer in *. pose proof HKL_EPSILON_pos. lra.
  - repeat constructor; try assumption. apply sort_before_false, E.
Qed.

Lemma insert_before_Sorted_strict d x l :
  Forall (fun a => apart d a x) l ->
  Sorted (strictly_closer d) l -> Sorted (strictly_closer d) (insert_before d x l).
Proof.
  intros Hap Hs. induction Hs as [|a l Hs IH Hhd]; cbn; [repeat constructor|].
  inversion Hap as [|? ? Ha Hap']; subst.
  destruct (sort_before d a x) eqn:E.
  - constructor; [exact (IH Hap')|]. apply HdRel_insert_before; [|exact Hhd].
    apply sort_before_true in E as [E _]. exact E.
  - repeat constructor; try assumption.
    apply sort_before_false in E. unfold apart, within_tolerance, strictly_closer in *.
    pose proof HKL_EPSILON_pos.
    destruct (Qlt_le_dec (nth x d 0) (nth a d 0)) as [Hlt|Hge]; [exact Hlt|].
    exfalso. rewrite Qabs_neg in Ha by lra. lra.
Qed.

Lemma insert_fold_Sorted_tolerance d : forall l acc,
  Sorted (within_tolerance d) acc ->
  Sorted (within_tolerance d) (fold_left (fun acc x => insert_before d x acc) l acc).
Proof.
  induction l as [|x l IH]; intros acc Hs; cbn; [exact Hs|].
  apply IH, insert_before_Sorted_tolerance, Hs.
Qed.

Lemma insert_fold_Sorted_strict d : forall l acc,
  NoDup (acc ++ l) ->
  (forall a b, In a (acc ++ l) -> In b (acc ++ l) -> a <> b -> apart d a b) ->
  Sorted (strictly_closer d) acc ->
  Sorted (strictly_closer d) (fold_left (fun acc x => insert_before d x acc) l acc).
Proof.
  induction l as [|x l IH]; intros acc Hnd Hap Hs; cbn; [exact Hs|].
  assert (Hperm : Permutation (insert_before d x acc ++ l) (acc ++ x :: l)).
  { rewrite insert_before_Permutation. cbn [app]. apply Permutation_middle. }
  apply IH.
  - rewrite Hperm. exact Hnd.
  - intros a b Ha Hb. apply Hap; rewrite <- Hperm; assumption.
  - apply insert_before_Sorted_strict; [|exact Hs].
    apply Forall_forall. intros a Ha. apply list_elem_of_In in Ha.
    apply Hap.
    + apply in_or_app. left. exact Ha.
    + apply in_or_app. right. left. reflexivity.
    + intros ->. apply NoDup_app in Hnd as (_ & Hdisj & _).
      apply (Hdisj x); [apply list_elem_of_In, Ha | left].
Qed.

Lemma Sorted_lookup_succ {A} (R : A -> A -> Prop) l : forall k a b,
  Sorted R l -> l !! k = Some a -> l !! S k = Some b -> R a b.
Proof.
  induction l as [|y l IH]; intros k a b Hs Ha Hb; [discriminate|].
  inversion Hs as [|? ? Hs' Hhd]; subst. destruct k as [|k]; cbn in *.
  - injection Ha as ->. destruct l as [|z l]; [discriminate|].
    cbn in Hb. injection Hb as ->. inversion Hhd; assumption.
  - exact (IH k a b Hs' Ha Hb).
Qed.

Lemma StronglySorted_lookup {A} (R : A -> A -> Prop) l : forall i j a b,
  StronglySorted R l -> (i < j)%nat -> l !! i = Some a -> l !! j = Some b -> R a b.
Proof.
  induction l as [|y l IH]; intros i j a b Hs Hij Ha Hb; [discriminate|].
  inversion Hs as [|? ? Hs' Hall]; subst.
  destruct j as [|j]; [lia|]. cbn in Hb. destruct i as [|i]; cbn in Ha.
  - injection Ha as ->. rewrite Forall_forall in Hall.
    apply Hall. apply list_elem_of_lookup. eauto.
  - apply (IH i j a b Hs'); [lia | assumption..].
Qed.

Lemma strictly_closer_trans d : Transitive (strictly_closer d).
Proof. unfold strictly_closer. intros a b c ? ?. lra. Qed.

Lemma sort_distances_nth self ref k a :
  items self !! k = Some a ->
  nth k (sort_distances self ref) 0 = hkl_geometry_distance ref a.
Proof.
  intros Hk. apply nth_lookup_Some. unfold sort_distances.
  rewrite list_lookup_fmap, Hk. reflexivity.
Qed.

(** An item of the sorted list is the item of the list at the index the
    sort put there. *)
Lemma list_sort_lookup self ref k a :
  items (hkl_geometry_list_sort self ref) !! k = Some a ->
  exists ka, sort_idx self ref !! k = Some ka /\ items self !! ka = Some a.
Proof.
  intros Hk. cbn in Hk.
  pose proof (omap_lookup_Forall2 (items self) _ (sort_idx_bound self ref)) as HF.
  destruct (Forall2_lookup_r _ _ _ _ _ HF Hk) as (ka & Hka & Ha). eauto.
Qed.

(** C8, as the code has it.  After [hkl_geometry_list_sort (list, ref)]:
    the list holds the same items, in some order; each item is at most
    [HKL_EPSILON] farther from [ref] than the item that follows it (the
    distance is [hkl_geometry_distance (ref, item)], the sum of the
    [|axis_i(ref) - axis_i(item)|]); and when the distances of the items
    differ pairwise by more than [HKL_EPSILON], the items appear in strictly
    increasing order of distance.  Nothing is promised on the order of
    items whose distances are within [HKL_EPSILON]. *)
Theorem list_sort_ordered (self : HklGeometryList) (ref : HklGeometry) :
  let sorted := items (hkl_geometry_list_sort self ref) in
  let d := hkl_geometry_distance ref in
  Permutation sorted (items self) /\
  (forall k a b, sorted !! k = Some a -> sorted !! S k = Some b ->
     d a <= d b + HKL_EPSILON) /\
  ((forall i j a b, i <> j -> items self !! i = Some a -> items self !! j = Some b ->
      HKL_EPSILON < Qabs (d a - d b)) ->
   forall i j a b, (i < j)%nat -> sorted !! i = Some a -> sorted !! j = Some b ->
     d a < d b).
Proof.
  intros sorted d. split; [apply list_sort_Permutation|]. split.
  - intros k a b Ha Hb.
    destruct (list_sort_lookup _ _ _ _ Ha) as (ka & Hka & Hia).
    destruct (list_sort_lookup _ _ _ _ Hb) as (kb & Hkb & Hib).
    assert (Hs : Sorted (within_tolerance (sort_distances self ref)) (sort_idx self ref)).
    { rewrite sort_idx_fold. apply insert_fold_Sorted_tolerance. constructor. }
    pose proof (Sorted_lookup_succ _ _ _ _ _ Hs Hka Hkb) as Hab.
    unfold within_tolerance in Hab.
    rewrite (sort_distances_nth _ _ _ _ Hia), (sort_distances_nth _ _ _ _ Hib) in Hab.
    exact Hab.
  - intros Hsep i j a b Hij Ha Hb.
    destruct (list_sort_lookup _ _ _ _ Ha) as (ka & Hka & Hia).
    destruct (list_sort_lookup _ _ _ _ Hb) as (kb & Hkb & Hib).
    assert (Hs : Sorted (strictly_closer (sort_distances self ref)) (sort_idx self ref)).
    { rewrite sort_idx_fold. apply insert_fold_Sorted_strict.
      - cbn [app]. apply NoDup_seq.
      - cbn [app]. intros x y Hx Hy Hxy.
        apply in_seq in Hx, Hy.
        destruct (lookup_lt_is_Some_2 (items self) x ltac:(lia)) as [gx Hgx].
        destruct (lookup_lt_is_Some_2 (items self) y ltac:(lia)) as [gy Hgy].
        unfold apart.
        rewrite (sort_distances_nth _ _ _ _ Hgx), (sort_distances_nth _ _ _ _ Hgy).
        exact (Hsep x y gx gy Hxy Hgx Hgy).
      - constructor. }
    apply Sorted_StronglySorted in Hs; [|apply strictly_closer_trans].
    pose proof (StronglySorted_lookup _ _ _ _ _ _ Hs Hij Hka Hkb) as Hab.
    unfold strictly_closer in Hab.
    rewrite (sort_distances_nth _ _ _ _ Hia), (sort_distances_nth _ _ _ _ Hib) in Hab.
    exact Hab.
Qed.

(** C8 fails as stated, twice, with "tth" as the only axis and the position 0
    as reference.  (1) The positions 1 and -1 are equally far and come out in
    the order -1, 1: the tie is reversed.  (2) The positions 1 and
    1 + HKL_EPSILON / 2 come out with the farther one first: the order is not
    non-decreasing. *)
Lemma list_sort_reverses_ties :
  let g := one_axis_geometry (- M_PI) M_PI in
  let d := hkl_geometry_distance (g 0) in
  (d (g 1) == d (g (-1)) /\
   items (hkl_geometry_list_sort (mkGeometryList [g 1; g (-1)]) (g 0))
   = [g (-1); g 1]) /\
  (d (g 1) < d (g (1 + HKL_EPSILON / 2)) /\
   items (hkl_geometry_list_sort (mkGeometryList [g 1; g (1 + HKL_EPSILON / 2)]) (g 0))
   = [g (1 + HKL_EPSILON / 2); g 1]).
Proof. vm_compute. repeat split; reflexivity. Qed.

(** An instance of C8's theorem: two geometries at distances 3 and 1 from
    the reference come out in increasing order. *)
Lemma list_sort_ordered_witness :
  let g := one_axis_geometry (- M_PI) M_PI in
  hkl_geometry_distance (g 0) (g 1) < hkl_geometry_distance (g 0) (g 3).
Proof.
  intros g.
  refine (proj2 (proj2 (list_sort_ordered (mkGeometryList [g 3; g 1]) (g 0)))
            _ 0%nat 1%nat (g 1) (g 3) _ _ _).
  - intros [|[|i]] [|[|j]] a b Hij Ha Hb; cbn in Ha, Hb;
      try discriminate; try (exfalso; apply Hij; reflexivity);
      injection Ha as <-; injection Hb as <-; vm_compute; reflexivity.
  - apply Nat.lt_0_1.
  - reflexivity.
  - reflexivity.
Defined.

(** ** The list keeps its items apart *)

Lemma orthodromic_distance_sym p1 p2 :
  is_rotation p1 = is_rotation p2 ->
  hkl_parameter_orthodromic_distance_get p1 (_value p2)
  = hkl_parameter_orthodromic_distance_get p2 (_value p1).
Proof.
  intros Hk. unfold hkl_parameter_orthodromic_distance_get. rewrite Hk.
  destruct (is_rotation p2).
  - rewrite (Qabs_Qminus (gsl_sf_angle_restrict_symm (_value p2))). reflexivity.
  - apply Qabs_Qminus.
Qed.

Lemma distance_orthodromic_sym g h :
  axis_kinds g = axis_kinds h ->
  hkl_geometry_distance_orthodromic g h = hkl_geometry_distance_orthodromic h g.
Proof.
  unfold hkl_geometry_distance_orthodromic, axis_kinds.
  generalize 0. generalize (axes h). induction (axes g) as [|a l IH];
    intros [|b k] acc Hk; try discriminate; [reflexivity|].
  cbn in Hk. injection Hk as Hab Hk. cbn.
  rewrite (orthodromic_distance_sym a b Hab). apply IH, Hk.
Qed.

Lemma kept_apart_sym g h : kept_apart g h -> kept_apart h g.
Proof. unfold kept_apart. tauto. Qed.

Lemma ForallOrdPairs_snoc {A} (R : A -> A -> Prop) l x :
  ForallOrdPairs R l -> Forall (fun y => R y x) l -> ForallOrdPairs R (l ++ [x]).
Proof.
  induction 1 as [|a l Ha Hl IH]; intros Hx; cbn.
  - repeat constructor.
  - inversion Hx as [|? ? Hax Hx']; subst. constructor; [|exact (IH Hx')].
    apply Forall_app. split; [exact Ha | repeat constructor; exact Hax].
Qed.

Lemma ForallOrdPairs_filter {A} (R : A -> A -> Prop) (P : A -> Prop)
    `{forall x, Decision (P x)} l :
  ForallOrdPairs R l -> ForallOrdPairs R (filter P l).
Proof.
  induction 1 as [|a l Ha Hl IH]; [constructor|].
  rewrite filter_cons. destruct (decide (P a)); [|exact IH].
  constructor; [|exact IH].
  rewrite Forall_forall in Ha |- *. intros y Hy.
  apply Ha. apply list_elem_of_filter in Hy. tauto.
Qed.

Lemma ForallOrdPairs_Permutation {A} (R : A -> A -> Prop) l k :
  (forall x y, R x y -> R y x) ->
  Permutation l k -> ForallOrdPairs R l -> ForallOrdPairs R k.
Proof.
  intros Hsym. induction 1 as [|x l k Hp IH|x y l|l k m _ IH1 _ IH2]; intros Hl.
  - exact Hl.
  - inversion Hl as [|? ? Hx Hl']; subst. constructor; [|exact (IH Hl')].
    rewrite <- Hp. exact Hx.
  - inversion Hl as [|? ? Hy Hl']; subst. inversion Hl' as [|? ? Hx Hl'']; subst.
    inversion Hy as [|? ? Hyx Hy']; subst.
    repeat constructor; auto.
  - auto.
Qed.

Lemma ForallOrdPairs_lookup {A} (R : A -> A -> Prop) l : forall i j a b,
  ForallOrdPairs R l -> (i < j)%nat -> l !! i = Some a -> l !! j = Some b -> R a b.
Proof.
  induction l as [|y l IH]; intros i j a b Hl Hij Ha Hb; [discriminate|].
  inversion Hl as [|? ? Hy Hl']; subst.
  destruct j as [|j]; [lia|]. cbn in Hb. destruct i as [|i]; cbn in Ha.
  - injection Ha as ->. rewrite Forall_forall in Hy.
    apply Hy. apply list_elem_of_lookup. eauto.
  - apply (IH i j a b Hl'); [lia | assumption..].
Qed.

(** What every operation but the multiplicity expansion preserves: all items
    have the axes of one diffractometer and are kept apart pairwise. *)
Lemma list_add_keeps_apart kinds self geometry :
  axis_kinds geometry = kinds ->
  Forall (fun g => axis_kinds g = kinds) (items self) ->
  ForallOrdPairs kept_apart (items self) ->
  Forall (fun g => axis_kinds g = kinds) (items (hkl_geometry_list_add self geometry)) /\
  ForallOrdPairs kept_apart (items (hkl_geometry_list_add self geometry)).
Proof.
  intros Hg Hk Hl. unfold hkl_geometry_list_add.
  destruct (existsb _ (items self)) eqn:E; [tauto|]. cbn [items].
  split.
  - apply Forall_app. split; [exact Hk | repeat constructor; exact Hg].
  - apply ForallOrdPairs_snoc; [exact Hl|].
    rewrite Forall_forall in Hk |- *. intros item Hitem.
    assert (Hd : HKL_EPSILON <= hkl_geometry_distance_orthodromic geometry item).
    { apply Qltb_ge.
      destruct (Qltb (hkl_geometry_distance_orthodromic geometry item) HKL_EPSILON)
        eqn:Hlt; [|reflexivity].
      rewrite <- E. symmetry. apply existsb_exists. exists item.
      split; [apply list_elem_of_In, Hitem | exact Hlt]. }
    unfold kept_apart, hkl_geometry_new_copy.
    rewrite (distance_orthodromic_sym item geometry) by (rewrite Hg; auto).
    tauto.
Qed.

Lemma run_operation_keeps_apart kinds self op :
  (forall g, op = Add g -> axis_kinds g = kinds) ->
  Forall (fun g => axis_kinds g = kinds) (items self) ->
  ForallOrdPairs kept_apart (items self) ->
  Forall (fun g => axis_kinds g = kinds) (items (run_operation self op)) /\
  ForallOrdPairs kept_apart (items (run_operation self op)).
Proof.
  intros Hop Hk Hl. destruct op as [g| |ref]; cbn [run_operation].
  - apply list_add_keeps_apart; auto.
  - cbn [hkl_geometry_list_remove_invalid items]. split.
    + rewrite Forall_forall in Hk |- *. intros g Hg.
      apply Hk. apply list_elem_of_filter in Hg. tauto.
    + apply ForallOrdPairs_filter, Hl.
  - pose proof (list_sort_Permutation self ref) as Hp. split.
    + rewrite Hp. exact Hk.
    + apply (ForallOrdPairs_Permutation _ (items self)); auto using kept_apart_sym.
      symmetry. exact Hp.
Qed.

Lemma run_operations_keep_apart kinds ops : forall self,
  (forall g, In (Add g) ops -> axis_kinds g = kinds) ->
  Forall (fun g => axis_kinds g = kinds) (items self) ->
  ForallOrdPairs kept_apart (items self) ->
  ForallOrdPairs kept_apart (items (fold_left run_operation ops self)).
Proof.
  induction ops as [|op ops IH]; intros self Hops Hk Hl; cbn; [exact Hl|].
  destruct (run_operation_keeps_apart kinds self op) as [Hk' Hl']; auto.
  - intros g ->. apply Hops. left. reflexivity.
  - apply IH; auto. intros g Hg. apply Hops. right. exact Hg.
Qed.

(** C3, as the code has it.  Start from the empty list and run any sequence
    of [hkl_geometry_list_add], [hkl_geometry_list_remove_invalid] and
    [hkl_geometry_list_sort], the added geometries being those of one
    diffractometer (the same axes are rotations in all of them).  Then any
    two distinct items of the list are at an orthodromic distance of at least
    [HKL_EPSILON].  The multiplicity expansion is not among the operations:
    it appends the 2 pi shifted copies without this test. *)
Theorem list_items_kept_apart (ops : list list_operation) (kinds : list bool) :
  (forall g, In (Add g) ops -> axis_kinds g = kinds) ->
  forall i j gi gj, i <> j ->
    items (run_operations ops) !! i = Some gi ->
    items (run_operations ops) !! j = Some gj ->
    HKL_EPSILON <= hkl_geometry_distance_orthodromic gi gj.
Proof.
  intros Hops i j gi gj Hij Hi Hj.
  assert (Hl : ForallOrdPairs kept_apart (items (run_operations ops))).
  { apply (run_operations_keep_apart kinds); auto; constructor. }
  destruct (Nat.lt_total i j) as [Hlt|[->|Hgt]]; [|contradiction|].
  - apply (ForallOrdPairs_lookup _ _ _ _ _ _ Hl Hlt Hi Hj).
  - apply (ForallOrdPairs_lookup _ _ _ _ _ _ Hl Hgt Hj Hi).
Qed.

(** C3 fails as stated, twice.  On a detector arm "tth" free in [0, 7]:
    (1) after adding the position 0, the multiplicity expansion appends its
    copy one turn further, at orthodromic distance 0 from it; (2) two
    positions exactly [HKL_EPSILON] apart are both kept by
    [hkl_geometry_list_add], at a distance that is not above
    [HKL_EPSILON]. *)
Lemma list_items_not_above_epsilon :
  let g := one_axis_geometry 0 7 0 in
  let g' := one_axis_geometry 0 7 HKL_EPSILON in
  let l := hkl_geometry_list_add hkl_geometry_list_new g in
  (fst (perm_r 1 (items l) g g 0) = [g; write_axis g 0 (0 + 2 * M_PI)] /\
   hkl_geometry_distance_orthodromic g (write_axis g 0 (0 + 2 * M_PI)) == 0 /\
   match items (@hkl_geometry_list_multiply_from_range example_kernel l) with
   | [g1; g2] => hkl_geometry_distance_orthodromic g1 g2 == 0
   | _ => False
   end) /\
  (items (hkl_geometry_list_add l g') = [g; g'] /\
   hkl_geometry_distance_orthodromic g' g == HKL_EPSILON).
Proof. vm_compute. repeat split; reflexivity. Qed.

(** An instance of C3's theorem on a short sequence of additions, a removal
    of the invalid items and a sort. *)
Lemma list_items_kept_apart_witness :
  let g := one_axis_geometry (- M_PI) M_PI in
  HKL_EPSILON <= hkl_geometry_distance_orthodromic (g 1) (g 3).
Proof.
  intros g.
  refine (list_items_kept_apart
            [Add (g 3); Add (g 1); Add (g 1); Sort (g 0); RemoveInvalid] [true]
            _ 0%nat 1%nat (g 1) (g 3) _ _ _).
  - intros h [E|[E|[E|[E|[E|[]]]]]]; try discriminate;
      injection E as <-; reflexivity.
  - discriminate.
  - reflexivity.
  - reflexivity.
Defined.

(** The bound on the turns of [perm_r]'s loop is enough: the loop ends on its
    test, never on the bound. *)
Lemma perm_r_loop_enough rec axis_idx max : forall n extra self geometry value,
  max + HKL_EPSILON < value + inject_Z (Z.of_nat (S n)) * (2 * M_PI) ->
  perm_r_loop rec axis_idx max (S n + extra) self geometry value
  = perm_r_loop rec axis_idx max (S n) self geometry value.
Proof.
  induction n as [|n IH]; intros extra self geometry value Hlast;
    cbn [perm_r_loop Nat.add]; destruct (rec self geometry) as [self' geometry'].
  - assert (Hstop : Qleb (value + 2 * M_PI) (max + HKL_EPSILON) = false).
    { apply Qleb_gt. change (inject_Z (Z.of_nat 1)) with 1 in Hlast. lra. }
    rewrite Hstop. reflexivity.
  - destruct (Qleb (value + 2 * M_PI) (max + HKL_EPSILON)); [|reflexivity].
    apply (IH extra). rewrite Nat2Z.inj_succ in Hlast.
    unfold Z.succ in Hlast. rewrite inject_Z_plus in Hlast.
    change (inject_Z 1) with 1 in Hlast. lra.
Qed.

Lemma perm_r_turns_enough max value0 :
  exists n, perm_r_turns max value0 = S n /\
    max + HKL_EPSILON < value0 + inject_Z (Z.of_nat (S n)) * (2 * M_PI).
Proof.
  unfold perm_r_turns.
  set (x := (max + HKL_EPSILON - value0) / (2 * M_PI)).
  exists (Z.to_nat (Qfloor x)). split; [reflexivity|].
  pose proof M_PI_pos as Hpi.
  assert (E : x * (2 * M_PI) == max + HKL_EPSILON - value0).
  { unfold x. field. intros E. rewrite E in Hpi. discriminate. }
  pose proof (Qlt_floor x) as Hx.
  assert (Hn : inject_Z (Qfloor x + 1) <= inject_Z (Z.of_nat (S (Z.to_nat (Qfloor x))))).
  { rewrite <- Zle_Qle. lia. }
  assert (Hlt : x < inject_Z (Z.of_nat (S (Z.to_nat (Qfloor x))))) by lra.
  apply (Qmult_lt_compat_r _ _ (2 * M_PI)) in Hlt; [|lra].
  rewrite E in Hlt. lra.
Qed.

(** ** Closest geometry in range *)

(** [hkl_geometry_update] keeps everything of an axis but the changed mark. *)
Lemma geometry_update_axis self i a :
  axes self !! i = Some a ->
  exists a', axes (hkl_geometry_update self) !! i = Some a' /\
    name a' = name a /\ range a' = range a /\ _value a' = _value a /\
    fit a' = fit a /\ transformation a' = transformation a.
Proof.
  intros Hi. unfold hkl_geometry_update.
  destruct (existsb changed (axes self)); cbn [axes].
  - exists (clear_changed a). rewrite list_lookup_fmap, Hi. repeat split.
  - exists a. repeat split. exact Hi.
Qed.

Lemma geometry_update_length self :
  length (axes (hkl_geometry_update self)) = length (axes self).
Proof.
  unfold hkl_geometry_update.
  destruct (existsb changed (axes self)); cbn [axes]; [apply length_map | reflexivity].
Qed.

(** *** The closest value of an axis *)

Lemma turn_pos : 0 < 2 * M_PI.
Proof. pose proof M_PI_pos. lra. Qed.

Lemma inject_Z_le_floor (k : Z) (x : Q) : inject_Z k <= x -> (k <= Qfloor x)%Z.
Proof. intros Hk. rewrite <- (Qfloor_Z k). apply Qfloor_resp_le, Hk. Qed.

Lemma ceiling_le_inject_Z (k : Z) (x : Q) : x <= inject_Z k -> (Qceiling x <= k)%Z.
Proof. intros Hk. rewrite <- (Qceiling_Z k). apply Qceiling_resp_le, Hk. Qed.

Lemma inject_Z_succ_le (k k' : Z) : (k < k')%Z -> inject_Z k + 1 <= inject_Z k'.
Proof.
  intros Hk. change 1 with (inject_Z 1). rewrite <- inject_Z_plus.
  rewrite <- Zle_Qle. lia.
Qed.

(** The whole turns [k] that keep the value in range are those from [kmin] to
    [kmax]. *)
Lemma in_range_turns (self : HklParameter) (k : Z) :
  in_range self (_value self + inject_Z k * (2 * M_PI)) <->
  (Qceiling ((min (range self) - _value self) / (2 * M_PI)) <= k
   <= Qfloor ((max (range self) - _value self) / (2 * M_PI)))%Z.
Proof.
  pose proof turn_pos as HT. unfold in_range.
  set (T := 2 * M_PI) in *. set (v := _value self).
  set (lo := min (range self)). set (hi := max (range self)).
  assert (Elo : (lo - v) / T * T == lo - v) by (field; lra).
  assert (Ehi : (hi - v) / T * T == hi - v) by (field; lra).
  set (xlo := (lo - v) / T) in *. set (xhi := (hi - v) / T) in *.
  split.
  - intros [Hlo Hhi]. split.
    + apply ceiling_le_inject_Z. nra.
    + apply inject_Z_le_floor. nra.
  - intros [Hlo Hhi]. rewrite Zle_Qle in Hlo, Hhi.
    pose proof (Qle_ceiling xlo). pose proof (Qfloor_le xhi). split; nra.
Qed.

Lemma closest_turns_Some self ref k :
  closest_turns self ref = Some k ->
  in_range self (_value self + inject_Z k * (2 * M_PI)).
Proof.
  unfold closest_turns. intros Hk. apply in_range_turns.
  destruct (Z.ltb_spec (Qfloor ((max (range self) - _value self) / (2 * M_PI)))
              (Qceiling ((min (range self) - _value self) / (2 * M_PI))));
    [discriminate|].
  apply (inj Some) in Hk. subst k. lia.
Qed.

Lemma closest_turns_None self ref :
  closest_turns self ref = None ->
  forall k, ~ in_range self (_value self + inject_Z k * (2 * M_PI)).
Proof.
  unfold closest_turns. intros Hk k Hin. apply in_range_turns in Hin.
  destruct (Z.ltb_spec (Qfloor ((max (range self) - _value self) / (2 * M_PI)))
              (Qceiling ((min (range self) - _value self) / (2 * M_PI))));
    [lia | discriminate].
Qed.

Lemma closest_turns_nearest self ref k k' :
  closest_turns self ref = Some k ->
  in_range self (_value self + inject_Z k' * (2 * M_PI)) ->
  Qabs (_value self + inject_Z k * (2 * M_PI) - ref)
  <= Qabs (_value self + inject_Z k' * (2 * M_PI) - ref).
Proof.
  unfold closest_turns. intros Hk Hin. apply in_range_turns in Hin.
  pose proof turn_pos as HT.
  set (kmin := Qceiling _) in *. set (kmax := Qfloor _) in Hin, Hk.
  set (T := 2 * M_PI) in *. set (v := _value self).
  assert (Ex : (ref - v) / T * T == ref - v) by (field; lra).
  fold v in Hk. set (x := (ref - v) / T) in *.
  pose proof (Qfloor_le (x + (1 # 2))) as Hfl.
  pose proof (Qlt_floor (x + (1 # 2))) as Hfu.
  rewrite inject_Z_plus in Hfu. change (inject_Z 1) with 1 in Hfu.
  set (k0 := Qfloor (x + (1 # 2))) in *.
  destruct (Z.ltb_spec kmax kmin); [discriminate|]. apply (inj Some) in Hk. subst k.
  assert (Hcase : (k' = Z.max kmin (Z.min kmax k0)
                   \/ Z.max kmin (Z.min kmax k0) < k' /\ k0 <= Z.max kmin (Z.min kmax k0)
                   \/ k' < Z.max kmin (Z.min kmax k0) /\ Z.max kmin (Z.min kmax k0) <= k0)%Z)
    by lia.
  set (k := Z.max kmin (Z.min kmax k0)) in *.
  destruct Hcase as [->|[[Hlt Hle]|[Hlt Hle]]].
  - apply Qle_refl.
  - apply inject_Z_succ_le in Hlt. rewrite Zle_Qle in Hle.
    apply Qabs_Qle_condition. split.
    + apply Qabs_case; intros; nra.
    + apply Qabs_case; intros; nra.
  - apply inject_Z_succ_le in Hlt. rewrite Zle_Qle in Hle.
    apply Qabs_Qle_condition. split.
    + apply Qabs_case; intros; nra.
    + apply Qabs_case; intros; nra.
Qed.

(** What [hkl_parameter_value_get_closest] returns: a representative of the
    value of [self] inside the range of [self], and none of them in range is
    closer to the value of [ref]. *)
Lemma value_get_closest_Some self ref v :
  hkl_parameter_value_get_closest self ref = Some v ->
  representative self v /\ in_range self v /\
  forall v', representative self v' -> in_range self v' ->
    Qabs (v - _value ref) <= Qabs (v' - _value ref).
Proof.
  unfold hkl_parameter_value_get_closest, representative.
  destruct (is_rotation self).
  - destruct (closest_turns self (_value ref)) as [k|] eqn:Hk; [|discriminate].
    intros Hv. apply (inj Some) in Hv. subst v. split; [|split].
    + exists k. reflexivity.
    + apply (closest_turns_Some _ _ _ Hk).
    + intros v' [k' Hv'] Hin. unfold in_range in Hin. rewrite Hv' in *.
      apply (closest_turns_nearest _ _ _ _ Hk Hin).
  - destruct (Qleb (min (range self)) (_value self)) eqn:Hlo;
      destruct (Qleb (_value self) (max (range self))) eqn:Hhi; try discriminate.
    intros Hv. apply (inj Some) in Hv. subst v.
    apply Qleb_le in Hlo, Hhi. split; [reflexivity | split; [split; assumption|]].
    intros v' Hv' _. rewrite Hv'. apply Qle_refl.
Qed.

(** It returns NaN only when no representative is in range. *)
Lemma value_get_closest_None self ref :
  hkl_parameter_value_get_closest self ref = None ->
  forall v, representative self v -> ~ in_range self v.
Proof.
  unfold hkl_parameter_value_get_closest, representative.
  destruct (is_rotation self).
  - destruct (closest_turns self (_value ref)) as [k|] eqn:Hk; [discriminate|].
    intros _ v [k Hv] Hin. unfold in_range in Hin. rewrite Hv in Hin.
    apply (closest_turns_None _ _ Hk k Hin).
  - intros Hn v Hv [Hlo Hhi]. rewrite Hv in Hlo, Hhi.
    apply Qleb_le in Hlo, Hhi. rewrite Hlo, Hhi in Hn. discriminate.
Qed.

(** The cases of [tests/hkl-axis-t.c] ([get_value_closest]), in degrees: from
    0 the closest value to 0 is 0; with the range [-270, 180] and the value
    100, the closest value to -75 is 100 and the closest value to -85 is
    -260. *)
Lemma value_get_closest_tests :
  let HKL_DEGTORAD := M_PI / 180 in
  let axis lo hi value :=
    mkParameter "rotation" (mkInterval (lo * HKL_DEGTORAD) (hi * HKL_DEGTORAD))
      (value * HKL_DEGTORAD) true true (Rotation (mkVector 1 0 0) q0) in
  let closest self ref :=
    match hkl_parameter_value_get_closest self ref with
    | Some v => Qeq_bool v
    | None => fun _ => false
    end in
  closest (axis (-180) 180 0) (axis (-180) 180 0) 0 = true /\
  closest (axis (-270) 180 100) (axis (-180) 180 (-75)) (100 * HKL_DEGTORAD) = true /\
  closest (axis (-270) 180 100) (axis (-180) 180 (-85)) (-260 * HKL_DEGTORAD) = true.
Proof. vm_compute. repeat split. Qed.

(** *** The closest geometry *)

Section Closest.
Context `{AxisKernel}.

Lemma value_set_stores self value :
  (is_rotation self = false ->
   min (range self) <= value <= max (range self)) ->
  exists p, hkl_parameter_value_set self value = Some p /\
    name p = name self /\ range p = range self /\ _value p = value /\
    fit p = fit self /\ is_rotation p = is_rotation self.
Proof.
  intros Hrange. unfold hkl_parameter_value_set, is_rotation in *.
  destruct (transformation self) eqn:E; cbn; try (eexists; repeat split; fail).
  destruct (Hrange eq_refl) as [Hlo Hhi].
  rewrite (proj2 (Qleb_le _ _) Hlo), (proj2 (Qleb_le _ _) Hhi). cbn.
  eexists; repeat split.
Qed.

Lemma closest_values_Some l : forall r values,
  closest_values l r = Some values ->
  length values = length l /\
  forall i a, l !! i = Some a ->
    exists b v, r !! i = Some b /\
      hkl_parameter_value_get_closest a b = Some v /\ values !! i = Some v.
Proof.
  induction l as [|a l IH]; intros [|b r] values Hc; cbn in Hc;
    try discriminate.
  - injection Hc as <-. split; [reflexivity | intros; discriminate].
  - injection Hc as <-. split; [reflexivity | intros; discriminate].
  - destruct (hkl_parameter_value_get_closest a b) as [v|] eqn:Hv; [|discriminate].
    destruct (closest_values l r) as [vs|] eqn:Hvs; [|discriminate].
    injection Hc as <-. destruct (IH r vs Hvs) as [Hlen Hall].
    split; [cbn; lia|]. intros [|i] a' Ha; cbn in *.
    + injection Ha as <-. eauto.
    + apply Hall, Ha.
Qed.

Lemma closest_values_None l : forall r,
  length r = length l ->
  closest_values l r = None ->
  exists i a b, l !! i = Some a /\ r !! i = Some b /\
    hkl_parameter_value_get_closest a b = None.
Proof.
  induction l as [|a l IH]; intros [|b r] Hlen Hc; cbn in *; try discriminate.
  destruct (hkl_parameter_value_get_closest a b) as [v|] eqn:Hv.
  - destruct (closest_values l r) eqn:Hvs; [discriminate|].
    destruct (IH r ltac:(lia) Hvs) as (i & a' & b' & ? & ? & ?).
    exists (S i), a', b'. auto.
  - exists 0%nat, a, b. auto.
Qed.

Lemma set_values_lookup l : forall values i a v,
  l !! i = Some a -> values !! i = Some v ->
  set_values l values !! i = Some (hkl_parameter_value_set_ignore a v).
Proof.
  induction l as [|a' l IH]; intros [|v' values] [|i] a v Ha Hv;
    cbn in *; try discriminate.
  - congruence.
  - apply IH; assumption.
Qed.

(** C7, as the code has it.  For two geometries with as many axes,
    [hkl_geometry_closest_from_geometry_with_range] either answers
    [ko = FALSE] and has set every axis to a representative of its own value
    (the value moved by whole turns of 2 pi), inside its own range and as
    close to the value of the same axis of the reference as a representative
    in range can be; or answers [ko = TRUE], some axis having no
    representative in its range (the closest value is NaN), and leaves the
    geometry exactly as it was. *)
Theorem closest_from_geometry_atomic (self ref : HklGeometry) :
  length (axes ref) = length (axes self) ->
  let after := hkl_geometry_closest_from_geometry_with_range self ref in
  (snd after = false /\
   length (axes (fst after)) = length (axes self) /\
   forall i a, axes self !! i = Some a ->
     exists b a',
       axes ref !! i = Some b /\ axes (fst after) !! i = Some a' /\
       name a' = name a /\ range a' = range a /\
       representative a (_value a') /\ in_range a (_value a') /\
       forall v, representative a v -> in_range a v ->
         Qabs (_value a' - _value b) <= Qabs (v - _value b))
  \/
  (snd after = true /\ fst after = self /\
   exists i a, axes self !! i = Some a /\
     forall v, representative a v -> ~ in_range a v).
Proof.
  intros Hlen. unfold hkl_geometry_closest_from_geometry_with_range.
  destruct (closest_values (axes self) (axes ref)) as [values|] eqn:Hc; cbn.
  - left. split; [reflexivity|].
    destruct (closest_values_Some _ _ _ Hc) as [Hvlen Hall].
    assert (Hslen : forall l vs, length vs = length l ->
               length (set_values l vs) = length l).
    { induction l as [|x l IH]; intros [|y vs] Hl; cbn in *; try lia.
      rewrite IH; lia. }
    split; [rewrite geometry_update_length; cbn; apply Hslen, Hvlen|].
    intros i a Ha. destruct (Hall i a Ha) as (b & v & Hb & Hv & Hvi).
    destruct (value_get_closest_Some a b v Hv) as (Hrep & Hin & Hnear).
    pose proof (set_values_lookup _ _ _ _ _ Ha Hvi) as Hset.
    destruct (geometry_update_axis
                (set_axes self (set_values (axes self) values)) i _ Hset)
      as (a' & Ha' & Hname & Hrange & Hvalue & _).
    destruct (value_set_stores a v (fun _ => Hin))
      as (p & Hp & Hpn & Hpr & Hpv & _).
    unfold hkl_parameter_value_set_ignore in *. rewrite Hp in *.
    assert (Ev : _value a' = v) by congruence.
    exists b, a'. rewrite Ev. repeat split; try congruence; try apply Hin.
    exact Hnear.
  - right. repeat split.
    destruct (closest_values_None _ _ Hlen Hc) as (i & a & b & Ha & Hb & Hn).
    exists i, a. split; [exact Ha|]. apply (value_get_closest_None a b Hn).
Qed.
End Closest.

(** C7 fails as stated, on the data of [tests/hkl-axis-t.c]
    ([get_value_closest]): an axis at 100 degrees with the range
    [-270, 180], and a reference at -75 degrees.  The call succeeds and the
    axis stays at 100 degrees, its representative closest to the reference;
    the representative of the reference value in the range, -75 degrees, is
    not what the axis is set to: 100 degrees is no 2 pi-equivalent of -75
    degrees. *)
Lemma closest_from_geometry_keeps_own_value :
  let HKL_DEGTORAD := M_PI / 180 in
  let self :=
    one_axis_geometry (-270 * HKL_DEGTORAD) (180 * HKL_DEGTORAD) (100 * HKL_DEGTORAD) in
  let ref :=
    one_axis_geometry (-180 * HKL_DEGTORAD) (180 * HKL_DEGTORAD) (-75 * HKL_DEGTORAD) in
  let after :=
    @hkl_geometry_closest_from_geometry_with_range example_kernel self ref in
  snd after = false /\
  match axes (fst after) with
  | [axis] => _value axis == 100 * HKL_DEGTORAD
  | _ => False
  end /\
  (-270 * HKL_DEGTORAD <= -75 * HKL_DEGTORAD <= 180 * HKL_DEGTORAD) /\
  forall k : Z,
    ~ 100 * HKL_DEGTORAD == -75 * HKL_DEGTORAD + inject_Z k * (2 * M_PI).
Proof.
  cbv zeta. split; [reflexivity|]. split; [vm_compute; reflexivity|].
  pose proof M_PI_pos as Hpi.
  assert (Ed : M_PI == 180 * (M_PI / 180)) by field.
  set (d := M_PI / 180) in *. split; [split; lra|].
  intros k Hk.
  assert (Hcase : (k <= 0 \/ 1 <= k)%Z) by lia.
  destruct Hcase as [Hle|Hle]; rewrite Zle_Qle in Hle;
    apply (Qmult_le_compat_r _ _ (2 * M_PI)) in Hle; try lra;
    [change (inject_Z 0) with 0 in Hle | change (inject_Z 1) with 1 in Hle]; lra.
Qed.

(** An instance of C7's theorem, in both directions: an axis at 4 with the
    range [-pi, pi] (success, 4 - 2 pi is in range) and an axis at 2 with the
    range [0, 1] (failure, no representative is in range). *)
Lemma closest_from_geometry_atomic_witness :
  snd (@hkl_geometry_closest_from_geometry_with_range example_kernel
         (one_axis_geometry (- M_PI) M_PI 4) (one_axis_geometry (- M_PI) M_PI 0)) = false /\
  snd (@hkl_geometry_closest_from_geometry_with_range example_kernel
         (one_axis_geometry 0 1 2) (one_axis_geometry 0 1 0)) = true.
Proof.
  split.
  - destruct (@closest_from_geometry_atomic example_kernel
                (one_axis_geometry (- M_PI) M_PI 4) (one_axis_geometry (- M_PI) M_PI 0)
                eq_refl) as [[Hko _]|[Hko _]].
    + exact Hko.
    + discriminate Hko.
  - destruct (@closest_from_geometry_atomic example_kernel
                (one_axis_geometry 0 1 2) (one_axis_geometry 0 1 0)
                eq_refl) as [[Hko _]|[Hko _]].
    + discriminate Hko.
    + exact Hko.
Defined.

(** ** SOLEIL SIXS MED 2+3: what the slit fit may change *)

Lemma restrict_pos_range theta : 0 <= gsl_sf_angle_restrict_pos theta < 2 * M_PI.
Proof.
  unfold gsl_sf_angle_restrict_pos.
  pose proof M_PI_pos as Hpi.
  assert (E : theta / (2 * M_PI) * (2 * M_PI) == theta).
  { field. intros E. rewrite E in Hpi. discriminate. }
  pose proof (Qfloor_le (theta / (2 * M_PI))) as Hlo.
  pose proof (Qlt_floor (theta / (2 * M_PI))) as Hhi.
  rewrite inject_Z_plus in Hhi.
  set (f := inject_Z (Qfloor (theta / (2 * M_PI)))) in *.
  apply (Qmult_le_compat_r _ _ (2 * M_PI)) in Hlo; [|lra].
  apply (Qmult_lt_compat_r _ _ (2 * M_PI)) in Hhi; [|lra].
  rewrite E in Hlo, Hhi. change (inject_Z 1) with 1 in Hhi.
  split; lra.
Qed.

Lemma same_but_axis_refl k g : same_but_axis k g g.
Proof.
  repeat split; intros; eexists; (split; [eassumption|]); repeat split.
Qed.

Lemma same_but_axis_trans k g1 g2 g3 :
  same_but_axis k g1 g2 -> same_but_axis k g2 g3 -> same_but_axis k g1 g3.
Proof.
  intros (Hl12 & Ho12 & Hk12) (Hl23 & Ho23 & Hk23). split; [congruence|]. split.
  - intros i a Hi Ha.
    destruct (Ho12 i a Hi Ha) as (a2 & Ha2 & E1 & E2 & E3 & E4 & E5).
    destruct (Ho23 i a2 Hi Ha2) as (a3 & Ha3 & F1 & F2 & F3 & F4 & F5).
    exists a3. split; [exact Ha3|]. repeat split; congruence.
  - intros a Ha.
    destruct (Hk12 a Ha) as (a2 & Ha2 & E1 & E2 & E3 & E4).
    destruct (Hk23 a2 Ha2) as (a3 & Ha3 & F1 & F2 & F3 & F4).
    exists a3. split; [exact Ha3|]. repeat split; congruence.
Qed.

Lemma geometry_update_same k g : same_but_axis k g (hkl_geometry_update g).
Proof.
  split; [apply geometry_update_length|]. split.
  - intros i a _ Ha. destruct (geometry_update_axis g i a Ha) as (a' & Ha' & E).
    exists a'. split; [exact Ha' | exact E].
  - intros a Ha. destruct (geometry_update_axis g k a Ha)
      as (a' & Ha' & E1 & E2 & E3 & E4 & E5).
    exists a'. split; [exact Ha'|]. unfold same_axis, is_rotation.
    rewrite E5. auto.
Qed.

Lemma alter_axis_same k g f :
  (forall a, same_axis a (f a)) ->
  same_but_axis k g (set_axes g (alter f k (axes g))).
Proof.
  intros Hf. unfold same_but_axis. cbn [axes set_axes].
  split; [apply length_alter|]. split.
  - intros i a Hi Ha. exists a.
    rewrite list_lookup_alter_ne by auto. split; [exact Ha|]. repeat split.
  - intros a Ha. exists (f a).
    rewrite list_lookup_alter_eq, Ha. split; [reflexivity | apply Hf].
Qed.

Section SlitFit.
Context `{AxisKernel}.

Lemma value_set_ignore_same a value :
  same_axis a (hkl_parameter_value_set_ignore a value).
Proof.
  unfold hkl_parameter_value_set_ignore, hkl_parameter_value_set, same_axis, is_rotation.
  destruct (transformation a) eqn:E; cbn; rewrite ?E; auto.
  destruct (_ && _); cbn; rewrite ?E; auto.
Qed.

Lemma value_set_ignore_rotation a value :
  is_rotation a = true ->
  _value (hkl_parameter_value_set_ignore a value) = value /\
  changed (hkl_parameter_value_set_ignore a value) = true.
Proof.
  unfold hkl_parameter_value_set_ignore, hkl_parameter_value_set, is_rotation.
  destruct (transformation a); cbn; auto; discriminate.
Qed.

Lemma set_axis_value_same k g value : same_but_axis k g (set_axis_value g k value).
Proof. apply alter_axis_same. intros a. apply value_set_ignore_same. Qed.

Lemma slits_func_same k g x : same_but_axis k g (slits_func g k x).
Proof.
  unfold slits_func.
  eapply same_but_axis_trans; [apply set_axis_value_same | apply geometry_update_same].
Qed.

Lemma evaluations_same k l : forall g,
  same_but_axis k g (fold_left (fun g x => slits_func g k x) l g).
Proof.
  induction l as [|x l IH]; intros g; cbn; [apply same_but_axis_refl|].
  eapply same_but_axis_trans; [apply slits_func_same | apply IH].
Qed.

Lemma fit_slits_orientation_same run k g :
  same_but_axis k g (fst (fit_slits_orientation run g k)).
Proof.
  unfold fit_slits_orientation.
  destruct (status run); cbn [fst];
    try apply evaluations_same;
    (eapply same_but_axis_trans; [apply evaluations_same|]);
    apply alter_axis_same; intros a; repeat split.
Qed.

(** *** The holders during the fit *)

(** A holder reads the axes through their quaternions only. *)
Lemma holder_update_loop_ext l1 l2 idxs : forall acc,
  (forall i, l1 !! i ≫= hkl_parameter_quaternion_get
             = l2 !! i ≫= hkl_parameter_quaternion_get) ->
  holder_update_loop l1 idxs acc = holder_update_loop l2 idxs acc.
Proof.
  intros acc Hq. rewrite !holder_update_loop_product. f_equal.
  induction idxs as [|i idxs IH]; [reflexivity|]. cbn. rewrite (Hq i), IH. reflexivity.
Qed.

Lemma holders_update_ext l1 l2 (hs1 hs2 : list HklHolder) :
  (forall i, l1 !! i ≫= hkl_parameter_quaternion_get
             = l2 !! i ≫= hkl_parameter_quaternion_get) ->
  map idx hs1 = map idx hs2 ->
  map (hkl_holder_update l1) hs1 = map (hkl_holder_update l2) hs2.
Proof.
  intros Hq. revert hs2. induction hs1 as [|h hs1 IH]; intros [|h2 hs2] E;
    try discriminate; [reflexivity|].
  cbn in E. injection E as Eh E. cbn. f_equal; [|apply IH, E].
  unfold hkl_holder_update. rewrite Eh. f_equal. apply holder_update_loop_ext, Hq.
Qed.

Lemma transformation_at_twice t x y :
  transformation_at (transformation_at t x) y = transformation_at t y.
Proof. destruct t; reflexivity. Qed.

Lemma value_set_ignore_transformation a value :
  is_rotation a = true ->
  transformation (hkl_parameter_value_set_ignore a value)
  = transformation_at (transformation a) value.
Proof.
  unfold hkl_parameter_value_set_ignore, hkl_parameter_value_set, is_rotation.
  destruct (transformation a); cbn; auto; discriminate.
Qed.

Lemma slit_fit_state_refl k g : slit_fit_state k g g.
Proof.
  repeat split; congruence.
Qed.

Lemma set_axis_value_changed k g a x :
  axes g !! k = Some a -> is_rotation a = true ->
  existsb changed (axes (set_axis_value g k x)) = true.
Proof.
  intros Ha Hrot. apply existsb_exists.
  exists (hkl_parameter_value_set_ignore a x). split.
  - apply list_elem_of_In, (list_elem_of_lookup_2 _ k).
    unfold set_axis_value. cbn [axes set_axes]. rewrite list_lookup_alter_eq, Ha.
    reflexivity.
  - apply value_set_ignore_rotation, Hrot.
Qed.

(** One evaluation of [slits_func] from a state of the fit: the holders it
    leaves are those it leaves from the geometry the fit started from. *)
Lemma slits_func_state k g g' a x :
  axes g !! k = Some a -> is_rotation a = true ->
  slit_fit_state k g g' ->
  slit_fit_state k g (slits_func g' k x) /\
  holders (slits_func g' k x) = holders (slits_func g k x).
Proof.
  intros Ha Hrot (Hlen & Hidx & Hothers & Hk).
  destruct (lookup_lt_is_Some_2 (axes g') k) as [a' Ha'].
  { rewrite Hlen. apply (lookup_lt_Some _ _ _ Ha). }
  destruct (Hk a a' Ha Ha') as [Hrot' Hat]. rewrite Hrot in Hrot'.
  unfold slits_func, hkl_geometry_update.
  rewrite (set_axis_value_changed k g a x Ha Hrot),
    (set_axis_value_changed k g' a' x Ha' Hrot').
  unfold slit_fit_state, set_axis_value, set_axes. cbn [axes holders]. split.
  - split; [rewrite length_map, !length_alter; exact Hlen|].
    split.
    { rewrite <- Hidx, <- list_fmap_compose. apply list_fmap_ext.
      intros i h _. reflexivity. }
    split.
    + intros i b b' Hi Hb Hb'. rewrite list_lookup_fmap, list_lookup_alter_ne in Hb' by auto.
      destruct (axes g' !! i) as [c|] eqn:Hc; [|discriminate]. cbn in Hb'.
      injection Hb' as <-. cbn. apply (Hothers i b c Hi Hb Hc).
    + intros b b' Hb Hb'. rewrite Ha in Hb. injection Hb as <-.
      rewrite list_lookup_fmap, list_lookup_alter_eq, Ha' in Hb'. cbn in Hb'.
      injection Hb' as <-. split.
      * unfold is_rotation in *. cbn [transformation clear_changed].
        rewrite (value_set_ignore_transformation a' x Hrot'), (Hat x).
        destruct (transformation a); cbn; auto; discriminate.
      * intros y. cbn [transformation clear_changed].
        rewrite (value_set_ignore_transformation a' x Hrot'), transformation_at_twice.
        apply Hat.
  - apply holders_update_ext; [|exact Hidx].
    intros i. destruct (decide (i = k)) as [->|Hi].
    + rewrite !list_lookup_alter_eq, Ha, Ha'. cbn.
      unfold hkl_parameter_quaternion_get.
      rewrite (value_set_ignore_transformation a' x Hrot'),
        (value_set_ignore_transformation a x Hrot), (Hat x). reflexivity.
    + rewrite !list_lookup_alter_ne by auto.
      destruct (axes g !! i) as [b|] eqn:Hb.
      * destruct (lookup_lt_is_Some_2 (axes g') i) as [b' Hb'].
        { rewrite Hlen. apply (lookup_lt_Some _ _ _ Hb). }
        rewrite Hb'. cbn. unfold hkl_parameter_quaternion_get.
        rewrite (Hothers i b b' Hi Hb Hb'). reflexivity.
      * apply lookup_ge_None in Hb. rewrite <- Hlen in Hb.
        apply lookup_ge_None in Hb. rewrite Hb. reflexivity.
Qed.

Lemma evaluations_state k g a l : forall g',
  axes g !! k = Some a -> is_rotation a = true ->
  slit_fit_state k g g' ->
  slit_fit_state k g (fold_left (fun g x => slits_func g k x) l g').
Proof.
  induction l as [|x l IH]; intros g' Ha Hrot Hs; cbn; [exact Hs|].
  apply IH; auto. apply (slits_func_state k g g' a x Ha Hrot Hs).
Qed.

(** After the evaluations the holders are those of the last one. *)
Lemma evaluations_holders k g a l x :
  axes g !! k = Some a -> is_rotation a = true ->
  last l = Some x ->
  holders (fold_left (fun g x => slits_func g k x) l g) = holders (slits_func g k x).
Proof.
  intros Ha Hrot Hl. apply last_Some in Hl as [l' ->].
  rewrite fold_left_app. cbn [fold_left].
  apply (slits_func_state k g _ a x Ha Hrot).
  apply (evaluations_state k g a l' g Ha Hrot), slit_fit_state_refl.
Qed.

(** C10, as the code has it.  Take a geometry whose second holder (the
    detector's) ends on a rotation, the slit axis, and any run of the
    solver.  After [hkl_geometry_list_multiply_soleil_sixs_med_2_3] the
    geometry has the same axes, and every axis other than the slit axis is
    as before (name, range, value, fit flag, transformation; only the
    changed mark may have been cleared).  The slit axis keeps its name and
    range; when the fit converges its value lies in [0, 2 pi).  When it does
    not (the status is still GSL_CONTINUE at the iteration limit) the value
    of the slit axis is exactly the value from before the fit, so that all
    the axis values of the geometry are those from before; but the geometry
    is not what it was: the slit axis is marked changed, and the holders,
    which [hkl_geometry_update] is not called on after the value is put
    back, are those that the last evaluation of [slits_func] left, computed
    with the slit axis at the last point the solver tried. *)
Theorem slit_fit_changes_one_axis (run : solver_run) (geometry : HklGeometry)
    (detector_holder : HklHolder) (slits_id : nat) (axis : HklParameter) :
  holders geometry !! 1%nat = Some detector_holder ->
  last (idx detector_holder) = Some slits_id ->
  axes geometry !! slits_id = Some axis ->
  is_rotation axis = true ->
  let after := hkl_geometry_list_multiply_soleil_sixs_med_2_3 run geometry in
  length (axes after) = length (axes geometry) /\
  (forall i a, i <> slits_id -> axes geometry !! i = Some a ->
     exists a', axes after !! i = Some a' /\ same_axis_position a a') /\
  (exists a', axes after !! slits_id = Some a' /\
     name a' = name axis /\ range a' = range axis /\
     (status run <> GSL_CONTINUE -> 0 <= _value a' < 2 * M_PI) /\
     (status run = GSL_CONTINUE ->
        _value a' = _value axis /\ changed a' = true)) /\
  (status run = GSL_CONTINUE ->
     map _value (axes after) = map _value (axes geometry) /\
     forall x, last (evaluations run) = Some x ->
       holders after = holders (slits_func geometry slits_id x)).
Proof.
  intros Hh Hlast Haxis Hrot after.
  assert (Hsame : same_but_axis slits_id geometry after /\
            exists a', axes after !! slits_id = Some a' /\
              (status run <> GSL_CONTINUE -> 0 <= _value a' < 2 * M_PI) /\
              (status run = GSL_CONTINUE ->
                 _value a' = _value axis /\ changed a' = true)).
  { unfold after, hkl_geometry_list_multiply_soleil_sixs_med_2_3.
    rewrite Hh, Hlast, Haxis.
    pose proof (fit_slits_orientation_same run slits_id geometry) as Hfit.
    destruct (fit_slits_orientation run geometry slits_id) as [fitted res] eqn:Efit.
    cbn [fst] in Hfit.
    destruct (proj2 (proj2 (evaluations_same slits_id (evaluations run) geometry))
                axis Haxis) as (ag & Hag & _ & _ & _ & Hrg).
    unfold fit_slits_orientation in Efit.
    destruct (status run) eqn:Est; injection Efit as <- <-.
    - split; [exact Hfit|]. cbn [axes set_axes].
      rewrite list_lookup_alter_eq, Hag. cbn.
      eexists. split; [reflexivity|]. split; [|discriminate].
      intros _. apply restrict_pos_range.
    - split.
      + eapply same_but_axis_trans; [exact Hfit | apply set_axis_value_same].
      + cbn [axes set_axes set_axis_value]. rewrite list_lookup_alter_eq, Hag. cbn.
        eexists. split; [reflexivity|]. split; [congruence|].
        intros _. apply value_set_ignore_rotation. congruence.
    - split; [exact Hfit|]. cbn [axes set_axes].
      rewrite list_lookup_alter_eq, Hag. cbn.
      eexists. split; [reflexivity|]. split; [|discriminate].
      intros _. apply restrict_pos_range. }
  destruct Hsame as [(Hlen & Hothers & Hslit) (a' & Ha' & Hok & Hko)].
  split; [exact Hlen|]. split; [exact Hothers|]. split.
  - destruct (Hslit axis Haxis) as (a'' & Ha'' & Hn & Hr & _).
    exists a'. rewrite Ha' in Ha''. injection Ha'' as <-. auto.
  - intros Hst. split.
    + apply list_eq. intros i. rewrite !list_lookup_fmap.
      destruct (axes geometry !! i) as [a|] eqn:Ha.
      * destruct (decide (i = slits_id)) as [->|Hi].
        -- rewrite Ha'. cbn. rewrite (proj1 (Hko Hst)). congruence.
        -- destruct (Hothers i a Hi Ha) as (b & Hb & _ & _ & Hv & _).
           rewrite Hb. cbn. congruence.
      * apply lookup_ge_None in Ha. rewrite <- Hlen in Ha.
        apply lookup_ge_None in Ha. rewrite Ha. reflexivity.
    + intros x Hx. unfold after, hkl_geometry_list_multiply_soleil_sixs_med_2_3.
      rewrite Hh, Hlast, Haxis. unfold fit_slits_orientation. rewrite Hst.
      cbn [holders set_axis_value set_axes].
      apply (evaluations_holders slits_id geometry axis _ x Haxis Hrot Hx).
Qed.
End SlitFit.

(** C10 fails as stated: after a fit that does not converge the geometry is
    not left unchanged.  The MED 2+3 geometry, up to date (no axis marked
    changed, the holders at the identity), and a run of the solver that
    evaluates [slits_func] at 0, 1/2 and 7 and does not converge: the hook
    puts the value 0 of "eta_a" back, but "eta_a" is now marked changed and
    the detector holder still caches the quaternion of "eta_a" at 7 (with
    the kernel of the examples (1, -7/2, 0, 0); with the quaternion of a
    rotation of 7 radians around -x it is not the identity either). *)
Lemma slit_fit_failure_leaves_holders :
  let geometry := hkl_geometry_update sixs_med_2_3_geometry in
  let after := @hkl_geometry_list_multiply_soleil_sixs_med_2_3 example_kernel
                 (mkRun [0; 1 # 2; 7] GSL_CONTINUE) geometry in
  map _value (axes after) = map _value (axes geometry) /\
  map changed (axes geometry) = [false; false; false; false; false; false] /\
  map changed (axes after) = [false; false; false; false; false; true] /\
  Forall2 (fun h qh => qa (q h) == qa qh /\ qb (q h) == qb qh /\
                       qc (q h) == qc qh /\ qd (q h) == qd qh)
    (holders geometry) [q0; q0] /\
  Forall2 (fun h qh => qa (q h) == qa qh /\ qb (q h) == qb qh /\
                       qc (q h) == qc qh /\ qd (q h) == qd qh)
    (holders after) [q0; mkQuaternion 1 (- (7 # 2)) 0 0] /\
  after <> geometry.
Proof.
  intros geometry after.
  split; [vm_compute; reflexivity|]. split; [reflexivity|].
  split; [vm_compute; reflexivity|].
  split; [repeat constructor|]. split; [repeat constructor|].
  intros E. apply (f_equal (fun g => map changed (axes g))) in E.
  vm_compute in E. discriminate.
Qed.

(** An instance of C10's theorem on the MED 2+3 geometry, for a solver run
    that evaluates three points and does not converge: the values of the
    axes are those from before, the holders those of the evaluation at 7. *)
Lemma slit_fit_changes_one_axis_witness :
  let after := @hkl_geometry_list_multiply_soleil_sixs_med_2_3 example_kernel
                 (mkRun [0; 1 # 2; 7] GSL_CONTINUE) sixs_med_2_3_geometry in
  map name (axes sixs_med_2_3_geometry)
  = ["beta"; "mu"; "omega"; "gamma"; "delta"; "eta_a"]%string /\
  map _value (axes after) = map _value (axes sixs_med_2_3_geometry) /\
  holders after = holders (@slits_func example_kernel sixs_med_2_3_geometry 5 7).
Proof.
  intros after. split; [reflexivity|].
  destruct (proj2 (proj2 (proj2
    (@slit_fit_changes_one_axis example_kernel (mkRun [0; 1 # 2; 7] GSL_CONTINUE)
       sixs_med_2_3_geometry _ 5%nat _ eq_refl eq_refl eq_refl eq_refl))) eq_refl)
    as [Hvalues Hholders].
  split; [exact Hvalues | exact (Hholders 7 eq_refl)].
Defined.

(** ** The lattice *)

Module LatticeFacts.
Import Lattice.
Local Open Scope R_scope.





Section WithKernel.
Context `{Constants} `{ParameterKernel}.









End WithKernel.



End LatticeFacts.

(** ** The q engine *)

Module EngineQFacts.
Import EngineQ.
Local Open Scope R_scope.

(** C9.  For every geometry of wavelength lambda > 0 and every detector,
    [get_q_real] succeeds and leaves in the pseudo-axis q the value
    (2 tau / lambda) sin theta, where theta is half the angle between ki and
    kf, negated exactly when the y or the z coordinate of kf is negative. *)
Theorem get_q_real_value `{Constants} `{VectorKernel} (engine : HklEngineQ)
    (geometry : HklGeometry) (detector : HklDetector) :
  let lambda := hkl_source_get_wavelength (source geometry) in
  let ki := hkl_geometry_ki_get geometry in
  let kf := hkl_geometry_kf_get geometry detector in
  let theta := hkl_vector_angle ki kf / 2 in
  0 < lambda ->
  let after := get_q_real engine geometry detector in
  snd after = true /\
  (data1 kf < 0 \/ data2 kf < 0 ->
   q_value (fst after) = 2 * HKL_TAU / lambda * sin (- theta)) /\
  (~ (data1 kf < 0 \/ data2 kf < 0) ->
   q_value (fst after) = 2 * HKL_TAU / lambda * sin theta).
Proof.
  intros lambda ki kf theta Hlambda after.
  unfold after, get_q_real, qmax. cbn [fst snd q_value].
  fold lambda. fold ki. fold kf. fold theta.
  split; [reflexivity|].
  destruct (Rlt_dec (data1 kf) 0) as [H1|H1].
  - split; [reflexivity | tauto].
  - destruct (Rlt_dec (data2 kf) 0) as [H2|H2].
    + split; [reflexivity | tauto].
    + split; [tauto | reflexivity].
Qed.

(** An instance of C9's theorem, with [HKL_TAU] = 2 pi. *)
Lemma get_q_real_value_witness :
  q_value (fst (@get_q_real example_constants example_vector_kernel
                  (mkEngineQ 0) hkl_geometry_new HKL_DETECTOR_TYPE_0D))
  = 2 * (2 * PI) / Q2R (154 # 100) * sin (PI / 2 / 2).
Proof.
  refine (proj2 (proj2 (@get_q_real_value example_constants example_vector_kernel
                          (mkEngineQ 0) hkl_geometry_new HKL_DETECTOR_TYPE_0D _)) _).
  - unfold hkl_source_get_wavelength, Q2R. cbn. lra.
  - cbn. lra.
Defined.

End EngineQFacts.

(** * Further properties *)

(** ** Building a geometry *)

Lemma axis_idx_scan_first l n : forall k i p,
  l !! i = Some p -> name p = n ->
  (forall j p', (j < i)%nat -> l !! j = Some p' -> name p' <> n) ->
  axis_idx_scan l n k = Z.of_nat (k + i) /\ axis_scan l n = Some p.
Proof.
  induction l as [|a l IH]; intros k [|i] p Hi Hn Hfirst; try discriminate; cbn in *.
  - injection Hi as ->. rewrite (proj2 (String.eqb_eq _ _) Hn).
    split; [f_equal; lia | reflexivity].
  - destruct (String.eqb_spec (name a) n) as [E|_].
    + exfalso. apply (Hfirst 0%nat a); [lia | reflexivity | exact E].
    + destruct (IH (S k) i p Hi Hn) as [E1 E2].
      * intros j p' Hj Hp'. apply (Hfirst (S j) p'); [lia | exact Hp'].
      * split; [rewrite E1; f_equal; lia | exact E2].
Qed.

Lemma axis_idx_scan_missing l n : forall k,
  (forall p, In p l -> name p <> n) ->
  axis_idx_scan l n k = (-1)%Z /\ axis_scan l n = None.
Proof.
  induction l as [|a l IH]; intros k Hn; [split; reflexivity|]. cbn.
  destruct (String.eqb_spec (name a) n) as [E|_].
  - exfalso. apply (Hn a); [left; reflexivity | exact E].
  - apply IH. intros p Hp. apply Hn. right. exact Hp.
Qed.

Lemma name_found_or_missing (l : list HklParameter) (n : string) :
  (exists i p, l !! i = Some p /\ name p = n /\
     (forall j p', (j < i)%nat -> l !! j = Some p' -> name p' <> n)) \/
  (forall p, In p l -> name p <> n).
Proof.
  induction l as [|a l IH]; [right; intros p []|].
  destruct (String.eqb_spec (name a) n) as [E|NE].
  - left. exists 0%nat, a. repeat split; auto. intros j p' Hj. lia.
  - destruct IH as [(i & p & Hi & Hn & Hfirst)|Hnone].
    + left. exists (S i), p. repeat split; auto.
      intros [|j] p' Hj Hp'; cbn in Hp'.
      * injection Hp' as <-. exact NE.
      * apply (Hfirst j p'); [lia | exact Hp'].
    + right. intros p [<-|Hp]; auto.
Qed.

(** What [hkl_geometry_add_axis] does when it returns: either the axis was
    there, or it is appended. *)
Lemma add_axis_Return self axis g i :
  hkl_geometry_add_axis self axis = Return (g, i) ->
  (g = self /\
   exists p, axes self !! i = Some p /\ name p = name axis /\
     hkl_parameter_transformation_cmp p axis = 0%Z /\
     (forall j p', (j < i)%nat -> axes self !! j = Some p' -> name p' <> name axis))
  \/
  (g = set_axes self (axes self ++ [axis]) /\ i = length (axes self) /\
   forall p, In p (axes self) -> name p <> name axis).
Proof.
  unfold hkl_geometry_add_axis.
  destruct (add_axis_scan (axes self) axis 0) as [[k|c]|] eqn:Hs; intros Hr;
    try discriminate.
  - left. injection Hr as <- <-.
    destruct (add_axis_scan_found _ _ _ _ Hs) as (i & p & Hi & Hn & Hfirst & Ho).
    destruct (Z.eqb_spec (hkl_parameter_transformation_cmp p axis) 0) as [E|_];
      [|discriminate].
    injection Ho as ->. split; [reflexivity|]. exists p. auto.
  - right. injection Hr as <- <-. unfold hkl_parameter_new_copy.
    split; [reflexivity|]. split; [rewrite length_app; cbn; lia|].
    apply (add_axis_scan_none _ _ _ Hs).
Qed.

(** X1: insert, then look up.  When [hkl_geometry_add_axis] returns the
    index [i], the axis at [i] has the name and the transformation of the
    axis given, and looking the name up ([hkl_geometry_get_axis_idx_by_name],
    [hkl_geometry_get_axis_by_name], [hkl_geometry_axis_get]) finds that
    index and that axis. *)
Theorem add_axis_then_lookup (self g : HklGeometry) (axis : HklParameter) (i : nat) :
  hkl_geometry_add_axis self axis = Return (g, i) ->
  exists p,
    axes g !! i = Some p /\ name p = name axis /\ same_transformation p axis /\
    hkl_geometry_get_axis_idx_by_name g (name axis) = Z.of_nat i /\
    hkl_geometry_get_axis_by_name g (name axis) = Some p /\
    hkl_geometry_axis_get g (name axis) = inr p.
Proof.
  intros Hadd.
  assert (Hfound : exists p, axes g !! i = Some p /\ name p = name axis /\
            same_transformation p axis /\
            (forall j p', (j < i)%nat -> axes g !! j = Some p' -> name p' <> name axis)).
  { destruct (add_axis_Return _ _ _ _ Hadd)
      as [[-> (p & Hi & Hn & Hc & Hfirst)]|(-> & -> & Hfresh)].
    - exists p. repeat split; auto. apply transformation_cmp_same, Hc.
    - exists axis. cbn [axes set_axes].
      rewrite lookup_app_r, Nat.sub_diag by lia.
      repeat split; auto.
      + apply transformation_cmp_same, transformation_cmp_refl.
      + intros j p' Hj Hp'. rewrite lookup_app_l in Hp' by lia.
        apply Hfresh. apply list_elem_of_In. eapply list_elem_of_lookup_2, Hp'. }
  destruct Hfound as (p & Hi & Hn & Hsame & Hfirst). exists p.
  destruct (axis_idx_scan_first (axes g) (name axis) 0 i p Hi Hn Hfirst) as [E1 E2].
  unfold hkl_geometry_get_axis_idx_by_name, hkl_geometry_get_axis_by_name,
    hkl_geometry_axis_get.
  rewrite E1, E2. repeat split; auto.
Qed.

Lemma existsb_eqb_false i l : existsb (Nat.eqb i) l = false -> i ∉ l.
Proof.
  intros He Hin. apply list_elem_of_In in Hin.
  assert (existsb (Nat.eqb i) l = true); [|congruence].
  apply existsb_exists. exists i. split; [exact Hin | apply Nat.eqb_refl].
Qed.

Lemma add_holder_well_formed g :
  well_formed g -> well_formed (fst (hkl_geometry_add_holder g)).
Proof.
  intros [Hn Hh]. split; [exact Hn|]. cbn.
  apply Forall_app. split; [exact Hh|].
  repeat constructor.
Qed.

Lemma add_axis_well_formed self axis g i :
  well_formed self ->
  hkl_geometry_add_axis self axis = Return (g, i) ->
  well_formed g /\ (i < length (axes g))%nat.
Proof.
  intros [Hn Hh] Hadd.
  destruct (add_axis_Return _ _ _ _ Hadd) as [[-> (p & Hi & _)]|(-> & -> & Hfresh)].
  - split; [split; assumption|]. apply lookup_lt_Some in Hi. exact Hi.
  - unfold well_formed. cbn [axes set_axes holders]. rewrite length_app. cbn [length].
    split; [|lia]. split.
    + rewrite map_app. cbn. apply NoDup_app. split; [exact Hn|].
      split; [|apply NoDup_singleton].
      intros n Hin Hn'. apply list_elem_of_singleton in Hn'. subst n.
      apply list_elem_of_fmap in Hin. destruct Hin as (p & Hp & Hin).
      apply (Hfresh p); [apply list_elem_of_In, Hin | congruence].
    + eapply Forall_impl; [exact Hh|]. cbn. intros holder [Hd Hb].
      split; [exact Hd|]. eapply Forall_impl; [exact Hb|]. cbn. intros. lia.
Qed.

Lemma add_axis_if_not_present_well_formed g h i :
  well_formed g -> (i < length (axes g))%nat ->
  well_formed (hkl_holder_add_axis_if_not_present g h i).
Proof.
  intros [Hn Hh] Hi. unfold hkl_holder_add_axis_if_not_present.
  destruct (holders g !! h) as [holder|] eqn:Hholder; [|split; assumption].
  destruct (existsb (Nat.eqb i) (idx holder)) eqn:He; [split; assumption|].
  split; [exact Hn|]. cbn [axes holders].
  apply Forall_insert; [exact Hh|].
  destruct (proj1 (Forall_lookup _ _) Hh h holder Hholder) as [Hd Hb].
  cbn [idx]. split.
  - apply NoDup_app. split; [exact Hd|]. split; [|apply NoDup_singleton].
    intros j Hj Hj'. apply list_elem_of_singleton in Hj'. subst j.
    apply (existsb_eqb_false _ _ He), Hj.
  - apply Forall_app. split; [exact Hb|]. repeat constructor. exact Hi.
Qed.

Lemma construction_step_well_formed o step g :
  (forall g0, o = Return g0 -> well_formed g0) ->
  run_construction_step o step = Return g -> well_formed g.
Proof.
  intros Ho. destruct o as [g0|c]; [|discriminate]. cbn.
  specialize (Ho g0 eq_refl). destruct step as [|h axis].
  - intros [= <-]. apply add_holder_well_formed, Ho.
  - unfold holder_add.
    destruct (hkl_geometry_add_axis g0 axis) as [[g1 i]|c] eqn:Hadd; [|discriminate].
    intros [= <-]. destruct (add_axis_well_formed _ _ _ _ Ho Hadd) as [Hw Hi].
    apply add_axis_if_not_present_well_formed; assumption.
Qed.

Lemma construction_steps_well_formed steps : forall o g,
  (forall g0, o = Return g0 -> well_formed g0) ->
  fold_left run_construction_step steps o = Return g -> well_formed g.
Proof.
  induction steps as [|step steps IH]; intros o g Ho; cbn.
  - intros ->. apply Ho. reflexivity.
  - apply IH. intros g0 Hg0. apply (construction_step_well_formed o step g0 Ho Hg0).
Qed.

(** In a geometry whose axes have distinct names, an axis is found by its
    name at its own index. *)
Lemma distinct_names_lookup (g : HklGeometry) i p :
  NoDup (map name (axes g)) -> axes g !! i = Some p ->
  hkl_geometry_get_axis_idx_by_name g (name p) = Z.of_nat i /\
  hkl_geometry_get_axis_by_name g (name p) = Some p.
Proof.
  intros Hnd Hi.
  apply (axis_idx_scan_first (axes g) (name p) 0 i p Hi eq_refl).
  intros j p' Hj Hp' Hn.
  assert (Hij : j = i); [|lia].
  apply (NoDup_lookup _ _ _ (name p) Hnd); rewrite list_lookup_fmap.
  - rewrite Hp'. cbn. congruence.
  - rewrite Hi. reflexivity.
Qed.

Lemma holder_add_twice self h axis g :
  holder_add self h axis = Return g -> holder_add g h axis = Return g.
Proof.
  unfold holder_add.
  destruct (hkl_geometry_add_axis self axis) as [[g1 i]|c] eqn:Hadd; [|discriminate].
  intros [= <-].
  assert (Hagain : hkl_geometry_add_axis (hkl_holder_add_axis_if_not_present g1 h i) axis
                   = Return (hkl_holder_add_axis_if_not_present g1 h i, i)).
  { pose proof (add_axis_twice _ _ _ _ Hadd) as Htwice.
    unfold hkl_geometry_add_axis in *.
    assert (Eaxes : axes (hkl_holder_add_axis_if_not_present g1 h i) = axes g1).
    { unfold hkl_holder_add_axis_if_not_present.
      destruct (holders g1 !! h); [|reflexivity].
      destruct (existsb _ _); reflexivity. }
    rewrite Eaxes.
    destruct (add_axis_scan (axes g1) axis 0) as [[k|c]|]; try discriminate.
    - injection Htwice as <-. reflexivity.
    - injection Htwice as Hg Hi. exfalso.
      apply (f_equal (fun g => length (axes g))) in Hg. cbn in Hg.
      rewrite length_app in Hg. cbn in Hg. lia. }
  rewrite Hagain. f_equal.
  unfold hkl_holder_add_axis_if_not_present at 1.
  destruct (holders (hkl_holder_add_axis_if_not_present g1 h i) !! h) as [holder|] eqn:Hh;
    [|reflexivity].
  assert (Hin : existsb (Nat.eqb i) (idx holder) = true); [|rewrite Hin; reflexivity].
  unfold hkl_holder_add_axis_if_not_present in Hh.
  destruct (holders g1 !! h) as [holder1|] eqn:Hh1; [|congruence].
  destruct (existsb (Nat.eqb i) (idx holder1)) eqn:He.
  - rewrite Hh1 in Hh. injection Hh as <-. exact He.
  - cbn [holders] in Hh. rewrite list_lookup_insert_eq in Hh
      by (apply lookup_lt_Some in Hh1; exact Hh1).
    injection Hh as <-. cbn [idx]. rewrite existsb_app. cbn.
    rewrite Nat.eqb_refl. apply orb_true_r.
Qed.

(** X2: every geometry that the construction functions build is well formed.
    Start from [hkl_geometry_new] and call [hkl_geometry_add_holder] and the
    [hkl_holder_add_*] functions in any order, on any holders and with any
    parameters: if the process is not left through [exit], the axes of the
    geometry have distinct names, every holder lists indices of axes of the
    geometry, none of them twice, and every axis is found by its name at its
    own index. *)
Theorem construction_well_formed (steps : list construction_step) (g : HklGeometry) :
  run_construction steps = Return g ->
  well_formed g /\
  forall i p, axes g !! i = Some p ->
    hkl_geometry_get_axis_idx_by_name g (name p) = Z.of_nat i /\
    hkl_geometry_get_axis_by_name g (name p) = Some p.
Proof.
  intros Hrun.
  assert (Hw : well_formed g).
  { apply (construction_steps_well_formed steps (Return hkl_geometry_new) g); auto.
    intros g0 [= <-]. split; constructor. }
  split; [exact Hw|]. intros i p Hi.
  apply distinct_names_lookup; [apply Hw | exact Hi].
Qed.

(** X3: adding an axis to a holder is idempotent.  When a call of one of
    the [hkl_holder_add_*] functions returns, the same call made again (same
    holder, same parameter) changes neither the geometry nor the holder. *)
Theorem holder_add_idempotent (self g : HklGeometry) (h : nat) (axis : HklParameter) :
  holder_add self h axis = Return g -> holder_add g h axis = Return g.
Proof. apply holder_add_twice. Qed.


(** ** Axes by name *)

(** X4: the three lookups by name agree, also on a missing name.  Either no
    axis has the name, and then [hkl_geometry_get_axis_idx_by_name] returns
    -1, [hkl_geometry_get_axis_by_name] returns [NULL] and
    [hkl_geometry_axis_get] fails with [HKL_GEOMETRY_ERROR_AXIS_GET]; or the
    first axis of that name is at some index [i], and the three return [i]
    and that axis. *)
Theorem axis_lookups_agree (g : HklGeometry) (n : string) :
  ((forall p, In p (axes g) -> name p <> n) /\
   hkl_geometry_get_axis_idx_by_name g n = (-1)%Z /\
   hkl_geometry_get_axis_by_name g n = None /\
   hkl_geometry_axis_get g n = inl HKL_GEOMETRY_ERROR_AXIS_GET)
  \/
  (exists i p,
     axes g !! i = Some p /\ name p = n /\
     (forall j p', (j < i)%nat -> axes g !! j = Some p' -> name p' <> n) /\
     hkl_geometry_get_axis_idx_by_name g n = Z.of_nat i /\
     hkl_geometry_get_axis_by_name g n = Some p /\
     hkl_geometry_axis_get g n = inr p).
Proof.
  unfold hkl_geometry_get_axis_idx_by_name, hkl_geometry_get_axis_by_name,
    hkl_geometry_axis_get.
  destruct (name_found_or_missing (axes g) n) as [(i & p & Hi & Hn & Hfirst)|Hnone].
  - right. exists i, p.
    destruct (axis_idx_scan_first (axes g) n 0 i p Hi Hn Hfirst) as [E1 E2].
    rewrite E1, E2. repeat split; auto.
  - left. destruct (axis_idx_scan_missing (axes g) n 0 Hnone) as [E1 E2].
    rewrite E1, E2. repeat split; auto.
Qed.

(** ** [hkl_geometry_update] *)

Lemma existsb_changed_cleared l : existsb changed (map clear_changed l) = false.
Proof. induction l as [|a l IH]; [reflexivity | exact IH]. Qed.

Lemma existsb_changed_false l :
  existsb changed l = false -> Forall (fun a => changed a = false) l.
Proof.
  induction l as [|a l IH]; cbn; [constructor|].
  destruct (changed a) eqn:E; [discriminate|]. intros H. constructor; auto.
Qed.

Lemma holder_update_loop_cleared geometry_axes l : forall acc,
  holder_update_loop (map clear_changed geometry_axes) l acc
  = holder_update_loop geometry_axes l acc.
Proof.
  induction l as [|i l IH]; intros acc; [reflexivity|]. cbn.
  rewrite list_lookup_fmap.
  destruct (geometry_axes !! i) as [p|]; cbn; [|apply IH].
  unfold hkl_parameter_quaternion_get. cbn.
  destruct (transformation p); apply IH.
Qed.

(** When an axis is marked changed, the update recomputes every holder. *)
Lemma geometry_update_holders g :
  existsb changed (axes g) = true ->
  Forall (holder_consistent (axes (hkl_geometry_update g)))
    (holders (hkl_geometry_update g)) /\
  map idx (holders (hkl_geometry_update g)) = map idx (holders g).
Proof.
  intros E. unfold hkl_geometry_update. rewrite E. cbn [axes holders]. split.
  - apply Forall_forall. intros h Hh. apply list_elem_of_fmap in Hh.
    destruct Hh as (h0 & -> & _). unfold holder_consistent, hkl_holder_update.
    cbn [q idx]. symmetry. apply holder_update_loop_cleared.
  - rewrite <- list_fmap_compose. apply list_fmap_ext. intros i h _. reflexivity.
Qed.

Lemma geometry_update_cleared g :
  Forall (fun a => changed a = false) (axes (hkl_geometry_update g)).
Proof.
  unfold hkl_geometry_update.
  destruct (existsb changed (axes g)) eqn:E; cbn [axes].
  - apply Forall_forall. intros a Ha. apply list_elem_of_fmap in Ha.
    destruct Ha as (b & -> & _). reflexivity.
  - apply existsb_changed_false, E.
Qed.

Lemma geometry_update_positions g :
  Forall2 same_axis_position (axes g) (axes (hkl_geometry_update g)).
Proof.
  unfold hkl_geometry_update.
  destruct (existsb changed (axes g)); cbn [axes].
  - apply Forall2_fmap_r, Forall2_same_length_lookup_2; [reflexivity|].
    intros i a b Ha Hb. rewrite Ha in Hb. injection Hb as <-. repeat split.
  - apply Forall2_same_length_lookup_2; [reflexivity|].
    intros i a b Ha Hb. rewrite Ha in Hb. injection Hb as <-. repeat split.
Qed.

(** The quaternion that [hkl_holder_update] leaves is the product of the
    quaternions of the rotations of the holder. *)
Lemma holder_consistent_product geometry_axes holder :
  holder_consistent geometry_axes holder -> caches_product geometry_axes holder.
Proof.
  unfold holder_consistent, caches_product, holder_quaternions. intros ->.
  apply holder_update_loop_product.
Qed.

Lemma geometry_update_products g :
  existsb changed (axes g) = true ->
  Forall (caches_product (axes (hkl_geometry_update g))) (holders (hkl_geometry_update g)).
Proof.
  intros E. eapply Forall_impl; [apply geometry_update_holders, E|].
  intros h. apply holder_consistent_product.
Qed.

(** X5: [hkl_geometry_update] brings the geometry up to date and is
    idempotent.  After the call no axis is marked changed and the axes are
    otherwise what they were; a second call changes nothing; and when an
    axis was marked changed, every holder lists the axes it listed and
    caches the product, starting from the identity and multiplying on the
    right, of the quaternions of its rotation axes in the order of the
    holder (its translations contribute nothing, wherever they stand). *)
Theorem geometry_update_up_to_date (g : HklGeometry) :
  let g' := hkl_geometry_update g in
  Forall (fun a => changed a = false) (axes g') /\
  Forall2 same_axis_position (axes g) (axes g') /\
  hkl_geometry_update g' = g' /\
  (existsb changed (axes g) = true ->
   Forall (caches_product (axes g')) (holders g') /\
   map idx (holders g') = map idx (holders g)).
Proof.
  intros g'. split; [apply geometry_update_cleared|].
  split; [apply geometry_update_positions|]. split.
  - unfold g', hkl_geometry_update.
    destruct (existsb changed (axes g)) eqn:E; cbn [axes].
    + rewrite existsb_changed_cleared. reflexivity.
    + rewrite E. reflexivity.
  - intros E. split; [apply geometry_update_products, E|].
    apply geometry_update_holders, E.
Qed.

(** ** Setting all the axis values *)

Section AxisValues.
Context `{AxisKernel}.

Lemma value_set_Some a v a' :
  hkl_parameter_value_set a v = Some a' ->
  _value a' = v /\ changed a' = true /\ name a' = name a /\ range a' = range a /\
  fit a' = fit a.
Proof.
  unfold hkl_parameter_value_set.
  destruct (transformation a); try (intros [= <-]; repeat split; fail).
  destruct (_ && _); [|discriminate]. intros [= <-]. repeat split.
Qed.


Lemma set_values_loop_length l : forall values,
  length (fst (set_values_loop l values)) = length l.
Proof.
  induction l as [|a l IH]; intros [|v values]; cbn; try reflexivity.
  destruct (hkl_parameter_value_set a v) as [a'|]; [|reflexivity].
  specialize (IH values). destruct (set_values_loop l values). cbn in *. lia.
Qed.

(** The loop went through: every axis that had a value to take took it. *)
Lemma set_values_loop_true l : forall values l',
  set_values_loop l values = (l', true) ->
  forall i a v, l !! i = Some a -> values !! i = Some v ->
    exists a', hkl_parameter_value_set a v = Some a' /\ l' !! i = Some a'.
Proof.
  induction l as [|a0 l IH]; intros [|v0 values] l' Hl i a v Ha Hv;
    try discriminate. cbn in Hl.
  destruct (hkl_parameter_value_set a0 v0) as [a0'|] eqn:E0; [|discriminate].
  destruct (set_values_loop l values) as [rest ok] eqn:Er.
  injection Hl as <- ->. destruct i as [|i]; cbn in *.
  - injection Ha as <-. injection Hv as <-. eauto.
  - apply (IH values rest Er i a v Ha Hv).
Qed.

(** The loop was left on a refusal: the axes before the one that refused took
    their value, the others are what they were. *)
Lemma set_values_loop_false l : forall values l',
  set_values_loop l values = (l', false) ->
  exists k axis v,
    l !! k = Some axis /\ values !! k = Some v /\
    hkl_parameter_value_set axis v = None /\
    (forall i a w, (i < k)%nat -> l !! i = Some a -> values !! i = Some w ->
       exists a', hkl_parameter_value_set a w = Some a' /\ l' !! i = Some a') /\
    (forall i, (k <= i)%nat -> l' !! i = l !! i).
Proof.
  induction l as [|a0 l IH]; intros [|v0 values] l' Hl; try discriminate.
  cbn in Hl.
  destruct (hkl_parameter_value_set a0 v0) as [a0'|] eqn:E0.
  - destruct (set_values_loop l values) as [rest ok] eqn:Er.
    injection Hl as <- ->.
    destruct (IH values rest Er) as (k & axis & v & Hk & Hv & Hn & Hb & Ha).
    exists (S k), axis, v. repeat split; auto.
    + intros [|i] a w Hi Hai Hw; cbn in *.
      * injection Hai as <-. injection Hw as <-. eauto.
      * apply (Hb i a w); [lia | assumption | assumption].
    + intros [|i] Hi; [lia|]. cbn. apply Ha. lia.
  - injection Hl as <-. exists 0%nat, a0, v0. repeat split; auto.
    intros i a w Hi. lia.
Qed.

Lemma set_values_loop_changed l : forall values l',
  l <> [] -> length values = length l ->
  set_values_loop l values = (l', true) ->
  existsb changed l' = true.
Proof.
  intros [|v values] l' Hl Hlen Hs; destruct l as [|a l]; try discriminate;
    try contradiction. cbn in Hs.
  destruct (hkl_parameter_value_set a v) as [a'|] eqn:E; [|discriminate].
  destruct (set_values_loop l values) as [rest ok]. injection Hs as <- _.
  cbn. destruct (value_set_Some _ _ _ E) as (_ & -> & _). reflexivity.
Qed.

(** X6: set all the values, then get them.  When
    [hkl_geometry_axis_values_set] succeeds, [hkl_geometry_axis_values_get]
    returns exactly the values given, the axes keep their names and ranges,
    none is marked changed any more, and (if the geometry has an axis) every
    holder caches the quaternion that the new values give. *)
Theorem axis_values_set_then_get (self g : HklGeometry) (values : list Q) :
  hkl_geometry_axis_values_set self values = Some (g, true) ->
  hkl_geometry_axis_values_get g (length values) = Some values /\
  map name (axes g) = map name (axes self) /\
  map range (axes g) = map range (axes self) /\
  Forall (fun a => changed a = false) (axes g) /\
  (axes self <> [] -> Forall (holder_consistent (axes g)) (holders g)).
Proof.
  unfold hkl_geometry_axis_values_set.
  destruct (Nat.eqb_spec (length values) (length (axes self))) as [Hlen|]; [|discriminate].
  destruct (set_values_loop (axes self) values) as [l ok] eqn:Hl.
  destruct ok; [|discriminate]. intros [= <-].
  pose proof (set_values_loop_length (axes self) values) as Hll. rewrite Hl in Hll.
  cbn [fst] in Hll.
  pose proof (geometry_update_positions (set_axes self l)) as Hpos.
  cbn [axes set_axes] in Hpos.
  assert (Hset : forall i a', l !! i = Some a' ->
            exists a v, axes self !! i = Some a /\ values !! i = Some v /\
              hkl_parameter_value_set a v = Some a').
  { intros i a' Ha'. pose proof (lookup_lt_Some _ _ _ Ha') as Hi.
    destruct (lookup_lt_is_Some_2 (axes self) i ltac:(lia)) as [a Ha].
    destruct (lookup_lt_is_Some_2 values i ltac:(lia)) as [v Hv].
    destruct (set_values_loop_true _ _ _ Hl i a v Ha Hv) as (a'' & Hs & Ha'').
    exists a, v. rewrite Ha' in Ha''. injection Ha'' as <-. auto. }
  assert (Hall : forall i b, axes (hkl_geometry_update (set_axes self l)) !! i = Some b ->
            exists a v, axes self !! i = Some a /\ values !! i = Some v /\
              _value b = v /\ name b = name a /\ range b = range a).
  { intros i b Hb.
    destruct (Forall2_lookup_r _ _ _ _ _ Hpos Hb) as (a' & Ha' & Hp).
    destruct (Hset i a' Ha') as (a & v & Ha & Hv & Hs).
    destruct (value_set_Some _ _ _ Hs) as (E1 & _ & E2 & E3 & _).
    destruct Hp as (P1 & P2 & P3 & _).
    exists a, v. repeat split; congruence. }
  assert (Hlg : length (axes (hkl_geometry_update (set_axes self l))) = length (axes self)).
  { rewrite <- (Forall2_length _ _ _ Hpos). exact Hll. }
  split; [|split; [|split; [|split]]].
  - unfold hkl_geometry_axis_values_get. rewrite Hlg, Hlen, Nat.eqb_refl. f_equal.
    apply list_eq_same_length with (length values); [reflexivity | rewrite length_map; lia|].
    intros i x y Hi Hx Hy. rewrite list_lookup_fmap in Hx.
    destruct (axes (hkl_geometry_update (set_axes self l)) !! i) as [b|] eqn:Hb;
      [|discriminate].
    destruct (Hall i b Hb) as (a & v & _ & Hv & E & _). cbn in Hx. congruence.
  - apply list_eq_same_length with (length (axes self)); [rewrite length_map; lia
      | rewrite length_map; lia|].
    intros i x y Hi Hx Hy. rewrite list_lookup_fmap in Hx, Hy.
    destruct (axes (hkl_geometry_update (set_axes self l)) !! i) as [b|] eqn:Hb;
      [|discriminate].
    destruct (Hall i b Hb) as (a & v & Ha & _ & _ & E & _).
    rewrite Ha in Hy. cbn in Hx, Hy. congruence.
  - apply list_eq_same_length with (length (axes self)); [rewrite length_map; lia
      | rewrite length_map; lia|].
    intros i x y Hi Hx Hy. rewrite list_lookup_fmap in Hx, Hy.
    destruct (axes (hkl_geometry_update (set_axes self l)) !! i) as [b|] eqn:Hb;
      [|discriminate].
    destruct (Hall i b Hb) as (a & v & Ha & _ & _ & _ & E).
    rewrite Ha in Hy. cbn in Hx, Hy. congruence.
  - apply geometry_update_cleared.
  - intros Hne. apply geometry_update_holders. cbn [axes set_axes].
    apply (set_values_loop_changed (axes self) values l); auto.
Qed.
(** *** Any double for a value *)



(** On numbers the loop is the loop above. *)
Lemma any_set_values_loop_numbers l : forall values,
  AnyDouble.set_values_loop l (map Number values) = set_values_loop l values.
Proof.
  induction l as [|a l IH]; intros [|v values]; try reflexivity. cbn.
  destruct (hkl_parameter_value_set a v); [|reflexivity]. rewrite IH. reflexivity.
Qed.

Lemma any_axis_values_set_numbers self values :
  AnyDouble.hkl_geometry_axis_values_set self (map Number values)
  = hkl_geometry_axis_values_set self values.
Proof.
  unfold AnyDouble.hkl_geometry_axis_values_set, hkl_geometry_axis_values_set.
  rewrite length_map, any_set_values_loop_numbers. reflexivity.
Qed.



End AxisValues.

(** An instance of X1: "chi" added to a geometry that holds "omega" is found
    at index 1 by each of the three lookups. *)
Lemma add_axis_then_lookup_witness :
  let omega := mkParameter "omega" (mkInterval (- M_PI) M_PI) 0 true true
                 (Rotation (mkVector 0 (-1) 0) q0) in
  let chi := mkParameter "chi" (mkInterval (- M_PI) M_PI) 0 true true
               (Rotation (mkVector 1 0 0) q0) in
  exists p,
    axes (set_axes hkl_geometry_new [omega; chi]) !! 1%nat = Some p /\
    name p = "chi"%string /\ same_transformation p chi /\
    hkl_geometry_get_axis_idx_by_name (set_axes hkl_geometry_new [omega; chi]) "chi" = 1%Z /\
    hkl_geometry_get_axis_by_name (set_axes hkl_geometry_new [omega; chi]) "chi" = Some p /\
    hkl_geometry_axis_get (set_axes hkl_geometry_new [omega; chi]) "chi" = inr p.
Proof.
  intros omega chi.
  exact (add_axis_then_lookup (set_axes hkl_geometry_new [omega])
           (set_axes hkl_geometry_new [omega; chi]) chi 1 eq_refl).
Defined.

(** An instance of X2: a sample holder with "omega" and "chi", then a
    detector holder with "omega" again and the translation "tx". *)
Lemma construction_well_formed_witness :
  let rotation n v := mkParameter n (mkInterval (- M_PI) M_PI) 0 true true (Rotation v q0) in
  let steps := [AddHolder;
                AddAxis 0 (rotation "omega" (mkVector 0 (-1) 0));
                AddAxis 0 (rotation "chi" (mkVector 1 0 0));
                AddHolder;
                AddAxis 1 (rotation "omega" (mkVector 0 (-1) 0));
                AddAxis 1 (hkl_parameter_new_translation "tx" (mkVector 1 0 0))] in
  exists g, run_construction steps = Return g /\
            map name (axes g) = ["omega"; "chi"; "tx"]%string /\
            map idx (holders g) = [[0; 1]; [0; 2]]%nat /\
            well_formed g.
Proof.
  intros rotation steps. eexists. split; [reflexivity|].
  split; [reflexivity|]. split; [reflexivity|].
  exact (proj1 (construction_well_formed steps _ eq_refl)).
Defined.

(** An instance of X3: "omega" added twice to the same holder. *)
Lemma holder_add_idempotent_witness :
  let omega := mkParameter "omega" (mkInterval (- M_PI) M_PI) 0 true true
                 (Rotation (mkVector 0 (-1) 0) q0) in
  let self := fst (hkl_geometry_add_holder hkl_geometry_new) in
  let g := mkGeometry (source self) [omega] [mkHolder [0%nat] q0] in
  holder_add self 0 omega = Return g /\ holder_add g 0 omega = Return g.
Proof.
  intros omega self g. split; [reflexivity|].
  exact (holder_add_idempotent self g 0 omega eq_refl).
Defined.

(** An instance of X6 on the MED 2+3 geometry. *)
Lemma axis_values_set_then_get_witness :
  let values := [1 # 10; 2 # 10; 3 # 10; 4 # 10; 5 # 10; 6 # 10] in
  exists g,
    @hkl_geometry_axis_values_set example_kernel sixs_med_2_3_geometry values
    = Some (g, true) /\
    hkl_geometry_axis_values_get g 6 = Some values.
Proof.
  intros values. eexists. split; [vm_compute; reflexivity|].
  exact (proj1 (@axis_values_set_then_get example_kernel sixs_med_2_3_geometry _ values
                  eq_refl)).
Defined.



(** ** [hkl_geometry_distance] *)

Lemma distance_fold_acc (l : list (HklParameter * HklParameter)) : forall acc,
  fold_left (fun distance '(axis1, axis2) => distance + Qabs (_value axis2 - _value axis1))
    l acc
  == acc +
     fold_left (fun distance '(axis1, axis2) => distance + Qabs (_value axis2 - _value axis1))
       l 0.
Proof.
  induction l as [|[a b] l IH]; intros acc; cbn [fold_left].
  - ring.
  - rewrite (IH (acc + _)), (IH (0 + _)). ring.
Qed.

Lemma axes_distance_cons a b l k :
  axes_distance (a :: l) (b :: k) == Qabs (_value b - _value a) + axes_distance l k.
Proof.
  unfold axes_distance, hkl_geometry_distance. cbn [axes set_axes].
  change (zip (a :: l) (b :: k)) with ((a, b) :: zip l k). cbn [fold_left].
  rewrite distance_fold_acc. ring.
Qed.

Lemma axes_distance_nil k : axes_distance [] k = 0.
Proof. reflexivity. Qed.

Lemma distance_axes g h :
  hkl_geometry_distance g h = axes_distance (axes g) (axes h).
Proof. reflexivity. Qed.

Lemma axes_distance_metric l1 : forall l2 l3,
  length l2 = length l1 -> length l3 = length l1 ->
  0 <= axes_distance l1 l2 /\ axes_distance l1 l1 == 0 /\
  axes_distance l1 l2 == axes_distance l2 l1 /\
  axes_distance l1 l3 <= axes_distance l1 l2 + axes_distance l2 l3 /\
  (axes_distance l1 l2 == 0 -> Forall2 (fun a b => _value a == _value b) l1 l2).
Proof.
  induction l1 as [|a l1 IH]; intros [|b l2] [|c l3] H2 H3; try discriminate.
  - rewrite !axes_distance_nil. repeat split; try lra. constructor.
  - injection H2 as H2. injection H3 as H3.
    destruct (IH l2 l3 H2 H3) as (HN & HZ & HS & HT & HE).
    rewrite !axes_distance_cons.
    pose proof (Qabs_nonneg (_value b - _value a)) as Nab.
    pose proof (Qabs_nonneg (_value c - _value b)) as Nbc.
    assert (Zaa : Qabs (_value a - _value a) == 0).
    { rewrite Qabs_pos; [ring | ring_simplify; apply Qle_refl]. }
    assert (Sab : Qabs (_value b - _value a) == Qabs (_value a - _value b))
      by (rewrite Qabs_Qminus; reflexivity).
    assert (Tac : Qabs (_value c - _value a)
                  <= Qabs (_value b - _value a) + Qabs (_value c - _value b)).
    { assert (Ec : _value c - _value a == (_value b - _value a) + (_value c - _value b))
        by ring.
      rewrite Ec. apply Qabs_triangle. }
    split; [lra|]. split; [lra|]. split; [lra|]. split; [lra|].
    intros H0. constructor.
    + assert (Hab : Qabs (_value b - _value a) <= 0) by lra.
      apply Qabs_Qle_condition in Hab. lra.
    + apply HE. lra.
Qed.

Lemma axes_distance_same_values l l' :
  Forall2 (fun a b => _value a == _value b) l l' -> axes_distance l l' == 0.
Proof.
  induction 1 as [|a b l l' Hab _ IH]; [reflexivity|].
  rewrite axes_distance_cons, IH, Hab.
  rewrite Qabs_pos; [ring | ring_simplify; apply Qle_refl].
Qed.

(** X9: [hkl_geometry_distance] tells the positions of one diffractometer
    apart.  Between two geometries with as many axes it is not negative and
    symmetric, it is 0 from a geometry to itself, and it is 0 exactly
    between geometries whose axes have the same values. *)
Theorem geometry_distance_separates (g h : HklGeometry) :
  length (axes h) = length (axes g) ->
  0 <= hkl_geometry_distance g h /\
  hkl_geometry_distance g g == 0 /\
  hkl_geometry_distance g h == hkl_geometry_distance h g /\
  (hkl_geometry_distance g h == 0 <-> same_values g h).
Proof.
  intros Hh. rewrite !distance_axes.
  destruct (axes_distance_metric (axes g) (axes h) (axes h) Hh Hh)
    as (HN & HZ & HS & _ & HE).
  split; [exact HN|]. split; [exact HZ|]. split; [exact HS|].
  split; [exact HE | apply axes_distance_same_values].
Qed.

(** An instance of X9: two positions of one axis, a radian apart. *)
Lemma geometry_distance_separates_witness :
  let g := one_axis_geometry (- M_PI) M_PI 0 in
  let h := one_axis_geometry (- M_PI) M_PI 1 in
  hkl_geometry_distance g h == hkl_geometry_distance h g /\
  ~ same_values g h.
Proof.
  intros g h.
  destruct (geometry_distance_separates g h eq_refl) as (_ & _ & HS & HE).
  split; [exact HS|]. intros Hsame. apply HE in Hsame. discriminate.
Defined.

(** ** The list of geometries: adding and removing *)

Lemma orthodromic_distance_self a :
  hkl_parameter_orthodromic_distance_get a (_value a) == 0.
Proof.
  unfold hkl_parameter_orthodromic_distance_get.
  assert (E : forall x, Qabs (x - x) == 0).
  { intros x. rewrite Qabs_pos; [ring | ring_simplify; apply Qle_refl]. }
  destruct (is_rotation a); [|apply E].
  destruct (Qltb M_PI _) eqn:Hlt; [|apply E].
  apply Qltb_lt in Hlt. rewrite E in Hlt. pose proof M_PI_pos. lra.
Qed.

Lemma distance_orthodromic_fold_acc (l : list (HklParameter * HklParameter)) : forall acc,
  fold_left (fun distance '(axis1, axis2) =>
               distance + hkl_parameter_orthodromic_distance_get axis1 (_value axis2))
    l acc
  == acc +
     fold_left (fun distance '(axis1, axis2) =>
                  distance + hkl_parameter_orthodromic_distance_get axis1 (_value axis2))
       l 0.
Proof.
  induction l as [|[a b] l IH]; intros acc; cbn [fold_left].
  - ring.
  - rewrite (IH (acc + _)), (IH (0 + _)). ring.
Qed.

Lemma distance_orthodromic_self g : hkl_geometry_distance_orthodromic g g == 0.
Proof.
  unfold hkl_geometry_distance_orthodromic.
  induction (axes g) as [|a l IH]; [reflexivity|].
  change (zip (a :: l) (a :: l)) with ((a, a) :: zip l l). cbn [fold_left].
  rewrite distance_orthodromic_fold_acc, IH, orthodromic_distance_self. ring.
Qed.

(** X10: [hkl_geometry_list_add] only ever appends, and adding the same
    geometry again changes nothing: after the call the list is what it was,
    or what it was followed by a copy of the geometry; in both cases a second
    call with the same geometry leaves the list as it is. *)
Theorem list_add_idempotent (self : HklGeometryList) (geometry : HklGeometry) :
  let added := hkl_geometry_list_add self geometry in
  (items added = items self \/ items added = items self ++ [geometry]) /\
  hkl_geometry_list_add added geometry = added.
Proof.
  assert (Hself : Qltb (hkl_geometry_distance_orthodromic geometry geometry) HKL_EPSILON
                  = true).
  { apply Qltb_lt. rewrite distance_orthodromic_self. apply HKL_EPSILON_pos. }
  cbn zeta. unfold hkl_geometry_list_add, hkl_geometry_new_copy.
  destruct (existsb _ (items self)) eqn:E; cbn [items].
  - split; [left; reflexivity|]. rewrite E. reflexivity.
  - split; [right; reflexivity|].
    rewrite existsb_app. cbn [existsb]. rewrite Hself. cbn [orb].
    rewrite orb_true_r. reflexivity.
Qed.

(** X11: [hkl_geometry_list_remove_invalid] keeps exactly the items within
    their ranges, in their order, and is idempotent: every item left is
    valid, every valid item is left, the items left appear in the order
    they had, and a second call removes nothing. *)
Theorem remove_invalid_keeps_valid (self : HklGeometryList) :
  let cleaned := hkl_geometry_list_remove_invalid self in
  Forall (fun g => hkl_geometry_is_valid_range g = true) (items cleaned) /\
  (forall g, g ∈ items self -> hkl_geometry_is_valid_range g = true ->
     g ∈ items cleaned) /\
  sublist (items cleaned) (items self) /\
  hkl_geometry_list_remove_invalid cleaned = cleaned.
Proof.
  cbn zeta. unfold hkl_geometry_list_remove_invalid. cbn [items].
  split; [|split; [|split]].
  - apply Forall_forall. intros g Hg. apply list_elem_of_filter in Hg. tauto.
  - intros g Hg Hv. apply list_elem_of_filter. tauto.
  - apply sublist_filter.
  - f_equal. induction (items self) as [|g l IH]; [reflexivity|].
    rewrite filter_cons. destruct (decide (hkl_geometry_is_valid_range g = true)) as [Hg|Hg].
    + rewrite filter_cons, decide_True by exact Hg. f_equal. exact IH.
    + exact IH.
Qed.

(** ** The multiplicity expansion ([perm_r],
    [hkl_geometry_list_multiply_from_range]) *)

Lemma turn_of_permutable a b :
  turn_of a b -> hkl_parameter_is_permutable b = hkl_parameter_is_permutable a.
Proof.
  intros (_ & Hr & Hk & _). unfold hkl_parameter_is_permutable. rewrite Hr, Hk.
  reflexivity.
Qed.

Lemma turned_write item g i a v :
  turned item g -> axes item !! i = Some a ->
  hkl_parameter_is_permutable a = true ->
  (exists k : Z, v == _value a + inject_Z k * (2 * M_PI)) ->
  min (range a) <= v <= max (range a) + HKL_EPSILON ->
  turned item (write_axis g i v).
Proof.
  intros Ht Ha Hp Hk Hb. unfold turned, write_axis. cbn [axes set_axes].
  apply Forall2_alter_r; [exact Ht|].
  intros x y Hx Hy (Hn & Hr & Hrot & _). rewrite Ha in Hx. injection Hx as <-.
  unfold turn_of. rewrite Hp. cbn [name range _value write_value].
  repeat split; try assumption; apply Hb.
Qed.

Lemma perm_r_loop_appends item rec axis_idx a :
  appends_turns item rec ->
  axes item !! axis_idx = Some a ->
  hkl_parameter_is_permutable a = true ->
  forall fuel self g value,
    turned item g ->
    (exists k : Z, value == _value a + inject_Z k * (2 * M_PI)) ->
    min (range a) <= value ->
    exists added,
      fst (perm_r_loop rec axis_idx (max (range a)) fuel self g value) = self ++ added /\
      Forall (fun g' => turned item g' /\ HKL_EPSILON < hkl_geometry_distance g' item)
        added /\
      turned item (snd (perm_r_loop rec axis_idx (max (range a)) fuel self g value)).
Proof.
  intros Hrec Ha Hp. induction fuel as [|fuel IH]; intros self g value Ht Hk Hmin;
    cbn [perm_r_loop].
  - exists []. rewrite app_nil_r. repeat split; [constructor | exact Ht].
  - destruct (Hrec self g Ht) as (added1 & E1 & Q1 & T1).
    destruct (rec self g) as [self1 g1]. cbn [fst snd] in E1, T1. subst self1.
    destruct (Qleb (value + 2 * M_PI) (max (range a) + HKL_EPSILON)) eqn:Hle.
    + apply Qleb_le in Hle. pose proof M_PI_pos as Hpi.
      destruct Hk as [k Hk].
      destruct (IH (self ++ added1) (write_axis g1 axis_idx (value + 2 * M_PI))
                  (value + 2 * M_PI)) as (added2 & E2 & Q2 & T2).
      * apply (turned_write item g1 axis_idx a); auto.
        -- exists (k + 1)%Z. rewrite inject_Z_plus, Hk.
           change (inject_Z 1) with 1. ring.
        -- split; lra.
      * exists (k + 1)%Z. rewrite inject_Z_plus, Hk. change (inject_Z 1) with 1. ring.
      * lra.
      * exists (added1 ++ added2). rewrite E2, app_assoc.
        repeat split; [apply Forall_app; split; assumption | exact T2].
    + exists added1. repeat split; assumption.
Qed.

Lemma perm_r_appends item : forall depth axis_idx,
  appends_turns item (fun self g => perm_r depth self item g axis_idx).
Proof.
  induction depth as [|depth IH]; intros axis_idx self g Ht.
  - cbn [perm_r].
    destruct (axis_idx =? length (axes g))%nat.
    + cbn [fst snd].
      destruct (Qltb HKL_EPSILON (hkl_geometry_distance g item)) eqn:Hd.
      * exists [hkl_geometry_new_copy g]. repeat split; auto.
        repeat constructor; [exact Ht | apply Qltb_lt, Hd].
      * exists []. rewrite app_nil_r. repeat split; auto.
    + exists []. rewrite app_nil_r. repeat split; auto.
  - cbn [perm_r].
    destruct (axis_idx =? length (axes g))%nat.
    + cbn [fst snd].
      destruct (Qltb HKL_EPSILON (hkl_geometry_distance g item)) eqn:Hd.
      * exists [hkl_geometry_new_copy g]. repeat split; auto.
        repeat constructor; [exact Ht | apply Qltb_lt, Hd].
      * exists []. rewrite app_nil_r. repeat split; auto.
    + destruct (axes g !! axis_idx) as [axis|] eqn:Haxis.
      * destruct (Forall2_lookup_r _ _ _ _ _ Ht Haxis) as (a & Ha & Hturn).
        rewrite (turn_of_permutable a axis Hturn).
        destruct (hkl_parameter_is_permutable a) eqn:Hp; [|apply (IH (S axis_idx)), Ht].
        pose proof Hturn as (_ & Hr & _ & Hv). rewrite Hp in Hv.
        destruct Hv as [Hk Hb]. rewrite Hr.
        destruct (perm_r_loop_appends item
                    (fun s g0 => perm_r depth s item g0 (S axis_idx)) axis_idx a
                    (IH (S axis_idx)) Ha Hp
                    (perm_r_turns (max (range a)) (_value axis)) self g (_value axis)
                    Ht Hk (proj1 Hb)) as (added & E & HQ & T).
        destruct (perm_r_loop _ _ _ _ _ _ _) as [self1 g1]. cbn [fst snd] in *.
        exists added. repeat split; auto.
        apply (turned_write item g1 axis_idx a); auto.
      * exists []. rewrite app_nil_r. repeat split; auto.
Qed.

Lemma smallest_in_range_turn a :
  (exists k : Z, smallest_in_range a == _value a + inject_Z k * (2 * M_PI)) /\
  min (range a) <= smallest_in_range a < min (range a) + 2 * M_PI.
Proof.
  unfold smallest_in_range. pose proof M_PI_pos as Hpi.
  set (x := (_value a - min (range a)) / (2 * M_PI)).
  assert (E : x * (2 * M_PI) == _value a - min (range a)) by (unfold x; field; lra).
  pose proof (Qfloor_le x) as Hlo. pose proof (Qlt_floor x) as Hhi.
  rewrite inject_Z_plus in Hhi. change (inject_Z 1) with 1 in Hhi.
  split.
  - exists (- Qfloor x)%Z. rewrite inject_Z_opp. ring.
  - set (f := inject_Z (Qfloor x)) in *. split; nra.
Qed.

Section Multiply.
Context `{AxisKernel}.

(** The first solution that [hkl_geometry_list_multiply_from_range] starts
    from is a turn of the item. *)
Lemma first_solution_turned item :
  turned item
    (set_axes item
       (map (fun axis => if hkl_parameter_is_permutable axis
                         then hkl_parameter_value_set_smallest_in_range axis
                         else axis) (axes item))).
Proof.
  unfold turned. cbn [axes set_axes].
  apply Forall2_fmap_r, Forall2_same_length_lookup_2; [reflexivity|].
  intros i a b Ha Hb. rewrite Ha in Hb. injection Hb as <-.
  unfold turn_of, compose. cbn beta. destruct (hkl_parameter_is_permutable a) eqn:Hp;
    [|repeat split; reflexivity].
  assert (Hrot : is_rotation a = true).
  { unfold hkl_parameter_is_permutable in Hp. apply andb_true_iff in Hp. tauto. }
  unfold hkl_parameter_value_set_smallest_in_range. rewrite Hrot.
  destruct (value_set_ignore_same a (smallest_in_range a)) as (Hn & Hr & _ & Hk).
  destruct (value_set_ignore_rotation a (smallest_in_range a) Hrot) as [Hv _].
  destruct (smallest_in_range_turn a) as [Hturn [Hlo Hhi]].
  unfold hkl_parameter_is_permutable in Hp. apply andb_true_iff in Hp.
  destruct Hp as [_ Hp]. apply Qltb_lt in Hp. pose proof HKL_EPSILON_pos.
  rewrite Hv. repeat split; try assumption.
  - congruence.
  - lra.
Qed.

Lemma multiply_from_range_item_appends self i item :
  self !! i = Some item ->
  exists added,
    multiply_from_range_item self i = self ++ added /\
    Forall (fun g' => turned item g' /\ HKL_EPSILON < hkl_geometry_distance g' item) added.
Proof.
  intros Hi. unfold multiply_from_range_item. rewrite Hi.
  destruct (perm_r_appends item
              (length (axes (set_axes item
                 (map (fun axis => if hkl_parameter_is_permutable axis
                                   then hkl_parameter_value_set_smallest_in_range axis
                                   else axis) (axes item)))))
              0%nat self _ (first_solution_turned item)) as (added & E & HQ & _).
  exists added. split; assumption.
Qed.

Lemma multiply_from_range_appends (l : list HklGeometry) : forall n, (n <= length l)%nat ->
  exists added,
    fold_left multiply_from_range_item (seq 0 n) l = l ++ added /\
    Forall (fun g' => exists i item, l !! i = Some item /\ turned item g' /\
                        HKL_EPSILON < hkl_geometry_distance g' item) added.
Proof.
  induction n as [|n IH]; intros Hn.
  - exists []. rewrite app_nil_r. split; [reflexivity | constructor].
  - destruct IH as (added1 & E1 & Q1); [lia|].
    rewrite seq_S, fold_left_app, E1. cbn [fold_left Nat.add].
    destruct (lookup_lt_is_Some_2 l n ltac:(lia)) as [item Hitem].
    destruct (multiply_from_range_item_appends (l ++ added1) n item) as (added2 & E2 & Q2).
    { rewrite lookup_app_l by lia. exact Hitem. }
    exists (added1 ++ added2). rewrite E2, app_assoc. split; [reflexivity|].
    apply Forall_app. split; [exact Q1|].
    eapply Forall_impl; [exact Q2|]. cbn. intros g' [Ht Hd]. exists n, item. auto.
Qed.

(** X12: the multiplicity expansion only appends, and what it appends are
    turns of the items.  After [hkl_geometry_list_multiply_from_range] the
    list is the list from before followed by new geometries; each new one
    comes from an item of the list: it has the axes of that item, the
    permutable ones moved by whole turns of 2 pi to a value between the
    minimum of the axis and its maximum plus [HKL_EPSILON], the others
    untouched, and is farther than [HKL_EPSILON] from the item in
    [hkl_geometry_distance]. *)
Theorem multiply_from_range_appends_turns (self : HklGeometryList) :
  exists added,
    items (hkl_geometry_list_multiply_from_range self) = items self ++ added /\
    Forall (fun g' => exists i item, items self !! i = Some item /\ turned item g' /\
                        HKL_EPSILON < hkl_geometry_distance g' item) added.
Proof.
  unfold hkl_geometry_list_multiply_from_range. cbn [items].
  apply multiply_from_range_appends. lia.
Qed.

(** X13: without a permutable axis there is nothing to multiply.  When no
    axis of any item is a rotation whose range spans more than 2 pi,
    [hkl_geometry_list_multiply_from_range] leaves the list as it is. *)
Theorem multiply_from_range_nothing_permutable (self : HklGeometryList) :
  Forall (fun item =>
            Forall (fun a => hkl_parameter_is_permutable a = false) (axes item))
    (items self) ->
  hkl_geometry_list_multiply_from_range self = self.
Proof.
  intros Hnone.
  destruct (multiply_from_range_appends (items self) (length (items self)) (le_n _))
    as (added & E & HQ).
  unfold hkl_geometry_list_multiply_from_range. rewrite E.
  destruct added as [|g' added]; [rewrite app_nil_r; destruct self; reflexivity|].
  exfalso. inversion HQ as [|? ? (i & item & Hi & Ht & Hd) _]; subst.
  assert (Haxes : axes g' = axes item).
  { pose proof (proj1 (Forall_lookup _ _) Hnone i item Hi) as Hitem.
    symmetry. apply list_eq_Forall2. eapply Forall2_impl; [|intros a b Hab; exact Hab].
    apply Forall2_same_length_lookup_2; [apply (Forall2_length _ _ _ Ht)|].
    intros j a b Ha Hb.
    pose proof (Forall2_lookup_lr _ _ _ _ _ _ Ht Ha Hb) as (_ & _ & _ & Hv).
    rewrite (proj1 (Forall_lookup _ _) Hitem j a Ha) in Hv. congruence. }
  rewrite distance_axes, Haxes in Hd.
  destruct (axes_distance_metric (axes item) (axes item) (axes item) eq_refl eq_refl)
    as (_ & Hz & _).
  rewrite Hz in Hd. pose proof HKL_EPSILON_pos. lra.
Qed.
End Multiply.

(** *** The expansion misses no turn *)

Lemma write_axis_lookup g i v j :
  axes (write_axis g i v) !! j
  = if decide (j = i) then (fun a => write_value a v) <$> axes g !! j else axes g !! j.
Proof.
  unfold write_axis. cbn [axes set_axes].
  destruct (decide (j = i)) as [->|Hne].
  - apply list_lookup_alter_eq.
  - apply list_lookup_alter_ne. auto.
Qed.

Lemma write_axis_twice g i v w : write_axis (write_axis g i v) i w = write_axis g i w.
Proof.
  unfold write_axis. cbn [axes set_axes source holders]. unfold set_axes. cbn.
  f_equal. apply list_eq; intros j; destruct (decide (j = i)) as [->|Hne]; [rewrite !list_lookup_alter_eq; destruct (axes g !! i); reflexivity | rewrite !list_lookup_alter_ne by auto; reflexivity].
Qed.

Lemma write_axis_same g i a : axes g !! i = Some a -> write_axis g i (_value a) = g.
Proof.
  intros Ha. unfold write_axis, set_axes. destruct g as [s l hs]. cbn in *. f_equal.
  apply list_eq. intros j. destruct (decide (j = i)) as [->|Hne].
  - rewrite list_lookup_alter_eq, Ha. cbn. destruct a; reflexivity.
  - apply list_lookup_alter_ne. auto.
Qed.

(** [perm_r] hands back the working geometry as it got it. *)
Lemma perm_r_loop_restores rec axis_idx max :
  (forall s g, snd (rec s g) = g) ->
  forall fuel self g value,
    snd (perm_r_loop rec axis_idx max fuel self g value) = g \/
    exists v, snd (perm_r_loop rec axis_idx max fuel self g value) = write_axis g axis_idx v.
Proof.
  intros Hrec. induction fuel as [|fuel IH]; intros self g value; cbn [perm_r_loop].
  - left. reflexivity.
  - pose proof (Hrec self g) as Hg. destruct (rec self g) as [self1 g1].
    cbn [snd] in Hg. subst g1.
    destruct (Qleb _ _); [|left; reflexivity]. right.
    destruct (IH self1 (write_axis g axis_idx (value + 2 * M_PI)) (value + 2 * M_PI))
      as [E|[v E]]; rewrite E.
    + eexists. reflexivity.
    + exists v. apply write_axis_twice.
Qed.

Lemma perm_r_restores ref : forall depth axis_idx self g,
  snd (perm_r depth self ref g axis_idx) = g.
Proof.
  induction depth as [|depth IH]; intros axis_idx self g; cbn [perm_r];
    destruct (axis_idx =? length (axes g))%nat; try reflexivity.
  destruct (axes g !! axis_idx) as [axis|] eqn:Haxis; [|reflexivity].
  destruct (hkl_parameter_is_permutable axis); [|apply IH].
  destruct (perm_r_loop_restores
              (fun s g0 => perm_r depth s ref g0 (S axis_idx)) axis_idx
              (max (range axis)) (fun s g0 => IH (S axis_idx) s g0)
              (perm_r_turns (max (range axis)) (_value axis)) self g (_value axis))
    as [E|[v E]];
    destruct (perm_r_loop _ _ _ _ _ _ _) as [self1 g1]; cbn [snd] in *; subst g1.
  - apply write_axis_same, Haxis.
  - rewrite write_axis_twice. apply write_axis_same, Haxis.
Qed.

Lemma axes_distance_values l : forall l' k,
  Forall2 (fun b b' => _value b == _value b') l l' ->
  length k = length l ->
  axes_distance l k == axes_distance l' k.
Proof.
  induction l as [|b l IH]; intros l' k Hv Hk; inversion Hv as [|? b' ? l'' Hb Hl]; subst.
  - reflexivity.
  - destruct k as [|c k]; [discriminate|]. injection Hk as Hk.
    rewrite !axes_distance_cons, (IH l'' k Hl Hk), Hb. reflexivity.
Qed.

Section Complete.
Variables item target : HklGeometry.
Hypothesis Htarget : turned item target.
Hypothesis Hfar : HKL_EPSILON < hkl_geometry_distance target item.

(** The working geometry has the values of the target on the axes already
    visited. *)
Definition agrees (axis_idx : nat) (g : HklGeometry) : Prop :=
  forall j b b', (j < axis_idx)%nat -> axes g !! j = Some b ->
    axes target !! j = Some b' -> _value b == _value b'.

(** The permutable axes still to visit are at their smallest value in
    range. *)
Definition smallest_from (axis_idx : nat) (g : HklGeometry) : Prop :=
  forall j a b, (axis_idx <= j)%nat -> axes item !! j = Some a ->
    axes g !! j = Some b -> hkl_parameter_is_permutable a = true ->
    _value b < min (range a) + 2 * M_PI.

Definition finds (axis_idx : nat)
    (rec : list HklGeometry -> HklGeometry -> list HklGeometry * HklGeometry) : Prop :=
  forall self g, turned item g -> agrees axis_idx g -> smallest_from axis_idx g ->
    exists g'', g'' ∈ fst (rec self g) /\ same_values g'' target.

Lemma agrees_write axis_idx g v b' :
  agrees axis_idx g -> axes target !! axis_idx = Some b' -> v == _value b' ->
  agrees (S axis_idx) (write_axis g axis_idx v).
Proof.
  intros Hag Hb' Hv j b b0 Hj Hb Hb0. rewrite write_axis_lookup in Hb.
  destruct (decide (j = axis_idx)) as [->|Hne].
  - rewrite Hb' in Hb0. injection Hb0 as <-.
    destruct (axes g !! axis_idx); [|discriminate]. cbn in Hb. injection Hb as <-.
    exact Hv.
  - apply (Hag j b b0); [lia | exact Hb | exact Hb0].
Qed.

Lemma smallest_from_write axis_idx g v :
  smallest_from axis_idx g -> smallest_from (S axis_idx) (write_axis g axis_idx v).
Proof.
  intros Hs j a b Hj Ha Hb Hp. rewrite write_axis_lookup in Hb.
  rewrite decide_False in Hb by lia. apply (Hs j a b); auto. lia.
Qed.

(** The loop on one axis comes by the value of the target. *)
Lemma perm_r_loop_finds rec axis_idx a b' :
  appends_turns item rec ->
  (forall s g, snd (rec s g) = g) ->
  finds (S axis_idx) rec ->
  axes item !! axis_idx = Some a ->
  hkl_parameter_is_permutable a = true ->
  axes target !! axis_idx = Some b' ->
  forall n fuel self g value,
    (n < fuel)%nat ->
    _value b' == value + inject_Z (Z.of_nat n) * (2 * M_PI) ->
    (exists k : Z, value == _value a + inject_Z k * (2 * M_PI)) ->
    min (range a) <= value ->
    turned item g -> agrees axis_idx g -> smallest_from (S axis_idx) g ->
    (exists b, axes g !! axis_idx = Some b /\ _value b = value) ->
    exists g'',
      g'' ∈ fst (perm_r_loop rec axis_idx (max (range a)) fuel self g value) /\
      same_values g'' target.
Proof.
  intros Happ Hres Hfind Ha Hp Hb'.
  pose proof M_PI_pos as Hpi.
  pose proof (Forall2_lookup_lr _ _ _ _ _ _ Htarget Ha Hb') as (_ & _ & _ & Ht).
  rewrite Hp in Ht. destruct Ht as [_ [_ Htmax]].
  induction n as [|n IH]; intros fuel self g value Hfuel Hn Hk Hmin Hg Hag Hsm Hval;
    (destruct fuel as [|fuel]; [lia|]); cbn [perm_r_loop].
  - (* this turn is the one of the target *)
    assert (Hgw : write_axis g axis_idx value = g).
    { destruct Hval as (b & Hb & <-). apply write_axis_same, Hb. }
    destruct (Hfind self g Hg) as (g'' & Hin & Hsame).
    { rewrite <- Hgw. apply (agrees_write axis_idx g value b' Hag Hb').
      change (inject_Z (Z.of_nat 0)) with 0 in Hn. rewrite Hn. ring. }
    { exact Hsm. }
    destruct (Happ self g Hg) as (added1 & E1 & Q1 & T1).
    pose proof (Hres self g) as Hg1.
    destruct (rec self g) as [self1 g1]. cbn [fst snd] in *. subst g1 self1.
    destruct (Qleb (value + 2 * M_PI) (max (range a) + HKL_EPSILON)) eqn:Hle;
      [|exists g''; split; assumption].
    apply Qleb_le in Hle. destruct Hk as [k Hk].
    destruct (perm_r_loop_appends item rec axis_idx a Happ Ha Hp fuel (self ++ added1)
                (write_axis g axis_idx (value + 2 * M_PI)) (value + 2 * M_PI))
      as (added2 & E2 & _).
    + apply (turned_write item g axis_idx a); auto.
      * exists (k + 1)%Z. rewrite inject_Z_plus, Hk. change (inject_Z 1) with 1. ring.
      * split; lra.
    + exists (k + 1)%Z. rewrite inject_Z_plus, Hk. change (inject_Z 1) with 1. ring.
    + lra.
    + exists g''. split; [|exact Hsame]. rewrite E2. apply elem_of_app. left. exact Hin.
  - (* the target is further on *)
    destruct (Happ self g Hg) as (added1 & E1 & Q1 & T1).
    pose proof (Hres self g) as Hg1.
    destruct (rec self g) as [self1 g1]. cbn [fst snd] in *. subst g1 self1.
    rewrite Nat2Z.inj_succ in Hn. unfold Z.succ in Hn. rewrite inject_Z_plus in Hn.
    change (inject_Z 1) with 1 in Hn.
    assert (Hnn : 0 <= inject_Z (Z.of_nat n)).
    { change 0 with (inject_Z 0). rewrite <- Zle_Qle. lia. }
    assert (Hle : Qleb (value + 2 * M_PI) (max (range a) + HKL_EPSILON) = true).
    { apply Qleb_le. nra. }
    rewrite Hle. destruct Hk as [k Hk].
    apply (IH fuel (self ++ added1) (write_axis g axis_idx (value + 2 * M_PI))
             (value + 2 * M_PI)).
    + lia.
    + rewrite Hn. ring.
    + exists (k + 1)%Z. rewrite inject_Z_plus, Hk. change (inject_Z 1) with 1. ring.
    + lra.
    + apply (turned_write item g axis_idx a); auto.
      * exists (k + 1)%Z. rewrite inject_Z_plus, Hk. change (inject_Z 1) with 1. ring.
      * split; [lra | nra].
    + intros j b b0 Hj Hb Hb0. rewrite write_axis_lookup in Hb.
      rewrite decide_False in Hb by lia. apply (Hag j b b0); auto.
    + intros j a0 b Hj Ha0 Hb Hp0. rewrite write_axis_lookup in Hb.
      rewrite decide_False in Hb by lia. apply (Hsm j a0 b); auto.
    + destruct Hval as (b1 & Hb1 & _). exists (write_value b1 (value + 2 * M_PI)).
      rewrite write_axis_lookup, decide_True, Hb1 by reflexivity. split; reflexivity.
Qed.

(** At the end of the recursion the working geometry has the values of the
    target and is appended. *)
Lemma perm_r_leaf g :
  turned item g -> agrees (length (axes g)) g ->
  same_values g target /\ Qltb HKL_EPSILON (hkl_geometry_distance g item) = true.
Proof.
  intros Hg Hag.
  assert (Hsame : same_values g target).
  { apply Forall2_same_length_lookup_2.
    - rewrite <- (Forall2_length _ _ _ Hg). apply (Forall2_length _ _ _ Htarget).
    - intros i b b' Hb Hb'. apply (Hag i b b'); auto. apply (lookup_lt_Some _ _ _ Hb). }
  split; [exact Hsame|]. apply Qltb_lt.
  rewrite distance_axes, (axes_distance_values (axes g) (axes target) (axes item) Hsame).
  - exact Hfar.
  - apply (Forall2_length _ _ _ Hg).
Qed.

Lemma perm_r_finds : forall depth axis_idx,
  (length (axes item) <= axis_idx + depth)%nat ->
  (axis_idx <= length (axes item))%nat ->
  finds axis_idx (fun self g => perm_r depth self item g axis_idx).
Proof.
  pose proof M_PI_pos as Hpi.
  induction depth as [|depth IH]; intros axis_idx Hlen Hle self g Hg Hag Hsm;
    pose proof (Forall2_length _ _ _ Hg) as Hlg; cbn [perm_r];
    destruct (axis_idx =? length (axes g))%nat eqn:E.
  - apply Nat.eqb_eq in E. subst axis_idx.
    destruct (perm_r_leaf g Hg Hag) as [Hsame Hd]. rewrite Hd. cbn [fst].
    exists g. split; [|exact Hsame]. apply elem_of_app. right. apply list_elem_of_singleton.
    reflexivity.
  - apply Nat.eqb_neq in E. lia.
  - apply Nat.eqb_eq in E. subst axis_idx.
    destruct (perm_r_leaf g Hg Hag) as [Hsame Hd]. rewrite Hd. cbn [fst].
    exists g. split; [|exact Hsame]. apply elem_of_app. right. apply list_elem_of_singleton.
    reflexivity.
  - apply Nat.eqb_neq in E.
    destruct (lookup_lt_is_Some_2 (axes g) axis_idx ltac:(lia)) as [axis Haxis].
    rewrite Haxis.
    destruct (Forall2_lookup_r _ _ _ _ _ Hg Haxis) as (a & Ha & Hturn).
    destruct (Forall2_lookup_l _ _ _ _ _ Htarget Ha) as (b' & Hb' & Hturn').
    rewrite (turn_of_permutable a axis Hturn).
    destruct (hkl_parameter_is_permutable a) eqn:Hp.
    + pose proof Hturn as (_ & Hr & _ & Hv). rewrite Hp in Hv.
      destruct Hv as [[k0 Hk0] [Hmin0 _]].
      pose proof Hturn' as (_ & _ & _ & Hv'). rewrite Hp in Hv'.
      destruct Hv' as [[k Hk] [Hmin Hmax]].
      pose proof (Hsm axis_idx a axis (le_n _) Ha Haxis Hp) as Hsmall.
      rewrite Hr.
      assert (Hm : (0 <= k - k0)%Z).
      { assert (Hq : inject_Z (-1) < inject_Z (k - k0)).
        { unfold Z.sub. rewrite inject_Z_plus, inject_Z_opp. change (inject_Z (-1)) with (-1).
          set (x := inject_Z k) in *. set (x0 := inject_Z k0) in *. nra. }
        rewrite <- Zlt_Qlt in Hq. lia. }
      assert (Hfl : (k - k0 <= Qfloor ((max (range a) + HKL_EPSILON - _value axis)
                                        / (2 * M_PI)))%Z).
      { rewrite <- (Qfloor_Z (k - k0)) at 1. apply Qfloor_resp_le.
        apply Qle_shift_div_l; [lra|]. unfold Z.sub. rewrite inject_Z_plus, inject_Z_opp.
        set (x := inject_Z k) in *. set (x0 := inject_Z k0) in *. nra. }
      destruct (perm_r_loop_finds
                  (fun s g0 => perm_r depth s item g0 (S axis_idx)) axis_idx a b'
                  (perm_r_appends item depth (S axis_idx))
                  (fun s g0 => perm_r_restores item depth (S axis_idx) s g0)
                  (IH (S axis_idx) ltac:(lia) ltac:(lia)) Ha Hp Hb'
                  (Z.to_nat (k - k0)) (perm_r_turns (max (range a)) (_value axis))
                  self g (_value axis))
        as (g'' & Hin & Hsame); auto.
      * unfold perm_r_turns. lia.
      * rewrite Z2Nat.id by exact Hm. unfold Z.sub. rewrite inject_Z_plus, inject_Z_opp, Hk, Hk0. ring.
      * exists k0. exact Hk0.
      * intros j a0 b Hj. apply Hsm. lia.
      * exists axis. split; [exact Haxis | reflexivity].
      * destruct (perm_r_loop _ _ _ _ _ _ _) as [self1 g1]. cbn [fst] in *.
        exists g''. split; assumption.
    + pose proof Hturn as (_ & _ & _ & Hv). rewrite Hp in Hv. subst axis.
      pose proof Hturn' as (_ & _ & _ & Hv'). rewrite Hp in Hv'. subst b'.
      apply (IH (S axis_idx)); [lia | lia | exact Hg | |].
      * intros j b b0 Hj Hb Hb0. destruct (decide (j = axis_idx)) as [->|Hne].
        -- rewrite Haxis in Hb. rewrite Hb' in Hb0. injection Hb as <-.
           injection Hb0 as <-. reflexivity.
        -- apply (Hag j b b0); auto. lia.
      * intros j a0 b Hj. apply Hsm. lia.
Qed.
End Complete.

Section MultiplyComplete.
Context `{AxisKernel}.

Lemma first_solution_smallest item :
  smallest_from item 0
    (set_axes item
       (map (fun axis => if hkl_parameter_is_permutable axis
                         then hkl_parameter_value_set_smallest_in_range axis
                         else axis) (axes item))).
Proof.
  intros j a b _ Ha Hb Hp. cbn [axes set_axes] in Hb.
  rewrite list_lookup_fmap, Ha in Hb. cbn in Hb. rewrite Hp in Hb. injection Hb as <-.
  assert (Hrot : is_rotation a = true).
  { unfold hkl_parameter_is_permutable in Hp. apply andb_true_iff in Hp. tauto. }
  unfold hkl_parameter_value_set_smallest_in_range. rewrite Hrot.
  destruct (value_set_ignore_rotation a (smallest_in_range a) Hrot) as [Hv _].
  rewrite Hv. apply smallest_in_range_turn.
Qed.

Lemma multiply_from_range_item_finds self i item target :
  self !! i = Some item ->
  turned item target ->
  HKL_EPSILON < hkl_geometry_distance target item ->
  exists g'', g'' ∈ multiply_from_range_item self i /\ same_values g'' target.
Proof.
  intros Hi Ht Hd. unfold multiply_from_range_item. rewrite Hi.
  apply (perm_r_finds item target Ht Hd).
  - cbn [axes set_axes]. rewrite length_map. lia.
  - lia.
  - apply first_solution_turned.
  - intros j b b' Hj. lia.
  - apply first_solution_smallest.
Qed.

Lemma multiply_from_range_finds (l : list HklGeometry) i item target :
  l !! i = Some item ->
  turned item target ->
  HKL_EPSILON < hkl_geometry_distance target item ->
  forall n, (i < n <= length l)%nat ->
  exists g'', g'' ∈ fold_left multiply_from_range_item (seq 0 n) l /\
              same_values g'' target.
Proof.
  intros Hi Ht Hd. induction n as [|n IH]; intros Hn; [lia|].
  rewrite seq_S, fold_left_app. cbn [fold_left Nat.add].
  destruct (multiply_from_range_appends l n ltac:(lia)) as (added1 & E1 & _).
  destruct (lookup_lt_is_Some_2 l n ltac:(lia)) as [item_n Hitem_n].
  destruct (multiply_from_range_item_appends (l ++ added1) n item_n) as (added2 & E2 & _).
  { rewrite lookup_app_l by lia. exact Hitem_n. }
  destruct (decide (i = n)) as [->|Hne].
  - rewrite E1. apply (multiply_from_range_item_finds (l ++ added1) n item target); auto.
    rewrite lookup_app_l by lia. exact Hi.
  - destruct IH as (g'' & Hin & Hsame); [lia|].
    exists g''. split; [|exact Hsame].
    rewrite E1, E2. rewrite E1 in Hin. apply elem_of_app. left. exact Hin.
Qed.

(** X14: the multiplicity expansion misses no turn.  For every item of the
    list, every geometry that is the item with its permutable axes moved by
    whole turns of 2 pi to values between the minimum of the axis and its
    maximum plus [HKL_EPSILON], and that is farther than [HKL_EPSILON] from
    the item, is in the list after
    [hkl_geometry_list_multiply_from_range]: the list holds a geometry
    whose axes have these values. *)
Theorem multiply_from_range_complete (self : HklGeometryList) i item target :
  items self !! i = Some item ->
  turned item target ->
  HKL_EPSILON < hkl_geometry_distance target item ->
  exists g'', g'' ∈ items (hkl_geometry_list_multiply_from_range self) /\
              same_values g'' target.
Proof.
  intros Hi Ht Hd. unfold hkl_geometry_list_multiply_from_range. cbn [items].
  apply (multiply_from_range_finds (items self) i item target Hi Ht Hd).
  pose proof (lookup_lt_Some _ _ _ Hi). lia.
Qed.
End MultiplyComplete.

(** An instance of X13: an axis that moves within one turn. *)
Lemma multiply_from_range_nothing_permutable_witness :
  let self := mkGeometryList [one_axis_geometry (- M_PI) M_PI 1] in
  @hkl_geometry_list_multiply_from_range example_kernel self = self.
Proof.
  intros self.
  apply (@multiply_from_range_nothing_permutable example_kernel self).
  repeat constructor.
Defined.

(** An instance of X14: an axis at 1 that moves between -4 and 9; the turn
    at 1 + 2 pi is in the list after the expansion. *)
Lemma multiply_from_range_complete_witness :
  let item := one_axis_geometry (-4) 9 1 in
  let target := one_axis_geometry (-4) 9 (1 + 2 * M_PI) in
  exists g'',
    g'' ∈ items (@hkl_geometry_list_multiply_from_range example_kernel
                   (mkGeometryList [item])) /\
    same_values g'' target.
Proof.
  intros item target.
  apply (@multiply_from_range_complete example_kernel (mkGeometryList [item]) 0 item target).
  - reflexivity.
  - repeat constructor; cbn.
    + exists 1%Z. reflexivity.
    + discriminate.
    + discriminate.
  - reflexivity.
Defined.

(** ** Sorting a list that is in order *)

Lemma insert_before_last d x l :
  Forall (fun a => sort_before d a x = true) l -> insert_before d x l = l ++ [x].
Proof.
  induction 1 as [|a l Ha _ IH]; cbn; [reflexivity|].
  rewrite Ha, IH. reflexivity.
Qed.

Lemma insert_fold_in_order d : forall m k,
  (forall i j, (i < j < k + m)%nat -> sort_before d i j = true) ->
  fold_left (fun acc x => insert_before d x acc) (seq k m) (seq 0 k) = seq 0 (k + m).
Proof.
  induction m as [|m IH]; intros k Hd; cbn [seq fold_left].
  - rewrite Nat.add_0_r. reflexivity.
  - rewrite insert_before_last.
    + replace (seq 0 k ++ [k]) with (seq 0 (S k)) by apply seq_S.
      rewrite (IH (S k)); [f_equal; lia|].
      intros i j Hij. apply Hd. lia.
    + apply Forall_forall. intros a Ha. apply elem_of_seq in Ha. apply Hd. lia.
Qed.

Lemma distances_in_order (d : list Q) (n : nat) :
  (forall i, (S i < n)%nat -> nth i d 0 + HKL_EPSILON < nth (S i) d 0) ->
  forall i j, (i < j < n)%nat -> sort_before d i j = true.
Proof.
  intros Hadj i j [Hij Hj]. pose proof HKL_EPSILON_pos as He.
  assert (Hlt : nth i d 0 + HKL_EPSILON < nth j d 0).
  { induction j as [|j IH]; [lia|].
    destruct (Nat.eq_dec i j) as [->|Hne]; [apply Hadj, Hj|].
    specialize (IH ltac:(lia) ltac:(lia)). specialize (Hadj j Hj). lra. }
  unfold sort_before. apply andb_true_iff. split; apply Qltb_lt; [lra|].
  rewrite Qabs_neg by lra. lra.
Qed.

(** X15: [hkl_geometry_list_sort] leaves a list that is in order as it is.
    When every item is farther from the reference than the item before it, by
    more than [HKL_EPSILON], the sort returns the same list (in particular a
    list of no or one item). *)
Theorem list_sort_in_order (self : HklGeometryList) (ref : HklGeometry) :
  (forall i a b, items self !! i = Some a -> items self !! S i = Some b ->
     hkl_geometry_distance ref a + HKL_EPSILON < hkl_geometry_distance ref b) ->
  hkl_geometry_list_sort self ref = self.
Proof.
  intros Hadj. unfold hkl_geometry_list_sort. rewrite sort_idx_fold.
  pose proof (insert_fold_in_order (sort_distances self ref) (length (items self)) 0) as F.
  change (seq 0 0) with (@nil nat) in F. cbn [Nat.add] in F. rewrite F.
  - pose proof (omap_lookup_seq (items self) []) as E. cbn in E.
    rewrite E. destruct self. reflexivity.
  - apply distances_in_order. intros i Hi.
    destruct (lookup_lt_is_Some_2 (items self) i ltac:(lia)) as [a Ha].
    destruct (lookup_lt_is_Some_2 (items self) (S i) Hi) as [b Hb].
    rewrite (sort_distances_nth self ref i a Ha), (sort_distances_nth self ref (S i) b Hb).
    apply (Hadj i a b Ha Hb).
Qed.

(** An instance of X15: two solutions at distances 1 and 2 from the
    reference. *)
Lemma list_sort_in_order_witness :
  let self := mkGeometryList [one_axis_geometry (- M_PI) M_PI 1;
                              one_axis_geometry (- M_PI) M_PI 2] in
  hkl_geometry_list_sort self (one_axis_geometry (- M_PI) M_PI 0) = self.
Proof.
  intros self. apply (list_sort_in_order self (one_axis_geometry (- M_PI) M_PI 0)).
  intros [|[|i]] a b Ha Hb; cbn in Ha, Hb; try discriminate.
  injection Ha as <-. injection Hb as <-. reflexivity.
Defined.

(** ** SOLEIL SIXS MED 2+3: the fitted slit position and the hook on a list *)

Lemma last_cons_default {A} (l : list A) : forall x d,
  List.last (x :: l) d = List.last l x.
Proof.
  induction l as [|y l IH]; intros x d; [reflexivity|].
  change (List.last (x :: y :: l) d) with (List.last (y :: l) d).
  rewrite (IH y d), (IH y x). reflexivity.
Qed.

Section SlitFitMore.
Context `{AxisKernel}.

(** The slit axis holds the last point at which [slits_func] was called. *)
Lemma evaluations_last_point k l : forall g a,
  axes g !! k = Some a -> is_rotation a = true ->
  exists a', axes (fold_left (fun g x => slits_func g k x) l g) !! k = Some a' /\
    is_rotation a' = true /\ _value a' = List.last l (_value a).
Proof.
  induction l as [|x l IH]; intros g a Ha Hrot; cbn [fold_left].
  - exists a. destruct a; auto.
  - assert (Hx : exists b, axes (slits_func g k x) !! k = Some b /\
               is_rotation b = true /\ _value b = x).
    { unfold slits_func, set_axis_value.
      destruct (geometry_update_axis
                  (set_axes g (alter (fun axis => hkl_parameter_value_set_ignore axis x)
                                 k (axes g))) k
                  (hkl_parameter_value_set_ignore a x)) as (b & Hb & _ & _ & Hv & _ & Ht).
      { cbn [axes set_axes]. rewrite list_lookup_alter_eq, Ha. reflexivity. }
      exists b. split; [exact Hb|].
      destruct (value_set_ignore_same a x) as (_ & _ & _ & Hk).
      destruct (value_set_ignore_rotation a x Hrot) as [Hvx _].
      unfold is_rotation in *. rewrite Ht. split; congruence. }
    destruct Hx as (b & Hb & Hrb & Hvb).
    destruct (IH (slits_func g k x) b Hb Hrb) as (a' & Ha' & Hra' & Hva').
    exists a'. split; [exact Ha'|]. split; [exact Hra'|]. rewrite Hva', Hvb.
    symmetry. apply last_cons_default.
Qed.

(** X16: what a successful slit fit leaves in the slit axis.  When the
    solver stops with a status other than GSL_CONTINUE, the value of the slit
    axis is the last point at which the solver evaluated [slits_func] (the
    value from before the fit if it evaluated none), brought into [0, 2 pi)
    by a whole number of turns. *)
Theorem slit_fit_keeps_last_point (run : solver_run) (geometry : HklGeometry)
    (detector_holder : HklHolder) (slits_id : nat) (axis : HklParameter) :
  holders geometry !! 1%nat = Some detector_holder ->
  last (idx detector_holder) = Some slits_id ->
  axes geometry !! slits_id = Some axis ->
  is_rotation axis = true ->
  status run <> GSL_CONTINUE ->
  let point := List.last (evaluations run) (_value axis) in
  exists a',
    axes (hkl_geometry_list_multiply_soleil_sixs_med_2_3 run geometry) !! slits_id
    = Some a' /\
    _value a' = gsl_sf_angle_restrict_pos point /\
    0 <= _value a' < 2 * M_PI /\
    exists k : Z, _value a' == point + inject_Z k * (2 * M_PI).
Proof.
  intros Hh Hlast Haxis Hrot Hst point.
  unfold hkl_geometry_list_multiply_soleil_sixs_med_2_3.
  rewrite Hh, Hlast, Haxis. unfold fit_slits_orientation.
  destruct (evaluations_last_point slits_id (evaluations run) geometry axis Haxis Hrot)
    as (b & Hb & _ & Hvb).
  assert (Hres : exists a',
            alter (fun axis0 => write_value axis0 (gsl_sf_angle_restrict_pos (_value axis0)))
              slits_id
              (axes (fold_left (fun g x => slits_func g slits_id x) (evaluations run)
                       geometry)) !! slits_id = Some a' /\
            _value a' = gsl_sf_angle_restrict_pos point).
  { rewrite list_lookup_alter_eq, Hb. cbn. eexists. split; [reflexivity|].
    fold point in Hvb. rewrite Hvb. reflexivity. }
  destruct Hres as (a' & Ha' & Hva').
  assert (Hturn : exists k : Z,
            gsl_sf_angle_restrict_pos point == point + inject_Z k * (2 * M_PI)).
  { exists (- Qfloor (point / (2 * M_PI)))%Z. unfold gsl_sf_angle_restrict_pos.
    rewrite inject_Z_opp. ring. }
  destruct (status run); try contradiction; cbn [axes set_axes];
    exists a'; (split; [exact Ha'|]); (split; [exact Hva'|]); rewrite Hva';
    (split; [apply restrict_pos_range | exact Hturn]).
Qed.
End SlitFitMore.

(** Altering the items of a list one position after the other. *)
Lemma fold_alter_lookup {A} (f : nat -> A -> A) : forall m k (l : list A) i,
  fold_left (fun l i => alter (f i) i l) (seq k m) l !! i
  = if decide (k <= i < k + m)%nat then f i <$> l !! i else l !! i.
Proof.
  induction m as [|m IH]; intros k l i; cbn [seq fold_left].
  - destruct (decide _); [lia | reflexivity].
  - rewrite (IH (S k)).
    destruct (decide (S k <= i < S k + m)%nat) as [Hi|Hi].
    + rewrite list_lookup_alter_ne by lia. rewrite decide_True by lia. reflexivity.
    + destruct (decide (i = k)) as [->|Hne].
      * rewrite list_lookup_alter_eq, decide_True by lia. reflexivity.
      * rewrite list_lookup_alter_ne by lia. rewrite decide_False by lia. reflexivity.
Qed.

Lemma fold_alter_length {A} (f : nat -> A -> A) : forall js (l : list A),
  length (fold_left (fun l i => alter (f i) i l) js l) = length l.
Proof.
  induction js as [|j js IH]; intros l; cbn [fold_left]; [reflexivity|].
  rewrite IH. apply length_alter.
Qed.

Section SlitHook.
Context `{AxisKernel}.

(** The hook leaves every axis but one in position. *)
Lemma multiply_soleil_sixs_med_2_3_same run g :
  exists k, same_but_axis k g (hkl_geometry_list_multiply_soleil_sixs_med_2_3 run g).
Proof.
  unfold hkl_geometry_list_multiply_soleil_sixs_med_2_3.
  destruct (holders g !! 1%nat) as [detector_holder|];
    [|exists 0%nat; apply same_but_axis_refl].
  destruct (last (idx detector_holder)) as [slits_id|];
    [|exists 0%nat; apply same_but_axis_refl].
  destruct (axes g !! slits_id) as [axis|]; [|exists 0%nat; apply same_but_axis_refl].
  exists slits_id.
  pose proof (fit_slits_orientation_same run slits_id g) as Hfit.
  destruct (fit_slits_orientation run g slits_id) as [fitted res]. cbn [fst] in Hfit.
  destruct res; [exact Hfit|].
  eapply same_but_axis_trans; [exact Hfit | apply set_axis_value_same].
Qed.

(** X17: run on a list of solutions, the hook of the MED 2+3 diffractometers
    neither adds nor removes a solution, and moves at most one axis of each.
    This holds for [hkl_geometry_list_multiply] with the hook of "SOLEIL SIXS
    MED2+3" and for the [post_engine_set] of "SOLEIL SIXS MED2+3 v2"; the
    latter does nothing at all unless the parameter "eta_a_rotation",
    converted to [int], is 1. *)
Theorem slit_hook_keeps_solutions (runs : nat -> solver_run) (eta_a_rotation : Q)
    (self : HklGeometryList) :
  let multiplied :=
    hkl_geometry_list_multiply (Some (multiply_soleil_sixs_med_2_3_item runs)) self in
  let post :=
    hkl_engine_list_post_engine_set_med_2_3_v2_real runs eta_a_rotation (Some self) in
  (length (items multiplied) = length (items self) /\
   forall i item, items self !! i = Some item ->
     exists item' k, items multiplied !! i = Some item' /\ same_but_axis k item item') /\
  snd post = true /\
  (double_to_int eta_a_rotation = 1%Z -> fst post = Some multiplied) /\
  (double_to_int eta_a_rotation <> 1%Z -> fst post = Some self).
Proof.
  cbn zeta. unfold hkl_geometry_list_multiply,
    hkl_engine_list_post_engine_set_med_2_3_v2_real, multiply_soleil_sixs_med_2_3_item.
  cbn [items]. split; [split|].
  - apply fold_alter_length.
  - intros i item Hi.
    rewrite (fold_alter_lookup
               (fun i => hkl_geometry_list_multiply_soleil_sixs_med_2_3 (runs i))).
    rewrite decide_True by (apply lookup_lt_Some in Hi; lia).
    rewrite Hi. cbn.
    destruct (multiply_soleil_sixs_med_2_3_same (runs i) item) as [k Hk].
    eexists. exists k. split; [reflexivity | exact Hk].
  - destruct (Z.eqb_spec (double_to_int eta_a_rotation) 1) as [E|E]; cbn [fst snd].
    + split; [reflexivity|]. split; [reflexivity | contradiction].
    + split; [reflexivity|]. split; [contradiction | reflexivity].
Qed.
End SlitHook.

(** An instance of X16 on the MED 2+3 geometry, for a solver run that stops
    with success after three points, the last one at -1. *)
Lemma slit_fit_keeps_last_point_witness :
  exists a',
    axes (@hkl_geometry_list_multiply_soleil_sixs_med_2_3 example_kernel
            (mkRun [0; 1 # 2; -1] GSL_SUCCESS) sixs_med_2_3_geometry) !! 5%nat
    = Some a' /\
    _value a' = gsl_sf_angle_restrict_pos (-1) /\
    0 <= _value a' < 2 * M_PI /\
    exists k : Z, _value a' == -1 + inject_Z k * (2 * M_PI).
Proof.
  refine (@slit_fit_keeps_last_point example_kernel (mkRun [0; 1 # 2; -1] GSL_SUCCESS)
            sixs_med_2_3_geometry _ 5%nat _ eq_refl eq_refl eq_refl eq_refl _).
  discriminate.
Defined.

(** ** The lattice: setting and reading back, the B matrix *)

Module LatticeMoreFacts.
Import Lattice LatticeMore.
Local Open Scope R_scope.


Section MoreWithKernel.
Context `{Constants} `{ParameterKernel}.

(** What a successful [hkl_lattice_set] leaves in the parameters. *)
Lemma lattice_set_values self a b c alpha beta gamma unit_type :
  stores_values ->
  snd (hkl_lattice_set self a b c alpha beta gamma unit_type) = None ->
  let l := fst (hkl_lattice_set self a b c alpha beta gamma unit_type) in
  _value (Lattice.a l) = convert_to_default (Lattice.a self) a unit_type /\
  _value (Lattice.b l) = convert_to_default (Lattice.b self) b unit_type /\
  _value (Lattice.c l) = convert_to_default (Lattice.c self) c unit_type /\
  _value (Lattice.alpha l) = convert_to_default (Lattice.alpha self) alpha unit_type /\
  _value (Lattice.beta l) = convert_to_default (Lattice.beta self) beta unit_type /\
  _value (Lattice.gamma l) = convert_to_default (Lattice.gamma self) gamma unit_type.
Proof.
  intros [_ Hset]. unfold hkl_lattice_set.
  destruct (check_lattice_param _ _ _ _ _ _) as [e|v]; [discriminate|].
  destruct (hkl_parameter_value_set (Lattice.a self) _) as [pa|] eqn:Ea; [|discriminate].
  destruct (hkl_parameter_value_set (Lattice.b self) _) as [pb|] eqn:Eb; [|discriminate].
  destruct (hkl_parameter_value_set (Lattice.c self) _) as [pc|] eqn:Ec; [|discriminate].
  destruct (hkl_parameter_value_set (Lattice.alpha self) _) as [palpha|] eqn:Eal;
    [|discriminate].
  destruct (hkl_parameter_value_set (Lattice.beta self) _) as [pbeta|] eqn:Ebe;
    [|discriminate].
  destruct (hkl_parameter_value_set (Lattice.gamma self) _) as [pgamma|] eqn:Ega;
    [|discriminate].
  destruct (hkl_parameter_value_set (volume self) _) as [pvolume|] eqn:Ev;
    [|discriminate].
  intros _. cbn.
  rewrite (Hset _ _ _ Ea), (Hset _ _ _ Eb), (Hset _ _ _ Ec), (Hset _ _ _ Eal),
    (Hset _ _ _ Ebe), (Hset _ _ _ Ega). repeat split.
Qed.

(** X18: set the lattice, then read it.  After a successful
    [hkl_lattice_set] in the default unit, [hkl_lattice_get] in the default
    unit returns the six values given (assuming that a parameter holds the
    value it was set to); after a set in the user unit it returns the values
    converted to the default unit. *)
Theorem lattice_set_then_get (self : HklLattice) (a b c alpha beta gamma : R)
    (unit_type : HklUnitEnum) :
  stores_values ->
  snd (hkl_lattice_set self a b c alpha beta gamma unit_type) = None ->
  hkl_lattice_get (fst (hkl_lattice_set self a b c alpha beta gamma unit_type))
    HKL_UNIT_DEFAULT
  = (convert_to_default (Lattice.a self) a unit_type,
     convert_to_default (Lattice.b self) b unit_type,
     convert_to_default (Lattice.c self) c unit_type,
     convert_to_default (Lattice.alpha self) alpha unit_type,
     convert_to_default (Lattice.beta self) beta unit_type,
     convert_to_default (Lattice.gamma self) gamma unit_type) /\
  (unit_type = HKL_UNIT_DEFAULT ->
   hkl_lattice_get (fst (hkl_lattice_set self a b c alpha beta gamma unit_type))
     HKL_UNIT_DEFAULT
   = (a, b, c, alpha, beta, gamma)).
Proof.
  intros Hstore Hok.
  destruct (lattice_set_values self a b c alpha beta gamma unit_type Hstore Hok)
    as (Ea & Eb & Ec & Eal & Ebe & Ega).
  assert (E : hkl_lattice_get
                (fst (hkl_lattice_set self a b c alpha beta gamma unit_type))
                HKL_UNIT_DEFAULT
              = (convert_to_default (Lattice.a self) a unit_type,
                 convert_to_default (Lattice.b self) b unit_type,
                 convert_to_default (Lattice.c self) c unit_type,
                 convert_to_default (Lattice.alpha self) alpha unit_type,
                 convert_to_default (Lattice.beta self) beta unit_type,
                 convert_to_default (Lattice.gamma self) gamma unit_type)).
  { unfold hkl_lattice_get, hkl_parameter_value_get.
    rewrite Ea, Eb, Ec, Eal, Ebe, Ega. reflexivity. }
  split; [exact E|]. intros ->. rewrite E. reflexivity.
Qed.

(** X19: what a failed [hkl_lattice_set] leaves.  When the set is refused
    by the check of the angles, the lattice is exactly what it was; whatever
    the reason of the failure, the volume parameter is the one from before:
    it is the last to be set and never rolled back. *)
Theorem lattice_set_failure_frame (self : HklLattice) (a b c alpha beta gamma : R)
    (unit_type : HklUnitEnum) (e : lattice_error) :
  snd (hkl_lattice_set self a b c alpha beta gamma unit_type) = Some e ->
  volume (fst (hkl_lattice_set self a b c alpha beta gamma unit_type)) = volume self /\
  (e = HKL_LATTICE_CHECK_LATTICE ->
   fst (hkl_lattice_set self a b c alpha beta gamma unit_type) = self).
Proof.
  unfold hkl_lattice_set.
  destruct (check_lattice_param _ _ _ _ _ _) as [e'|v] eqn:Hc.
  - cbn. intros _. split; reflexivity.
  - destruct (hkl_parameter_value_set (Lattice.a self) _) as [pa|];
      [|cbn; intros [= <-]; split; [reflexivity | discriminate]].
    destruct (hkl_parameter_value_set (Lattice.b self) _) as [pb|];
      [|cbn; intros [= <-]; split; [reflexivity | discriminate]].
    destruct (hkl_parameter_value_set (Lattice.c self) _) as [pc|];
      [|cbn; intros [= <-]; split; [reflexivity | discriminate]].
    destruct (hkl_parameter_value_set (Lattice.alpha self) _) as [palpha|];
      [|cbn; intros [= <-]; split; [reflexivity | discriminate]].
    destruct (hkl_parameter_value_set (Lattice.beta self) _) as [pbeta|];
      [|cbn; intros [= <-]; split; [reflexivity | discriminate]].
    destruct (hkl_parameter_value_set (Lattice.gamma self) _) as [pgamma|];
      [|cbn; intros [= <-]; split; [reflexivity | discriminate]].
    destruct (hkl_parameter_value_set (volume self) _) as [pvolume|];
      [discriminate | cbn; intros [= <-]; split; [reflexivity | discriminate]].
Qed.





End MoreWithKernel.

Lemma example_stores_values : @stores_values example_parameter_kernel.
Proof.
  split; cbn; intros;
    match goal with E : Some _ = Some _ |- _ => injection E as <- end;
    reflexivity.
Qed.


(** An instance of X18: a flat cell of sides 2, 3 and 4 is set and read
    back. *)
Lemma lattice_set_then_get_witness :
  let p := mkParameter "a" 0 10 1 true true hkl_unit_length_nm hkl_unit_length_nm in
  @hkl_lattice_get example_parameter_kernel
    (fst (@hkl_lattice_set example_parameter_kernel (mkLattice p p p p p p p)
            2 3 4 0 0 0 HKL_UNIT_DEFAULT))
    HKL_UNIT_DEFAULT
  = (2, 3, 4, 0, 0, 0).
Proof.
  intros p.
  refine (proj2 (@lattice_set_then_get example_parameter_kernel (mkLattice p p p p p p p)
                   2 3 4 0 0 0 HKL_UNIT_DEFAULT example_stores_values _) eq_refl).
  unfold hkl_lattice_set, check_lattice_param.
  destruct (Rlt_dec _ 0) as [Hlt|_]; [|reflexivity].
  exfalso. unfold lattice_D, convert_to_default in Hlt. rewrite cos_0 in Hlt. lra.
Defined.

(** An instance of X19: the angles 0, 0 and pi make no cell. *)
Lemma lattice_set_failure_frame_witness :
  let p := mkParameter "a" 0 10 1 true true hkl_unit_length_nm hkl_unit_length_nm in
  fst (@hkl_lattice_set example_parameter_kernel (mkLattice p p p p p p p)
         1 1 1 0 0 PI HKL_UNIT_DEFAULT)
  = mkLattice p p p p p p p.
Proof.
  intros p.
  refine (proj2 (@lattice_set_failure_frame example_parameter_kernel
                   (mkLattice p p p p p p p) 1 1 1 0 0 PI HKL_UNIT_DEFAULT
                   HKL_LATTICE_CHECK_LATTICE _) eq_refl).
  unfold hkl_lattice_set, check_lattice_param.
  destruct (Rlt_dec _ 0) as [_|Hge]; [reflexivity|].
  exfalso. apply Hge. unfold lattice_D, convert_to_default. rewrite cos_0, cos_PI. lra.
Defined.



End LatticeMoreFacts.

(** ** The q engines: bounds and agreement *)

Module EngineQMoreFacts.
Import EngineQ EngineQMore.
Local Open Scope R_scope.

(** X22: q stays within [qmax].  For a wavelength lambda > 0 (and [HKL_TAU]
    not negative) the value that [get_q_real] computes lies between
    -2 tau / lambda and 2 tau / lambda, whatever the vectors ki and kf are. *)
Theorem get_q_real_bounded `{Constants} `{VectorKernel} (engine : HklEngineQ)
    (geometry : HklGeometry) (detector : HklDetector) :
  0 <= HKL_TAU ->
  0 < hkl_source_get_wavelength (source geometry) ->
  Rabs (q_value (fst (get_q_real engine geometry detector)))
  <= qmax (hkl_source_get_wavelength (source geometry)).
Proof.
  intros Htau Hlambda. unfold get_q_real. cbn [fst q_value].
  set (lambda := hkl_source_get_wavelength (source geometry)) in *.
  set (theta := if Rlt_dec _ 0 then _ else _).
  assert (Hq : 0 <= qmax lambda).
  { unfold qmax. apply Rmult_le_pos; [lra|]. apply Rlt_le, Rinv_0_lt_compat, Hlambda. }
  rewrite Rabs_mult, (Rabs_right (qmax lambda)) by lra.
  rewrite <- (Rmult_1_r (qmax lambda)) at 2.
  apply Rmult_le_compat_l; [exact Hq|].
  apply Rabs_le. pose proof (SIN_bound theta). lra.
Qed.

(** X23: the engines q and q2 agree up to the sign.  On the same geometry
    and detector, the q of [get_q_real] is the q of [get_q2_real], negated
    exactly when the y or the z coordinate of kf is negative; the q of the
    engine q2 carries no sign convention. *)
Theorem q_and_q2_agree `{Constants} `{VectorKernel} `{PlaneKernel}
    (engine : HklEngineQ) (engine2 : HklEngineQ2)
    (geometry : HklGeometry) (detector : HklDetector) :
  let kf := hkl_geometry_kf_get geometry detector in
  let q := q_value (fst (get_q_real engine geometry detector)) in
  let q2 := q2_q (fst (get_q2_real engine2 geometry detector)) in
  snd (get_q2_real engine2 geometry detector) = true /\
  (data1 kf < 0 \/ data2 kf < 0 -> q = - q2) /\
  (~ (data1 kf < 0 \/ data2 kf < 0) -> q = q2) /\
  Rabs q = Rabs q2.
Proof.
  intros kf q q2. unfold q, q2, get_q_real, get_q2_real, _q2. cbn [fst snd q_value q2_q].
  fold kf. split; [reflexivity|].
  destruct (Rlt_dec (data1 kf) 0) as [Hy|Hy].
  - rewrite sin_neg. repeat split; intros; try tauto; try ring.
    rewrite <- Rabs_Ropp. f_equal. ring.
  - destruct (Rlt_dec (data2 kf) 0) as [Hz|Hz].
    + rewrite sin_neg. repeat split; intros; try tauto; try ring.
      rewrite <- Rabs_Ropp. f_equal. ring.
    + repeat split; intros; try tauto.
Qed.

(** An instance of X22, with [HKL_TAU] = 2 pi and the wavelength 1.54. *)
Lemma get_q_real_bounded_witness :
  Rabs (q_value (fst (@get_q_real example_constants example_vector_kernel
                        (mkEngineQ 0) hkl_geometry_new HKL_DETECTOR_TYPE_0D)))
  <= @qmax example_constants (hkl_source_get_wavelength (source hkl_geometry_new)).
Proof.
  apply (@get_q_real_bounded example_constants example_vector_kernel).
  - cbn. pose proof PI_RGT_0. lra.
  - unfold hkl_source_get_wavelength, Q2R. cbn. lra.
Defined.

(** An instance of X23, with ki along x and kf along y: kf has no negative
    coordinate and both engines give the same q. *)
Lemma q_and_q2_agree_witness :
  q_value (fst (@get_q_real example_constants example_vector_kernel
                  (mkEngineQ 0) hkl_geometry_new HKL_DETECTOR_TYPE_0D))
  = q2_q (fst (@get_q2_real example_constants example_vector_kernel example_plane_kernel
                 (mkEngineQ2 0 0) hkl_geometry_new HKL_DETECTOR_TYPE_0D)).
Proof.
  refine (proj1 (proj2 (proj2
    (@q_and_q2_agree example_constants example_vector_kernel example_plane_kernel
       (mkEngineQ 0) (mkEngineQ2 0 0) hkl_geometry_new HKL_DETECTOR_TYPE_0D))) _).
  cbn. lra.
Defined.

End EngineQMoreFacts.

(** ** The diffractometers of the files *)

(** X24: the tables of the diffractometers agree with the geometries that
    are built.  For each of E4CVG, E4CVG2 and the four SOLEIL SIXS MED
    diffractometers, the constructor returns (an axis entered in both
    holders, beta or pitch, is entered with the same axis vector, so the
    process does not exit); the geometry has two holders and only rotations;
    and the names of its axes, in the order of the axis values, are the
    table of names that the factory declares.  For every mode that the files
    define on E4CVG and the MED diffractometers, the axes written are among
    the axes read, and the axes read are axes of the diffractometer. *)
Theorem factories_consistent `{AxisKernel} :
  Forall (fun f =>
            exists g, factory_new_geometry f = Return g /\
              map name (axes g) = factory_axes f /\
              length (holders g) = 2%nat /\
              forallb is_rotation (axes g) = true /\
              forallb (fun holder =>
                         forallb (fun i => (i <? length (axes g))%nat) (idx holder))
                (holders g) = true)
    factories /\
  Forall (fun entry =>
            exists f, In f factories /\ factory_name f = fst entry /\
              forallb (fun m => names_among (axes_w m) (axes_r m)
                                && names_among (axes_r m) (factory_axes f))
                (snd entry) = true)
    hkl_modes.
Proof.
  split.
  - unfold factories.
    repeat (apply Forall_cons; split;
            [eexists; split; [vm_compute; reflexivity | repeat split]|]).
    apply Forall_nil. exact I.
  - unfold hkl_modes, factories.
    apply Forall_cons; split;
      [eexists; split; [left; reflexivity | split; reflexivity]|].
    apply Forall_cons; split;
      [eexists; split; [right; right; left; reflexivity | split; reflexivity]|].
    apply Forall_cons; split;
      [eexists; split; [right; right; right; left; reflexivity | split; reflexivity]|].
    apply Forall_cons; split;
      [eexists; split; [do 4 right; left; reflexivity | split; reflexivity]|].
    apply Forall_cons; split;
      [eexists; split; [do 5 right; left; reflexivity | split; reflexivity]|].
    apply Forall_nil. exact I.
Qed.
